(** * Avro I/O of the Beam Python SDK: a shallow embedding of
      [sdks/python/apache_beam/io/avroio.py] and the properties of its
      splitting reader and of its schema and value converters. *)

From Stdlib Require Import ZArith List String Bool Lia.
From Stdlib Require Import Strings.Byte Sorting.Sorted.
Import ListNotations.
Open Scope string_scope.
Open Scope list_scope.
Open Scope Z_scope.

Set Warnings "-register-all".

Set Implicit Arguments.

(* ================================================================== *)
(** * Python runtime: exceptions, results, values                      *)
(* ================================================================== *)

(** The exception classes the module can raise or let through. *)
Inductive exn : Type :=
| TypeError
| ValueError
| KeyError
| AttributeError
| RuntimeError
| EOFError
| OSError.

(** A call returns or raises.  Loops that Python runs without a bound
    are modelled with a step budget; [OutOfFuel] says the budget ran out
    before the call finished, and is not a Python outcome. *)
Inductive result (A : Type) : Type :=
| Ok (a : A)
| Raise (e : exn)
| OutOfFuel.
Arguments Ok {A} a.
Arguments Raise {A} e.
Arguments OutOfFuel {A}.

Definition bind {A B : Type} (r : result A) (k : A -> result B) : result B :=
  match r with
  | Ok a => k a
  | Raise e => Raise e
  | OutOfFuel => OutOfFuel
  end.

Notation "x <- c ;; k" := (bind c (fun x => k))
  (at level 61, c at next level, right associativity).
Notation "' pat <- c ;; k" := (bind c (fun x => match x with pat => k end))
  (at level 61, pat pattern, c at next level, right associativity).

Fixpoint mapM {A B : Type} (f : A -> result B) (l : list A) : result (list B) :=
  match l with
  | [] => Ok []
  | a :: l' => b <- f a ;; bs <- mapM f l' ;; Ok (b :: bs)
  end.

(** The same over named fields, in field order: the first failure ends it. *)
Definition mapM_fields {A B : Type} (f : A -> result B)
  : list (string * A) -> result (list (string * B)) :=
  fix go (l : list (string * A)) : result (list (string * B)) :=
    match l with
    | [] => Ok []
    | (name, a) :: l' => b <- f a ;; rest <- go l' ;; Ok ((name, b) :: rest)
    end.

(** Python values that travel through the converters.  A float is kept as
    its IEEE-754 bit pattern: the module never computes with it.  A row is
    a [beam.Row] with its attributes in the order they were given; a
    class object is kept by its name. *)
Inductive value : Type :=
| VNone
| VBool (b : bool)
| VInt (z : Z)
| VFloat (bits : Z)
| VStr (s : string)
| VBytes (bs : list byte)
| VList (l : list value)
| VDict (items : list (string * value))
| VRow (attrs : list (string * value))
| VClass (name : string).

(** A dict as an insertion-ordered association list. *)
Fixpoint dict_get {A : Type} (k : string) (d : list (string * A)) : option A :=
  match d with
  | [] => None
  | (k', v) :: d' => if String.eqb k k' then Some v else dict_get k d'
  end.

(** [d[k] = v]: an existing key keeps its place, a new one goes last. *)
Fixpoint dict_set {A : Type} (k : string) (v : A) (d : list (string * A))
  : list (string * A) :=
  match d with
  | [] => [(k, v)]
  | (k', v') :: d' =>
      if String.eqb k k' then (k', v) :: d' else (k', v') :: dict_set k v d'
  end.

(** [{k: v for (k, v) in items}], built left to right. *)
Definition dict_of_items {A : Type} (items : list (string * A))
  : list (string * A) :=
  fold_left (fun d kv => dict_set (fst kv) (snd kv) d) items [].

(* ================================================================== *)
(** * ctypes: fixed-width reinterpretation                             *)
(* ================================================================== *)

(** [ctypes.c_uint32(v).value] and friends: the low [w] bits of the
    integer, read unsigned or signed; no overflow check.  A [bool] is an
    [int]; anything else is refused by ctypes. *)
Definition as_unsigned (w : Z) (z : Z) : Z := z mod 2 ^ w.

Definition as_signed (w : Z) (z : Z) : Z :=
  let u := z mod 2 ^ w in
  if u <? 2 ^ (w - 1) then u else u - 2 ^ w.

Definition ctypes_int (conv : Z -> Z) (v : value) : result value :=
  match v with
  | VInt z => Ok (VInt (conv z))
  | VBool b => Ok (VInt (conv (if b then 1 else 0)))
  | _ => Raise TypeError
  end.

Definition c_uint32 := ctypes_int (as_unsigned 32).
Definition c_uint64 := ctypes_int (as_unsigned 64).
Definition c_int32 := ctypes_int (as_signed 32).
Definition c_int64 := ctypes_int (as_signed 64).

(** [avro_atomic_value_to_beam_atomic_value(avro_type, value)] *)
Definition avro_atomic_value_to_beam_atomic_value
  (avro_type : string) (v : value) : result value :=
  if String.eqb avro_type "int" then c_uint32 v
  else if String.eqb avro_type "long" then c_uint64 v
  else Ok v.

(** [beam_atomic_value_to_avro_atomic_value(avro_type, value)] *)
Definition beam_atomic_value_to_avro_atomic_value
  (avro_type : string) (v : value) : result value :=
  if String.eqb avro_type "int" then c_int32 v
  else if String.eqb avro_type "long" then c_int64 v
  else Ok v.

(* ================================================================== *)
(** * File objects and byte strings                                    *)
(* ================================================================== *)

Definition len {A : Type} (l : list A) : Z := Z.of_nat (List.length l).

(** An open binary file: its bytes and the current position. *)
Record file : Type := mkfile { content : list byte; position : Z }.

(** [f.read(n)]: up to [n] bytes from the current position, fewer only at
    the end of the file; a negative [n] reads to the end. *)
Definition f_read (f : file) (n : Z) : list byte * file :=
  let rest := skipn (Z.to_nat (position f)) (content f) in
  let data := if n <? 0 then rest else firstn (Z.to_nat n) rest in
  (data, mkfile (content f) (position f + len data)).

Definition f_tell (f : file) : Z := position f.

(** [f.seek(p)]; a negative target is refused by the operating system. *)
Definition f_seek (f : file) (p : Z) : result file :=
  if p <? 0 then Raise OSError else Ok (mkfile (content f) p).

(** [f.seek(off, os.SEEK_CUR)] *)
Definition f_seek_cur (f : file) (off : Z) : result file :=
  f_seek f (position f + off).

Fixpoint starts_with (m d : list byte) : bool :=
  match m, d with
  | [], _ => true
  | _ :: _, [] => false
  | a :: m', b :: d' => Byte.eqb a b && starts_with m' d'
  end.

Fixpoint find_from (d m : list byte) (i : Z) : Z :=
  if starts_with m d then i
  else match d with
       | [] => -1
       | _ :: d' => find_from d' m (i + 1)
       end.

(** [data.find(sub)]: the lowest index of [sub] in [data], or [-1]. *)
Definition bytes_find (data sub : list byte) : Z := find_from data sub 0.

Definition bytes_eqb (a b : list byte) : bool :=
  (List.length a =? List.length b)%nat && starts_with a b.

(* ================================================================== *)
(** * _AvroUtils.advance_file_past_next_sync_marker                    *)
(* ================================================================== *)

Definition buf_size : Z := 10000.

(** The [while data:] loop; [data] is the chunk read last and [f] the
    file after that read.  Returns [True] or falls off the end ([None]). *)
Fixpoint advance_loop (fuel : nat) (f : file) (sync_marker data : list byte)
  : result (value * file) :=
  match fuel with
  | O => OutOfFuel
  | S fuel' =>
      match data with
      | [] => Ok (VNone, f)
      | _ :: _ =>
          let pos := bytes_find data sync_marker in
          if 0 <=? pos then
            let backtrack := len data - pos - len sync_marker in
            f' <- f_seek_cur f (-1 * backtrack) ;;
            Ok (VBool true, f')
          else
            f1 <- (if len sync_marker <=? f_tell f
                   then f_seek_cur f (-1 * (len sync_marker - 1))
                   else Ok f) ;;
            let '(data', f2) := f_read f1 buf_size in
            advance_loop fuel' f2 sync_marker data'
      end
  end.

Definition advance_file_past_next_sync_marker
  (fuel : nat) (f : file) (sync_marker : list byte) : result (value * file) :=
  let '(data, f1) := f_read f buf_size in
  advance_loop fuel f1 sync_marker data.

(** What the scanner is meant to find: [sub] sits in [c] at index [q]. *)
Definition occurs_at (c sub : list byte) (q : Z) : Prop :=
  0 <= q /\ q + len sub <= len c /\
  firstn (List.length sub) (skipn (Z.to_nat q) c) = sub.

(* ================================================================== *)
(** * The container reader the source drives (fastavro.block_reader)   *)
(* ================================================================== *)

(** fastavro is an external library.  Its reader is modelled after the
    container layout: a header of magic bytes, a metadata map and a
    16-byte sync marker, then blocks of
    [record count][payload size][payload][sync marker], the two numbers
    as zig-zag variable-length integers. *)

Definition byte_val (b : byte) : Z := Z.of_N (Byte.to_N b).

Definition MAGIC : list byte := [x4f; x62; x6a; x01]%byte.
Definition SYNC_SIZE : Z := 16.

Definition zigzag (n : Z) : Z := Z.lxor (Z.shiftr n 1) (- Z.land n 1).

(** The continuation bytes of a variable-length integer. *)
Fixpoint varint_rest (rest : list byte) (n shift used : Z) : result (Z * Z) :=
  match rest with
  | [] => Raise TypeError
  | c :: rest' =>
      let b := byte_val c in
      let n' := Z.lor n (Z.shiftl (Z.land b 127) shift) in
      if Z.land b 128 =? 0 then Ok (n', used + 1)
      else varint_rest rest' n' (shift + 7) (used + 1)
  end.

(** [read_long(fo)] *)
Definition read_long (f : file) : result (Z * file) :=
  match skipn (Z.to_nat (position f)) (content f) with
  | [] => Raise EOFError
  | c :: rest =>
      let b := byte_val c in
      let n := Z.land b 127 in
      '(n', used) <- (if Z.land b 128 =? 0 then Ok (n, 1)
                      else varint_rest rest n 7 1) ;;
      Ok (zigzag n', mkfile (content f) (position f + used))
  end.

(** [read_bytes(fo)]: a length, then that many bytes. *)
Definition read_bytes (f : file) : result (list byte * file) :=
  '(size, f1) <- read_long f ;;
  let '(out, f2) := f_read f1 size in
  if len out =? size then Ok (out, f2) else Raise EOFError.

(** The metadata map: runs of key/value pairs, each run announced by its
    count, a zero count ending the map; [pending] pairs are still due in
    the current run. *)
Fixpoint read_map (fuel : nat) (f : file) (pending : Z)
  (items : list (list byte * list byte))
  : result (list (list byte * list byte) * file) :=
  match fuel with
  | O => OutOfFuel
  | S fuel' =>
      if pending =? 0 then
        '(count, f1) <- read_long f ;;
        if count =? 0 then Ok (items, f1)
        else if count <? 0 then
          '(_, f2) <- read_long f1 ;;
          read_map fuel' f2 (- count) items
        else read_map fuel' f1 count items
      else
        '(key, f1) <- read_bytes f ;;
        '(val, f2) <- read_bytes f1 ;;
        read_map fuel' f2 (pending - 1) (items ++ [(key, val)])
  end.

Record Header : Type := mkHeader {
  magic : list byte;
  meta : list (list byte * list byte);
  sync : list byte
}.

(** Opening the reader parses the header and leaves the file behind it. *)
Definition block_reader (fuel : nat) (f : file) : result (Header * file) :=
  let '(mg, f1) := f_read f 4 in
  '(mt, f2) <- read_map fuel f1 0 [] ;;
  let '(sy, f3) := f_read f2 SYNC_SIZE in
  if bytes_eqb mg MAGIC then Ok (mkHeader mg mt sy, f3)
  else Raise ValueError.

Record Block : Type := mkBlock {
  offset : Z;
  size : Z;
  num_records : Z;
  block_bytes : list byte
}.

(** [next(blocks)]: the block at the file's current position; [None] is
    the reader's end of iteration, which it reaches when no byte is left
    where a block should start. *)
Definition next_block (sync_marker : list byte) (f : file)
  : result (option Block * file) :=
  let off := f_tell f in
  match read_long f with
  | Raise EOFError => Ok (None, f)
  | Raise e => Raise e
  | OutOfFuel => OutOfFuel
  | Ok (num, f1) =>
      '(payload, f2) <- read_bytes f1 ;;
      let '(mark, f3) := f_read f2 SYNC_SIZE in
      if bytes_eqb mark sync_marker
      then Ok (Some (mkBlock off (f_tell f3 - off) num payload), f3)
      else Raise ValueError
  end.

(* ================================================================== *)
(** * Range trackers                                                   *)
(* ================================================================== *)

(** The part of [iobase.RangeTracker] that [read_records] calls. *)
Class RangeTracker (T : Type) : Type := {
  start_position : T -> option Z;
  try_claim : T -> Z -> result (bool * T)
}.

(** Modelled from the spec: [apache_beam.io.range_trackers] is not among
    the sources.  The tracker of a byte range [[start, stop)] accepts a
    claimed position inside the range and rejects one at or past [stop];
    the negotiation is one-directional and monotonically increasing, so a
    position that does not advance past the last accepted one is an error. *)
Record OffsetRangeTracker : Type := mkTracker {
  start_offset : Z;
  stop_offset : Z;
  last_record_start : Z
}.

Definition offset_range_tracker (start stop : Z) : OffsetRangeTracker :=
  mkTracker start stop (-1).

Definition offset_try_claim (rt : OffsetRangeTracker) (record_start : Z)
  : result (bool * OffsetRangeTracker) :=
  if (record_start <? last_record_start rt)
     || (negb (last_record_start rt =? -1)
         && (record_start =? last_record_start rt))
  then Raise ValueError
  else if stop_offset rt <=? record_start then Ok (false, rt)
  else Ok (true, mkTracker (start_offset rt) (stop_offset rt) record_start).

#[export] Instance OffsetRangeTracker_tracker : RangeTracker OffsetRangeTracker := {
  start_position rt := Some (start_offset rt);
  try_claim := offset_try_claim
}.

(* ================================================================== *)
(** * _FastAvroSource.read_records                                     *)
(* ================================================================== *)

(** What a run of the generator does that the outside can see, in order:
    the claims it makes and their answers, the blocks it takes from the
    reader, and the records it yields (each with the block it is from). *)
Inductive event : Type :=
| TryClaim (pos : Z) (accepted : bool)
| NextBlock (b : Block)
| Yield (b : Block) (record : value).

Definition yielded (ev : event) : list value :=
  match ev with
  | Yield _ r => [r]
  | _ => []
  end.

Definition records_of (trace : list event) : list value :=
  flat_map yielded trace.

Section ReadRecords.

Context {T : Type} `{RangeTracker T}.

(** Iterating a block decodes its payload: the records it yields and,
    when the payload is corrupt, the error that ends the iteration. *)
Variable decode_records : Block -> list value * option exn.

(** The [while range_tracker.try_claim(next_block_start):] loop. *)
Fixpoint read_loop (fuel : nat) (f : file) (sync_marker : list byte)
  (range_tracker : T) (next_block_start : Z) : list event * result unit :=
  match fuel with
  | O => ([], OutOfFuel)
  | S fuel' =>
      match try_claim range_tracker next_block_start with
      | Raise e => ([], Raise e)
      | OutOfFuel => ([], OutOfFuel)
      | Ok (false, _) => ([TryClaim next_block_start false], Ok tt)
      | Ok (true, range_tracker') =>
          match next_block sync_marker f with
          | Raise e => ([TryClaim next_block_start true], Raise e)
          | OutOfFuel => ([TryClaim next_block_start true], OutOfFuel)
          | Ok (None, _) =>
              (* StopIteration raised inside a generator *)
              ([TryClaim next_block_start true], Raise RuntimeError)
          | Ok (Some block, f') =>
              let '(records, failure) := decode_records block in
              let evs := TryClaim next_block_start true
                         :: NextBlock block :: map (Yield block) records in
              match failure with
              | Some e => (evs, Raise e)
              | None =>
                  let '(rest, r) :=
                    read_loop fuel' f' sync_marker range_tracker'
                              (offset block + size block) in
                  (evs ++ rest, r)
              end
          end
      end
  end.

(** [read_records(file_name, range_tracker)], run to its end; the file
    is given by its bytes. *)
Definition read_records (fuel : nat) (data : list byte) (range_tracker : T)
  : list event * result unit :=
  let start := match start_position range_tracker with
               | Some s => s
               | None => 0
               end in
  match block_reader fuel (mkfile data 0) with
  | Raise e => ([], Raise e)
  | OutOfFuel => ([], OutOfFuel)
  | Ok (header, f) =>
      let sync_marker := sync header in
      let start := Z.max 0 (start - len sync_marker) in
      match f_seek f start with
      | Raise e => ([], Raise e)
      | OutOfFuel => ([], OutOfFuel)
      | Ok f1 =>
          match advance_file_past_next_sync_marker fuel f1 sync_marker with
          | Raise e => ([], Raise e)
          | OutOfFuel => ([], OutOfFuel)
          | Ok (_, f2) => read_loop fuel f2 sync_marker range_tracker (f_tell f2)
          end
      end
  end.

End ReadRecords.

(* ================================================================== *)
(** * Reading a file range by range                                    *)
(* ================================================================== *)

(** The container read front to back, as the block reader alone does
    it: every block from the end of the header to the end of the file. *)
Fixpoint read_all_blocks (fuel : nat) (sync_marker : list byte) (f : file)
  : result (list Block) :=
  match fuel with
  | O => OutOfFuel
  | S fuel' =>
      '(b, f') <- next_block sync_marker f ;;
      match b with
      | None => Ok []
      | Some block =>
          rest <- read_all_blocks fuel' sync_marker f' ;;
          Ok (block :: rest)
      end
  end.

Definition block_end (b : Block) : Z := offset b + size b.

(** Where an occurrence of [m] in [d] ends, for every occurrence, in
    increasing order; [i] is the index of the head of [d]. *)
Fixpoint marker_ends_from (d m : list byte) (i : Z) : list Z :=
  match d with
  | [] => []
  | _ :: d' =>
      (if starts_with m d then [i + len m] else [])
      ++ marker_ends_from d' m (i + 1)
  end.

Definition marker_ends (d m : list byte) : list Z := marker_ends_from d m 0.

(** Adjacent half-open ranges that cover [[lo, hi)] in order. *)
Fixpoint is_partition (lo hi : Z) (ranges : list (Z * Z)) : bool :=
  match ranges with
  | [] => lo =? hi
  | (a, b) :: rest => (a =? lo) && (a <=? b) && is_partition b hi rest
  end.

(** One range read on its own, with a tracker of its own. *)
Definition read_range (decode_records : Block -> list value * option exn)
  (fuel : nat) (data : list byte) (range : Z * Z) : list event * result unit :=
  read_records decode_records fuel data
               (offset_range_tracker (fst range) (snd range)).

(** The blocks [bs] lie back to back from position [p] to the end of the
    file: the reader takes each where the one before ended, and finds
    nothing more behind the last. *)
Fixpoint chain (data sync_marker : list byte) (p : Z) (bs : list Block) : Prop :=
  match bs with
  | [] => next_block sync_marker (mkfile data p) = Ok (None, mkfile data p)
  | b :: bs' =>
      next_block sync_marker (mkfile data p)
      = Ok (Some b, mkfile data (block_end b)) /\
      chain data sync_marker (block_end b) bs'
  end.

(** Whether a block starts inside the range [[lo, hi)]. *)
Definition starts_in (lo hi : Z) (b : Block) : bool :=
  (lo <=? offset b) && (offset b <? hi).

(** The shape of a run of [read_records]: rounds of an accepted claim, the
    block taken at the claimed position and its records, ended by a
    rejected claim, or cut short by an error or by the step budget. *)
Inductive guarded : list event -> result unit -> Prop :=
| guarded_cut (r : result unit) : r <> Ok tt -> guarded [] r
| guarded_rejected (p : Z) : guarded [TryClaim p false] (Ok tt)
| guarded_reader_fails (p : Z) (r : result unit) :
    r <> Ok tt -> guarded [TryClaim p true] r
| guarded_block_fails (b : Block) (records : list value) (e : exn) :
    guarded (TryClaim (offset b) true :: NextBlock b :: map (Yield b) records)
            (Raise e)
| guarded_block (b : Block) (records : list value)
                (rest : list event) (r : result unit) :
    guarded rest r ->
    guarded (TryClaim (offset b) true :: NextBlock b
             :: map (Yield b) records ++ rest) r.

(** A decoder for files of [long] records: [num_records] zig-zag
    variable-length integers in the payload. *)
Fixpoint decode_longs (n : nat) (f : file) : list value * option exn :=
  match n with
  | O => ([], None)
  | S n' =>
      match read_long f with
      | Ok (z, f') =>
          let '(l, e) := decode_longs n' f' in (VInt z :: l, e)
      | Raise e => ([], Some e)
      | OutOfFuel => ([], None)
      end
  end.

Definition decode_long_records (b : Block) : list value * option exn :=
  decode_longs (Z.to_nat (num_records b)) (mkfile (block_bytes b) 0).

(* ================================================================== *)
(** * Schemas on both sides                                            *)
(* ================================================================== *)

(** An Avro schema as fastavro hands it over ([_AvroSchemaType]): a type
    name, a list (a union), or a dict.  The dicts are the shapes the
    module reads: [{'type': t}] alone (primitives, [fixed], [enum], and
    anything that lacks the key its type calls for), arrays with their
    ['items'], maps with their ['values'], records with ['name'] and
    ['fields']. *)
Inductive avro_schema : Type :=
| AvroStr (name : string)
| AvroUnion (members : list avro_schema)
| AvroDict (type_name : string)
| AvroArray (items : avro_schema)
| AvroMap (values : avro_schema)
| AvroRecord (name : string) (fields : list (string * avro_schema)).

(** Modelled from the spec: [apache_beam.portability.api.schema_pb2] is
    not among the sources.  The atomic kinds of the row type system. *)
Inductive AtomicType : Type :=
| UNSPECIFIED | BYTE | INT16 | INT32 | INT64
| FLOAT | DOUBLE | STRING | BOOLEAN | BYTES.

(** Modelled from the spec: the [schema_pb2.FieldType] message, a
    [nullable] flag and one of the [type_info] alternatives (or none
    set); a row type carries its schema, an identifier and the ordered
    named fields. *)
Inductive FieldType : Type :=
| FieldType_unset (nullable : bool)
| FieldType_atomic (nullable : bool) (atomic_type : AtomicType)
| FieldType_array (nullable : bool) (element_type : FieldType)
| FieldType_iterable (nullable : bool) (element_type : FieldType)
| FieldType_map (nullable : bool) (key_type value_type : FieldType)
| FieldType_row (nullable : bool) (schema_id : string)
                (schema_fields : list (string * FieldType))
| FieldType_logical (nullable : bool) (urn : string).

Record Schema : Type := mkSchema {
  id : string;
  fields : list (string * FieldType)
}.

(** [schema_pb2.FieldType(row_type=schema_pb2.RowType(schema=s))] *)
Definition row_type_of (s : Schema) : FieldType :=
  FieldType_row false (id s) (fields s).

Definition AtomicType_eqb (a b : AtomicType) : bool :=
  match a, b with
  | UNSPECIFIED, UNSPECIFIED | BYTE, BYTE | INT16, INT16 | INT32, INT32
  | INT64, INT64 | FLOAT, FLOAT | DOUBLE, DOUBLE | STRING, STRING
  | BOOLEAN, BOOLEAN | BYTES, BYTES => true
  | _, _ => false
  end.

(** [t.atomic_type]: the enum's zero value when another alternative is set. *)
Definition atomic_type_of (t : FieldType) : AtomicType :=
  match t with
  | FieldType_atomic _ a => a
  | _ => UNSPECIFIED
  end.

Definition AVRO_PRIMITIVES_TO_BEAM_PRIMITIVES : list (string * AtomicType) :=
  [ ("boolean", BOOLEAN); ("int", INT32); ("long", INT64); ("float", FLOAT);
    ("double", DOUBLE); ("bytes", BYTES); ("string", STRING) ].

Definition BEAM_PRIMITIVES_TO_AVRO_PRIMITIVES : list (AtomicType * string) :=
  map (fun kv => (snd kv, fst kv)) AVRO_PRIMITIVES_TO_BEAM_PRIMITIVES.

Fixpoint atomic_get (a : AtomicType) (d : list (AtomicType * string))
  : option string :=
  match d with
  | [] => None
  | (a', v) :: d' => if AtomicType_eqb a a' then Some v else atomic_get a d'
  end.

(** Modelled from the spec: [schemas.typing_to_runner_api(Any)], the
    opaque "any" logical type that is not introspected further. *)
Definition typing_to_runner_api_Any : FieldType :=
  FieldType_logical true "beam:logical:pythonsdk_any:v1".

Definition is_name (s : string) (a : avro_schema) : bool :=
  match a with
  | AvroStr s' => String.eqb s s'
  | _ => false
  end.

(** The [for avro_type in union_type:] loop.  [x in d] hashes [x]: a
    member that is a dict or a list is unhashable. *)
Fixpoint union_members_scan (members : list avro_schema) : result FieldType :=
  match members with
  | [] => Ok typing_to_runner_api_Any
  | AvroStr s :: rest =>
      match dict_get s AVRO_PRIMITIVES_TO_BEAM_PRIMITIVES with
      | Some a => Ok (FieldType_atomic true a)
      | None => union_members_scan rest
      end
  | _ :: _ => Raise TypeError
  end.

Definition avro_union_type_to_beam_type (union_type : list avro_schema)
  : result FieldType :=
  if (len union_type =? 2) && existsb (is_name "null") union_type
  then union_members_scan union_type
  else Ok typing_to_runner_api_Any.

(** The branches on [type_name] for a dict that has no key but ['type']. *)
Definition bare_type_to_beam_type (type_name : string) : result FieldType :=
  match dict_get type_name AVRO_PRIMITIVES_TO_BEAM_PRIMITIVES with
  | Some a => Ok (FieldType_atomic false a)
  | None =>
      if String.eqb type_name "fixed" || String.eqb type_name "enum"
      then Ok (FieldType_atomic false STRING)
      else if String.eqb type_name "array" then Raise KeyError
      else if String.eqb type_name "map" then Raise KeyError
      else if String.eqb type_name "record" then Raise KeyError
      else Raise ValueError
  end.

Fixpoint avro_type_to_beam_type (avro_type : avro_schema) : result FieldType :=
  match avro_type with
  | AvroStr s => bare_type_to_beam_type s
  | AvroUnion members => avro_union_type_to_beam_type members
  | AvroDict type_name => bare_type_to_beam_type type_name
  | AvroArray items =>
      e <- avro_type_to_beam_type items ;;
      Ok (FieldType_array false e)
  | AvroMap values =>
      v <- avro_type_to_beam_type values ;;
      Ok (FieldType_map false (FieldType_atomic false STRING) v)
  | AvroRecord _ fs =>
      fs' <- mapM_fields avro_type_to_beam_type fs ;;
      Ok (FieldType_row false "" fs')
  end.

(** [isinstance(avro_schema, dict) and avro_schema['type'] == 'record'] *)
Definition is_record_dict (a : avro_schema) : bool :=
  match a with
  | AvroRecord _ _ => true
  | AvroDict t => String.eqb t "record"
  | _ => false
  end.

Definition avro_schema_to_beam_schema (avro_schema : avro_schema)
  : result Schema :=
  beam_type <- avro_type_to_beam_type avro_schema ;;
  if is_record_dict avro_schema then
    match beam_type with
    | FieldType_row _ i fs => Ok (mkSchema i fs)
    | _ => Ok (mkSchema "" [])
    end
  else Ok (mkSchema "" [("record", beam_type)]).

(** [schema_pb2.MapType] has a [key_type] and a [value_type]; the map
    branch asks it for [element_type], which it does not have. *)
Fixpoint beam_type_to_avro_type (beam_type : FieldType) : result avro_schema :=
  match beam_type with
  | FieldType_atomic nullable a =>
      match atomic_get a BEAM_PRIMITIVES_TO_AVRO_PRIMITIVES with
      | None => Raise KeyError
      | Some avro_primitive =>
          if nullable
          then Ok (AvroUnion [AvroStr "null"; AvroStr avro_primitive])
          else Ok (AvroDict avro_primitive)
      end
  | FieldType_array _ e =>
      i <- beam_type_to_avro_type e ;; Ok (AvroArray i)
  | FieldType_iterable _ e =>
      i <- beam_type_to_avro_type e ;; Ok (AvroArray i)
  | FieldType_map _ k _ =>
      if negb (AtomicType_eqb (atomic_type_of k) STRING)
      then Raise TypeError
      else Raise AttributeError
  | FieldType_row _ i fs =>
      fs' <- mapM_fields beam_type_to_avro_type fs ;;
      Ok (AvroRecord i fs')
  | FieldType_unset _ | FieldType_logical _ _ => Raise ValueError
  end.

Definition beam_schema_to_avro_schema (beam_schema : Schema)
  : result avro_schema :=
  beam_type_to_avro_type (row_type_of beam_schema).

(** ** Supported shapes *)

Definition is_primitive (s : string) : bool :=
  match dict_get s AVRO_PRIMITIVES_TO_BEAM_PRIMITIVES with
  | Some _ => true
  | None => false
  end.

(** The schemas built from the 1:1 primitives, nested records, arrays and
    two-member nullable unions of a primitive (maps set aside). *)
Fixpoint supported (a : avro_schema) : bool :=
  match a with
  | AvroStr s => is_primitive s
  | AvroDict s => is_primitive s
  | AvroUnion [AvroStr x; AvroStr y] =>
      (String.eqb x "null" && is_primitive y)
      || (String.eqb y "null" && is_primitive x)
  | AvroUnion _ => false
  | AvroArray i => supported i
  | AvroMap _ => false
  | AvroRecord _ fs => forallb (fun f => supported (snd f)) fs
  end.

(** The same schema in the spelling [beam_type_to_avro_type] writes: a
    type name as [{'type': name}], a nullable union with ["null"] first,
    a record under the (empty) identifier of the beam schema. *)
Fixpoint canonical (a : avro_schema) : avro_schema :=
  match a with
  | AvroStr s => AvroDict s
  | AvroDict s => AvroDict s
  | AvroUnion [AvroStr x; AvroStr y] =>
      if String.eqb x "null"
      then AvroUnion [AvroStr "null"; AvroStr y]
      else AvroUnion [AvroStr "null"; AvroStr x]
  | AvroUnion ms => AvroUnion ms
  | AvroArray i => AvroArray (canonical i)
  | AvroMap v => AvroMap (canonical v)
  | AvroRecord _ fs =>
      AvroRecord "" (map (fun f => (fst f, canonical (snd f))) fs)
  end.

(* ================================================================== *)
(** * Value converters                                                 *)
(* ================================================================== *)

(** A converter is built once from a type and then applied to values. *)
Definition converter : Type := value -> result value.

(** [for e in value]: what iterating a value gives. *)
Definition py_iter (v : value) : result (list value) :=
  match v with
  | VList l => Ok l
  | VDict d => Ok (map (fun kv => VStr (fst kv)) d)
  | VStr s => Ok (map (fun c => VStr (String c EmptyString)) (list_ascii_of_string s))
  | VBytes bs => Ok (map (fun b => VInt (byte_val b)) bs)
  | _ => Raise TypeError
  end.

(** [value.items()] *)
Definition py_items (v : value) : result (list (string * value)) :=
  match v with
  | VDict d => Ok d
  | _ => Raise AttributeError
  end.

(** [value[name]] *)
Definition py_getitem (v : value) (name : string) : result value :=
  match v with
  | VDict d => match dict_get name d with
               | Some x => Ok x
               | None => Raise KeyError
               end
  | _ => Raise TypeError
  end.

(** Modelled from the spec: [beam.Row] ([apache_beam.pvalue.Row]) is not
    among the sources.  [Row] called with keyword arguments keeps them as
    the attributes of the new object; the first parameter of its
    constructor is [self], so a keyword of that name is refused by the
    call. *)
Definition beam_Row (kwargs : list (string * value)) : result value :=
  if existsb (String.eqb "self") (map fst kwargs)
  then Raise TypeError
  else Ok (VRow kwargs).

(** [getattr(value, name)] on a row.  The names [__class__], [__dict__]
    and [__weakref__] are answered by the object itself, before its
    attributes are looked at: the class, the dict of the attributes, and
    [None] (nothing refers to the row weakly).  Every other name is looked
    up among the attributes. *)
Definition py_getattr (v : value) (name : string) : result value :=
  match v with
  | VRow d =>
      if String.eqb name "__class__" then Ok (VClass "Row")
      else if String.eqb name "__dict__" then Ok (VDict d)
      else if String.eqb name "__weakref__" then Ok VNone
      else match dict_get name d with
           | Some x => Ok x
           | None => Raise AttributeError
           end
  | _ => Raise AttributeError
  end.

Definition convert_elements (element_converter : converter) : converter :=
  fun v => l <- py_iter v ;; l' <- mapM element_converter l ;; Ok (VList l').

Definition convert_map_values (value_converter : converter) : converter :=
  fun v =>
    kvs <- py_items v ;;
    kvs' <- mapM (fun kv => x <- value_converter (snd kv) ;; Ok (fst kv, x)) kvs ;;
    Ok (VDict (dict_of_items kvs')).

(** The row branch applies the per-field converters in the order of the
    [converters] dict, reading each field with [get]; the dict of the
    converted fields is then handed to [wrap]. *)
Definition convert_fields_with (get : value -> string -> result value)
  (wrap : list (string * value) -> result value)
  (converters : list (string * converter)) : converter :=
  fun v =>
    kvs <- mapM (fun nc => x <- get v (fst nc) ;;
                           y <- snd nc x ;;
                           Ok (fst nc, y)) converters ;;
    wrap kvs.

Fixpoint avro_value_to_beam_value (beam_type : FieldType) : result converter :=
  match beam_type with
  | FieldType_atomic _ a =>
      match atomic_get a BEAM_PRIMITIVES_TO_AVRO_PRIMITIVES with
      | None => Raise KeyError
      | Some avro_type =>
          Ok (fun v => avro_atomic_value_to_beam_atomic_value avro_type v)
      end
  | FieldType_array _ e =>
      c <- avro_value_to_beam_value e ;; Ok (convert_elements c)
  | FieldType_iterable _ e =>
      c <- avro_value_to_beam_value e ;; Ok (convert_elements c)
  | FieldType_map _ k v =>
      if negb (AtomicType_eqb (atomic_type_of k) STRING)
      then Raise TypeError
      else c <- avro_value_to_beam_value v ;; Ok (convert_map_values c)
  | FieldType_row _ _ fs =>
      cs <- mapM_fields avro_value_to_beam_value fs ;;
      Ok (convert_fields_with py_getitem beam_Row (dict_of_items cs))
  | FieldType_logical _ _ => Ok (fun v => Ok v)
  | FieldType_unset _ => Raise ValueError
  end.

Fixpoint beam_value_to_avro_value (beam_type : FieldType) : result converter :=
  match beam_type with
  | FieldType_atomic _ a =>
      match atomic_get a BEAM_PRIMITIVES_TO_AVRO_PRIMITIVES with
      | None => Raise KeyError
      | Some avro_type =>
          Ok (fun v => beam_atomic_value_to_avro_atomic_value avro_type v)
      end
  | FieldType_array _ e =>
      c <- beam_value_to_avro_value e ;; Ok (convert_elements c)
  | FieldType_iterable _ e =>
      c <- beam_value_to_avro_value e ;; Ok (convert_elements c)
  | FieldType_map _ k v =>
      if negb (AtomicType_eqb (atomic_type_of k) STRING)
      then Raise TypeError
      else c <- beam_value_to_avro_value v ;; Ok (convert_map_values c)
  | FieldType_row _ _ fs =>
      cs <- mapM_fields beam_value_to_avro_value fs ;;
      Ok (convert_fields_with py_getattr (fun kvs => Ok (VDict kvs))
            (dict_of_items cs))
  | FieldType_logical _ _ => Ok (fun v => Ok v)
  | FieldType_unset _ => Raise ValueError
  end.

(** The two messages that reach [beam_value_to_avro_value]: its
    parameter is a [FieldType], and one caller passes a [Schema]. *)
Inductive message : Type :=
| FieldType_message (t : FieldType)
| Schema_message (s : Schema).

(** Modelled from the spec: [m.WhichOneof("type_info")] of protobuf,
    which raises for a message that has no such group of alternatives. *)
Definition WhichOneof_type_info (m : message) : result FieldType :=
  match m with
  | FieldType_message t => Ok t
  | Schema_message _ => Raise ValueError
  end.

Definition beam_value_to_avro_value_of (m : message) : result converter :=
  t <- WhichOneof_type_info m ;; beam_value_to_avro_value t.

(** [avro_schema['type']] where the schema is not a string. *)
Definition schema_type_name (a : avro_schema) : result string :=
  match a with
  | AvroStr s => Ok s
  | AvroUnion _ => Raise TypeError
  | AvroDict t => Ok t
  | AvroArray _ => Ok "array"
  | AvroMap _ => Ok "map"
  | AvroRecord _ _ => Ok "record"
  end.

(** [avro_dict_to_beam_row(avro_schema, beam_schema)].  For a string the
    function calls itself with one argument, and the call fails for the
    missing [beam_schema].  The output type hint the result is decorated
    with does not change what the converter returns and is left out. *)
Definition avro_dict_to_beam_row (avro_schema : avro_schema)
  (beam_schema : Schema) : result converter :=
  match avro_schema with
  | AvroStr _ => Raise TypeError
  | _ =>
      t <- schema_type_name avro_schema ;;
      if String.eqb t "record"
      then avro_value_to_beam_value (row_type_of beam_schema)
      else Ok (fun record => Ok (VRow [("record", record)]))
  end.

(** [beam_row_to_avro_dict(avro_schema, beam_schema)]; a string stands
    for [{'type': avro_schema}]. *)
Definition beam_row_to_avro_dict (avro_schema : avro_schema)
  (beam_schema : Schema) : result converter :=
  t <- schema_type_name avro_schema ;;
  if String.eqb t "record"
  then beam_value_to_avro_value (row_type_of beam_schema)
  else
    convert <- beam_value_to_avro_value_of (Schema_message beam_schema) ;;
    Ok (fun row => x <- match row with
                        | VRow ((_, x) :: _) => Ok x
                        | _ => Raise TypeError
                        end ;;
                   convert x).

(* ================================================================== *)
(** * WriteToAvro                                                      *)
(* ================================================================== *)






(* ================================================================== *)
(** * Worked inputs                                                    *)
(* ================================================================== *)

(** A sync marker, and the header of a file of [long] records written
    with the null codec: magic, the two metadata entries, the marker. *)
Definition sample_sync : list byte :=
  [x02; x04; x06; x08; x0a; x0c; x0e; x10;
   x12; x14; x16; x18; x1a; x1c; x1e; x20]%byte.

Definition sample_header : list byte :=
  MAGIC
  ++ [x04]%byte
  ++ [x14]%byte ++ list_byte_of_string "avro.codec"
  ++ [x08]%byte ++ list_byte_of_string "null"
  ++ [x16]%byte ++ list_byte_of_string "avro.schema"
  ++ [x0c; x22]%byte ++ list_byte_of_string "long" ++ [x22]%byte
  ++ [x00]%byte
  ++ sample_sync.

(** Two blocks: the records 10, 20, 30 and the records 42, -1. *)
Definition two_block_file : list byte :=
  sample_header
  ++ [x06; x06; x14; x28; x3c]%byte ++ sample_sync
  ++ [x04; x04; x54; x01]%byte ++ sample_sync.

Definition two_block_header : Header :=
  mkHeader MAGIC
    [ (list_byte_of_string "avro.codec", list_byte_of_string "null");
      (list_byte_of_string "avro.schema",
       [x22]%byte ++ list_byte_of_string "long" ++ [x22]%byte) ]
    sample_sync.

Definition two_block_blocks : list Block :=
  [ mkBlock 57 21 3 [x14; x28; x3c]%byte;
    mkBlock 78 20 2 [x54; x01]%byte ].

(** Ranges that cut at the end of the header, at a block boundary and
    inside a block. *)
Definition two_block_ranges : list (Z * Z) :=
  [ (0, 57); (57, 78); (78, 80); (80, 98) ].

(** A file whose first block holds the records 1 to 16: their encoding
    is, byte for byte, the sync marker.  A second block holds 42. *)
Definition stray_marker_file : list byte :=
  sample_header
  ++ [x20; x20]%byte ++ sample_sync ++ sample_sync
  ++ [x02; x02; x54]%byte ++ sample_sync.

Definition stray_marker_blocks : list Block :=
  [ mkBlock 57 34 16 sample_sync;
    mkBlock 91 19 1 [x54]%byte ].

Definition stray_marker_ranges : list (Z * Z) := [ (0, 58); (58, 110) ].

(** A stream in which the marker lies across the end of the first
    buffered read, and one in which it does not occur. *)
Definition straddling_stream : list byte :=
  repeat x00%byte (Z.to_nat 9990) ++ sample_sync ++ [x00; x00]%byte.

Definition marker_free_stream : list byte := repeat x00%byte 20.

(** A record with a string-keyed map field; a nullable array; a row type
    with one [int32] field and a row of it. *)
Definition inventory_schema : avro_schema :=
  AvroRecord "Inventory"
    [ ("name", AvroStr "string"); ("counts", AvroMap (AvroStr "int")) ].

Definition nullable_array : list avro_schema :=
  [ AvroStr "null"; AvroArray (AvroStr "string") ].



(** The file is a container: header, then blocks up to its end, each
    payload decoding to its records. *)
Definition is_container (decode_records : Block -> list value * option exn)
  (data : list byte) : Prop :=
  exists fuel header fh bs,
    block_reader fuel (mkfile data 0) = Ok (header, fh) /\
    len (sync header) = SYNC_SIZE /\
    read_all_blocks fuel (sync header) fh = Ok bs /\
    forall b, In b bs -> snd (decode_records b) = None.

(** Split coverage: with enough steps, the records of the ranges, each
    read on its own and taken in range order, are the records of the
    whole file read as one range. *)
Definition split_coverage (decode_records : Block -> list value * option exn)
  (data : list byte) (ranges : list (Z * Z)) : Prop :=
  exists fuel0, forall fuel, (fuel0 <= fuel)%nat ->
    flat_map (fun run => records_of (fst run))
             (map (read_range decode_records fuel data) ranges)
    = records_of (fst (read_range decode_records fuel data (0, len data))).

(** The positions a run claims, in order. *)
Definition claimed (ev : event) : list Z :=
  match ev with
  | TryClaim p _ => [p]
  | _ => []
  end.

Definition claims_of (trace : list event) : list Z := flat_map claimed trace.

(** The kind of the first primitive name among [names]. *)
Fixpoint first_primitive (names : list string) : option AtomicType :=
  match names with
  | [] => None
  | n :: rest =>
      match dict_get n AVRO_PRIMITIVES_TO_BEAM_PRIMITIVES with
      | Some a => Some a
      | None => first_primitive rest
      end
  end.

(** The beam types made of the seven atomic kinds with an Avro name,
    arrays, iterables and rows of such. *)
Fixpoint writable (t : FieldType) : bool :=
  match t with
  | FieldType_atomic _ a =>
      match atomic_get a BEAM_PRIMITIVES_TO_AVRO_PRIMITIVES with
      | Some _ => true
      | None => false
      end
  | FieldType_array _ e => writable e
  | FieldType_iterable _ e => writable e
  | FieldType_row _ _ fs => forallb (fun f => writable (snd f)) fs
  | _ => false
  end.

(** A beam type as it comes back from its Avro schema: an iterable as an
    array, arrays and rows not nullable, rows without identifier. *)
Fixpoint read_back (t : FieldType) : FieldType :=
  match t with
  | FieldType_array _ e => FieldType_array false (read_back e)
  | FieldType_iterable _ e => FieldType_array false (read_back e)
  | FieldType_row _ _ fs =>
      FieldType_row false "" (map (fun f => (fst f, read_back (snd f))) fs)
  | other => other
  end.

Definition user_schema : avro_schema :=
  AvroRecord "User"
    [ ("name", AvroStr "string");
      ("favorite_number", AvroUnion [AvroStr "int"; AvroStr "null"]);
      ("favorite_color", AvroUnion [AvroStr "string"; AvroStr "null"]);
      ("scores", AvroArray (AvroStr "long")) ].

Definition user_row_type : FieldType :=
  FieldType_row true "user"
    [ ("name", FieldType_atomic false STRING);
      ("favorite_number", FieldType_atomic true INT32);
      ("scores", FieldType_iterable true (FieldType_atomic false INT64)) ].

(** ** Values that fit a type *)

Definition forallb2 {A B : Type} (f : A -> B -> bool)
  : list A -> list B -> bool :=
  fix go (l1 : list A) (l2 : list B) : bool :=
    match l1, l2 with
    | [], [] => true
    | a :: l1', b :: l2' => f a b && go l1' l2'
    | _, _ => false
    end.

Fixpoint distinct (names : list string) : bool :=
  match names with
  | [] => true
  | n :: rest => negb (existsb (String.eqb n) rest) && distinct rest
  end.

(** The names a field of a row can have and be read back under: [self]
    cannot be given to [Row] as a keyword, and the three names the row
    answers itself never reach its attributes. *)
Definition field_name (n : string) : bool :=
  negb (String.eqb n "self") && negb (String.eqb n "__class__")
  && negb (String.eqb n "__dict__") && negb (String.eqb n "__weakref__").

Definition in_signed_range (w : Z) (v : value) : bool :=
  match v with
  | VInt x => (- 2 ^ (w - 1) <=? x) && (x <? 2 ^ (w - 1))
  | _ => false
  end.

Definition in_unsigned_range (w : Z) (v : value) : bool :=
  match v with
  | VInt x => (0 <=? x) && (x <? 2 ^ w)
  | _ => false
  end.

(** An Avro-side value of a type, as the reader decodes it: a signed
    32-bit (64-bit) integer for an int (long), any value for the other
    atomic kinds with an Avro name and for a logical type, a list for an
    array or iterable, a dict for a map with string keys, and for a row a
    dict with the declared fields, in their order, the names distinct and
    each of them a [field_name]. *)
Fixpoint conforms (t : FieldType) (v : value) {struct t} : bool :=
  match t with
  | FieldType_atomic _ INT32 => in_signed_range 32 v
  | FieldType_atomic _ INT64 => in_signed_range 64 v
  | FieldType_atomic _ a =>
      match atomic_get a BEAM_PRIMITIVES_TO_AVRO_PRIMITIVES with
      | Some _ => true
      | None => false
      end
  | FieldType_array _ e =>
      match v with
      | VList l => forallb (conforms e) l
      | _ => false
      end
  | FieldType_iterable _ e =>
      match v with
      | VList l => forallb (conforms e) l
      | _ => false
      end
  | FieldType_map _ k e =>
      AtomicType_eqb (atomic_type_of k) STRING
      && match v with
         | VDict items =>
             distinct (map fst items)
             && forallb (fun kv => conforms e (snd kv)) items
         | _ => false
         end
  | FieldType_row _ _ fs =>
      distinct (map fst fs) && forallb field_name (map fst fs)
      && match v with
         | VDict items =>
             forallb2 (fun f kv => String.eqb (fst f) (fst kv)
                                   && conforms (snd f) (snd kv)) fs items
         | _ => false
         end
  | FieldType_logical _ _ => true
  | FieldType_unset _ => false
  end.

(** The integer kinds, whose values go through ctypes. *)
Definition is_integer_kind (a : AtomicType) : bool :=
  match a with
  | INT32 | INT64 => true
  | _ => false
  end.

Definition user_record : value :=
  VDict [ ("name", VStr "Alyssa");
          ("favorite_number", VInt (-7));
          ("scores", VList [VInt 256; VInt (-1)]) ].

(** A beam-side value of a type, as a pipeline holds it: an unsigned
    32-bit (64-bit) integer for an int32 (int64), a row with the declared
    fields for a row type (the names distinct and each of them a
    [field_name]), and otherwise as on the Avro side. *)
Fixpoint beam_conforms (t : FieldType) (v : value) {struct t} : bool :=
  match t with
  | FieldType_atomic _ INT32 => in_unsigned_range 32 v
  | FieldType_atomic _ INT64 => in_unsigned_range 64 v
  | FieldType_atomic _ a =>
      match atomic_get a BEAM_PRIMITIVES_TO_AVRO_PRIMITIVES with
      | Some _ => true
      | None => false
      end
  | FieldType_array _ e =>
      match v with
      | VList l => forallb (beam_conforms e) l
      | _ => false
      end
  | FieldType_iterable _ e =>
      match v with
      | VList l => forallb (beam_conforms e) l
      | _ => false
      end
  | FieldType_map _ k e =>
      AtomicType_eqb (atomic_type_of k) STRING
      && match v with
         | VDict items =>
             distinct (map fst items)
             && forallb (fun kv => beam_conforms e (snd kv)) items
         | _ => false
         end
  | FieldType_row _ _ fs =>
      distinct (map fst fs) && forallb field_name (map fst fs)
      && match v with
         | VRow items =>
             forallb2 (fun f kv => String.eqb (fst f) (fst kv)
                                   && beam_conforms (snd f) (snd kv)) fs items
         | _ => false
         end
  | FieldType_logical _ _ => true
  | FieldType_unset _ => false
  end.

Definition user_row : value :=
  VRow [ ("name", VStr "Alyssa");
         ("favorite_number", VInt 4294967289);
         ("scores", VList [VInt 256; VInt 18446744073709551615]) ].

(* ================================================================== *)
(** * ReadAllFromAvro and ReadAllFromAvroContinuously                  *)
(* ================================================================== *)

(** [k in names] for a tuple of names. *)
Definition in_tuple (k : string) (names : list string) : bool :=
  existsb (String.eqb k) names.

(** A call with keyword arguments only of a function
    whose parameters all have defaults: a keyword given twice or naming
    no parameter is a [TypeError]; a parameter without keyword takes its
    default.  The result binds every parameter, in declaration order. *)
Definition call_with_keywords (defaults : list (string * value))
  (keywords : list (string * value)) : result (list (string * value)) :=
  if negb (distinct (map fst keywords)) then Raise TypeError
  else if negb (forallb (fun kv => in_tuple (fst kv) (map fst defaults)) keywords)
  then Raise TypeError
  else Ok (map (fun p => (fst p, match dict_get (fst p) keywords with
                                 | Some v => v
                                 | None => snd p
                                 end)) defaults).

(** The value bound to a parameter. *)
Definition argument (name : string) (args : list (string * value)) : value :=
  match dict_get name args with
  | Some v => v
  | None => VNone
  end.

Definition DEFAULT_DESIRED_BUNDLE_SIZE : Z := 64 * 1024 * 1024.

(** [filebasedsource.ReadAllFiles(True, CompressionTypes.AUTO,
    desired_bundle_size, min_bundle_size, source_from_file,
    with_filename)] as the arguments it is built with; the source factory
    is [partial(_FastAvroSource, min_bundle_size=min_bundle_size)]. *)
Record ReadAllFiles : Type := mkReadAllFiles {
  splittable : bool;
  desired_bundle_size : value;
  min_bundle_size : value;
  source_min_bundle_size : value;
  with_filename : value
}.

Record ReadAllFromAvro : Type := mkReadAllFromAvro {
  _read_all_files : ReadAllFiles;
  label : value
}.

(** The parameters of [ReadAllFromAvro.__init__] after [self]. *)
Definition ReadAllFromAvro_parameters : list (string * value) :=
  [ ("min_bundle_size", VInt 0);
    ("desired_bundle_size", VInt DEFAULT_DESIRED_BUNDLE_SIZE);
    ("use_fastavro", VBool true);
    ("with_filename", VBool false);
    ("label", VStr "ReadAllFiles") ].

(** [ReadAllFromAvro.__init__], called with keywords. *)
Definition ReadAllFromAvro_init (keywords : list (string * value))
  : result ReadAllFromAvro :=
  args <- call_with_keywords ReadAllFromAvro_parameters keywords ;;
  Ok (mkReadAllFromAvro
        (mkReadAllFiles true
           (argument "desired_bundle_size" args)
           (argument "min_bundle_size" args)
           (argument "min_bundle_size" args)
           (argument "with_filename" args))
        (argument "label" args)).

Definition _ARGS_FOR_MATCH : list string :=
  [ "interval"; "has_deduplication"; "start_timestamp"; "stop_timestamp";
    "match_updated_files"; "apply_windowing" ].

Definition _ARGS_FOR_READ : list string :=
  [ "min_bundle_size"; "desired_bundle_size"; "use_fastavro"; "with_filename" ].

Record ReadAllFromAvroContinuously : Type := mkReadAllFromAvroContinuously {
  read_all : ReadAllFromAvro;
  _file_pattern : value;
  _kwargs_for_match : list (string * value)
}.

(** [ReadAllFromAvroContinuously.__init__] with its keyword dict;
    [kwargs] is a dict, in the order the keywords were given. *)
Definition ReadAllFromAvroContinuously_init (file_pattern label : value)
  (kwargs : list (string * value)) : result ReadAllFromAvroContinuously :=
  let kwargs_for_match :=
    filter (fun kv => in_tuple (fst kv) _ARGS_FOR_MATCH) kwargs in
  let kwargs_for_read :=
    filter (fun kv => in_tuple (fst kv) _ARGS_FOR_READ) kwargs in
  let kwargs_additinal :=
    filter (fun kv => negb (in_tuple (fst kv) _ARGS_FOR_MATCH)
                      && negb (in_tuple (fst kv) _ARGS_FOR_READ)) kwargs in
  self <- ReadAllFromAvro_init
            (("label", label) :: kwargs_for_read ++ kwargs_additinal) ;;
  Ok (mkReadAllFromAvroContinuously self file_pattern kwargs_for_match).

(** A keyword of [kwargs], or the default of the parameter. *)
Definition keyword_or (name : string) (default : value)
  (kwargs : list (string * value)) : value :=
  match dict_get name kwargs with
  | Some v => v
  | None => default
  end.

(* ================================================================== *)
(** * Theorems                                                         *)
(* ================================================================== *)

Unset Implicit Arguments.

Lemma as_signed_unsigned (w x : Z) :
  0 < w -> - 2 ^ (w - 1) <= x < 2 ^ (w - 1) ->
  as_signed w (as_unsigned w x) = x.
Proof.
  intros Hw Hx. unfold as_signed, as_unsigned.
  assert (Hp : 2 ^ w = 2 * 2 ^ (w - 1)).
  { replace w with (Z.succ (w - 1)) at 1 by lia. apply Z.pow_succ_r. lia. }
  assert (Hpos : 0 < 2 ^ (w - 1)) by (apply Z.pow_pos_nonneg; lia).
  rewrite Z.mod_mod by lia.
  destruct (Z_lt_dec x 0) as [Hneg | Hnn].
  - assert (Hm : x mod 2 ^ w = x + 2 ^ w).
    { symmetry. apply Z.mod_unique with (q := -1); lia. }
    rewrite Hm. destruct (Z.ltb_spec (x + 2 ^ w) (2 ^ (w - 1))); lia.
  - rewrite Z.mod_small by lia.
    destruct (Z.ltb_spec x (2 ^ (w - 1))); lia.
Qed.

Lemma as_unsigned_range (w x : Z) :
  0 <= w -> 0 <= as_unsigned w x < 2 ^ w.
Proof.
  intros Hw. unfold as_unsigned. apply Z.mod_pos_bound.
  apply Z.pow_pos_nonneg; lia.
Qed.

Lemma as_unsigned_bits (w x i : Z) :
  0 <= i < w -> Z.testbit (as_unsigned w x) i = Z.testbit x i.
Proof.
  intros Hi. unfold as_unsigned. apply Z.mod_pow2_bits_low. lia.
Qed.

(* ------------------------------------------------------------------ *)
(** ** Searching a byte string                                         *)
(* ------------------------------------------------------------------ *)

Lemma starts_with_firstn (m d : list byte) :
  starts_with m d = true <-> firstn (List.length m) d = m.
Proof.
  revert d. induction m as [| a m IH]; intros d; simpl.
  - split; reflexivity.
  - destruct d as [| b d]; simpl.
    + split; discriminate.
    + rewrite andb_true_iff, IH. split.
      * intros [Hab Hm]. apply Byte.byte_dec_bl in Hab. congruence.
      * intros Heq. injection Heq as Hab Hm. split; [| exact Hm].
        apply Byte.byte_dec_lb. congruence.
Qed.

Lemma find_from_none (d m : list byte) (i : Z) :
  0 <= i -> find_from d m i = -1 ->
  forall j, starts_with m (skipn j d) = false.
Proof.
  revert i. induction d as [| a d IH]; intros i Hi Hf j; simpl in Hf.
  - destruct (starts_with m []) eqn:E; [lia |].
    destruct j; exact E.
  - destruct (starts_with m (a :: d)) eqn:E; [lia |].
    destruct j as [| j]; [exact E |]. simpl.
    apply IH with (i := i + 1); [lia | exact Hf].
Qed.

Lemma find_from_found (d m : list byte) (i r : Z) :
  0 <= i -> find_from d m i = r -> r <> -1 ->
  exists k, r = i + Z.of_nat k /\ (k <= List.length d)%nat /\
            starts_with m (skipn k d) = true /\
            forall j, (j < k)%nat -> starts_with m (skipn j d) = false.
Proof.
  revert i. induction d as [| a d IH]; intros i Hi Hf Hr; simpl in Hf.
  - destruct (starts_with m []) eqn:E; [| congruence].
    exists 0%nat. simpl. repeat split; try lia; auto.
  - destruct (starts_with m (a :: d)) eqn:E.
    + exists 0%nat. simpl. repeat split; try lia; auto.
    + destruct (IH (i + 1)) as (k & Hk & Hle & Hs & Hmin); [lia | exact Hf | exact Hr |].
      exists (S k). simpl. repeat split; try lia; auto.
      intros [| j] Hj; [exact E |]. simpl. apply Hmin. lia.
Qed.

(** A window of a chunk is the same window of the file. *)
Lemma chunk_window (c : list byte) (p n k L : nat) :
  (k + L <= List.length (firstn n (skipn p c)))%nat ->
  firstn L (skipn k (firstn n (skipn p c))) = firstn L (skipn (p + k) c).
Proof.
  intros Hk. pose proof (firstn_le_length n (skipn p c)) as Hn.
  rewrite skipn_firstn_comm, firstn_firstn, skipn_skipn.
  rewrite Nat.min_l by lia. f_equal. f_equal. lia.
Qed.

Lemma firstn_eq_length {A : Type} (L : nat) (l m : list A) :
  firstn L l = m -> List.length m = L -> (L <= List.length l)%nat.
Proof.
  intros Hf Hm. rewrite <- Hf, length_firstn in Hm. lia.
Qed.

(* ------------------------------------------------------------------ *)
(** ** The sync-marker scanner                                         *)
(* ------------------------------------------------------------------ *)

Lemma buf_size_pos : 0 < buf_size.
Proof. reflexivity. Qed.

Lemma advance_loop_step (fuel : nat) (f : file) (m data : list byte) :
  advance_loop (S fuel) f m data =
  match data with
  | [] => Ok (VNone, f)
  | _ :: _ =>
      let pos := bytes_find data m in
      if 0 <=? pos then
        f' <- f_seek_cur f (-1 * (len data - pos - len m)) ;;
        Ok (VBool true, f')
      else
        f1 <- (if len m <=? f_tell f
               then f_seek_cur f (-1 * (len m - 1))
               else Ok f) ;;
        let '(data', f2) := f_read f1 buf_size in
        advance_loop fuel f2 m data'
  end.
Proof. reflexivity. Qed.

(** The bytes one [f.read(buf_size)] returns at position [p]. *)
Lemma f_read_buf (c : list byte) (p : Z) :
  f_read (mkfile c p) buf_size =
  (firstn (Z.to_nat buf_size) (skipn (Z.to_nat p) c),
   mkfile c (p + len (firstn (Z.to_nat buf_size) (skipn (Z.to_nat p) c)))).
Proof.
  unfold f_read. cbn [content position].
  destruct (Z.ltb_spec buf_size 0) as [Hneg | _]; [| reflexivity].
  pose proof buf_size_pos. lia.
Qed.

Lemma occurs_at_intro (c m : list byte) (q : Z) :
  0 <= q -> firstn (List.length m) (skipn (Z.to_nat q) c) = m ->
  0 < len m -> occurs_at c m q.
Proof.
  intros Hq Hf Hm. split; [exact Hq |]. split; [| exact Hf].
  apply firstn_eq_length in Hf; [| reflexivity].
  rewrite length_skipn in Hf. unfold len in *. lia.
Qed.

(** A marker that lies inside the chunk read at [p] is found in it. *)
Lemma occurs_in_chunk (c m : list byte) (p q : Z) :
  0 <= p <= q -> occurs_at c m q ->
  q + len m <= p + len (firstn (Z.to_nat buf_size) (skipn (Z.to_nat p) c)) ->
  starts_with m (skipn (Z.to_nat (q - p))
                       (firstn (Z.to_nat buf_size) (skipn (Z.to_nat p) c))) = true.
Proof.
  intros Hp (Hq & Hb & Hf) Hin. apply starts_with_firstn.
  rewrite chunk_window by (unfold len in *; lia).
  replace (Z.to_nat p + Z.to_nat (q - p))%nat with (Z.to_nat q) by lia.
  exact Hf.
Qed.

(** A marker found in the chunk read at [p] is a marker of the file. *)
Lemma chunk_occurs (c m : list byte) (p : Z) (k : nat) :
  0 <= p -> 0 < len m ->
  starts_with m (skipn k (firstn (Z.to_nat buf_size) (skipn (Z.to_nat p) c))) = true ->
  occurs_at c m (p + Z.of_nat k) /\
  Z.of_nat k + len m <= len (firstn (Z.to_nat buf_size) (skipn (Z.to_nat p) c)).
Proof.
  intros Hp Hm Hs. apply starts_with_firstn in Hs.
  assert (Hlen : (k + List.length m
                  <= List.length (firstn (Z.to_nat buf_size) (skipn (Z.to_nat p) c)))%nat).
  { pose proof (firstn_eq_length _ _ _ Hs eq_refl) as Hl.
    rewrite length_skipn in Hl. unfold len in Hm. lia. }
  split; [| unfold len; lia].
  rewrite chunk_window in Hs by exact Hlen.
  apply occurs_at_intro; [lia | | exact Hm].
  replace (Z.to_nat (p + Z.of_nat k)) with (Z.to_nat p + k)%nat by lia.
  exact Hs.
Qed.

Lemma chunk_full (c : list byte) (p : Z) :
  0 <= p ->
  p + len (firstn (Z.to_nat buf_size) (skipn (Z.to_nat p) c)) < len c ->
  len (firstn (Z.to_nat buf_size) (skipn (Z.to_nat p) c)) = buf_size.
Proof.
  intros Hp Hlt. pose proof buf_size_pos. unfold len in *.
  rewrite length_firstn, length_skipn in *. lia.
Qed.

(** The loop reaches the first marker at or after the position of the
    chunk in hand, in at most one round per byte in between. *)
Lemma advance_loop_finds (c m : list byte) (q : Z) :
  0 < len m <= buf_size -> occurs_at c m q ->
  forall (fuel : nat) (p : Z),
    0 <= p <= q -> (Z.to_nat (q - p) < fuel)%nat ->
    (forall q', p <= q' < q -> ~ occurs_at c m q') ->
    advance_loop fuel
      (mkfile c (p + len (firstn (Z.to_nat buf_size) (skipn (Z.to_nat p) c))))
      m (firstn (Z.to_nat buf_size) (skipn (Z.to_nat p) c))
    = Ok (VBool true, mkfile c (q + len m)).
Proof.
  intros Hm Hocc fuel.
  induction fuel as [| fuel IH]; intros p Hp Hfuel Hfirst; [lia |].
  rewrite advance_loop_step.
  set (data := firstn (Z.to_nat buf_size) (skipn (Z.to_nat p) c)) in *.
  pose proof Hocc as (Hq0 & Hqb & Hqf).
  assert (Hne : 0 < len data).
  { subst data. unfold len in *. rewrite length_firstn, length_skipn. lia. }
  destruct data as [| d0 data'] eqn:Edata; [unfold len in Hne; simpl in Hne; lia |].
  rewrite <- Edata in *. clear Hne. cbv zeta.
  destruct (Z.eq_dec (bytes_find data m) (-1)) as [Hnone | Hsome].
  - (* no marker in this chunk: the first one ends past it *)
    rewrite Hnone. cbn [Z.leb Z.compare].
    pose proof (find_from_none data m 0 ltac:(lia) Hnone) as Hno.
    assert (Hout : p + len data < q + len m).
    { destruct (Z_lt_dec (p + len data) (q + len m)) as [Hlt | Hge]; [exact Hlt |].
      specialize (Hno (Z.to_nat (q - p))). subst data.
      rewrite occurs_in_chunk in Hno by (auto; lia). discriminate. }
    assert (Hfull : len data = buf_size) by (subst data; apply chunk_full; lia).
    unfold f_tell, f_seek_cur, f_seek. cbn [position content].
    destruct (Z.leb_spec (len m) (p + len data)) as [_ | Hbad]; [| lia].
    destruct (Z.ltb_spec (p + len data + -1 * (len m - 1)) 0) as [Hbad | _]; [lia |].
    cbn [bind]. rewrite f_read_buf.
    replace (p + len data + -1 * (len m - 1)) with (p + buf_size - len m + 1) by lia.
    apply IH; [lia | lia |].
    intros q' Hq'. apply Hfirst. lia.
  - (* a marker in this chunk: it is the first one of the file *)
    destruct (find_from_found data m 0 _ ltac:(lia) eq_refl Hsome)
      as (k & Hk & _ & Hs & Hmin).
    unfold bytes_find. rewrite Hk.
    destruct (Z.leb_spec 0 (0 + Z.of_nat k)) as [_ | Hbad]; [| lia].
    subst data.
    destruct (chunk_occurs c m p k ltac:(lia) ltac:(lia) Hs) as [Hock Hin].
    assert (Hge : q <= p + Z.of_nat k).
    { destruct (Z_le_dec q (p + Z.of_nat k)) as [Hle | Hgt]; [exact Hle |].
      exfalso. apply (Hfirst (p + Z.of_nat k)); [lia | exact Hock]. }
    assert (Hle : p + Z.of_nat k <= q).
    { destruct (Z_le_dec (p + Z.of_nat k) q) as [Hle | Hgt]; [exact Hle |].
      specialize (Hmin (Z.to_nat (q - p)) ltac:(lia)).
      rewrite occurs_in_chunk in Hmin by (auto; lia). discriminate. }
    unfold f_seek_cur, f_seek. cbn [position content].
    match goal with |- context [?x <? 0] =>
      replace x with (q + len m) by lia end.
    destruct (Z.ltb_spec (q + len m) 0) as [Hbad | _]; [lia |].
    reflexivity.
Qed.

Lemma occurs_at_dec (c m : list byte) (q : Z) :
  {occurs_at c m q} + {~ occurs_at c m q}.
Proof.
  unfold occurs_at.
  destruct (Z_le_dec 0 q); [| right; tauto].
  destruct (Z_le_dec (q + len m) (len c)); [| right; tauto].
  destruct (list_eq_dec Byte.byte_eq_dec
              (firstn (List.length m) (skipn (Z.to_nat q) c)) m);
    [left | right]; tauto.
Qed.

(** Among the markers at or after [p] there is a first one. *)
Lemma first_occurrence (c m : list byte) (q0 : Z) :
  occurs_at c m q0 ->
  forall (n : nat) (p : Z),
    0 <= p <= q0 -> (Z.to_nat (q0 - p) <= n)%nat ->
    exists q, p <= q <= q0 /\ occurs_at c m q /\
              forall q', p <= q' < q -> ~ occurs_at c m q'.
Proof.
  intros Hocc n. induction n as [| n IH]; intros p Hp Hn.
  - exists q0. split; [lia |]. split; [exact Hocc |]. intros q' Hq'. lia.
  - destruct (occurs_at_dec c m p) as [Hyes | Hno].
    + exists p. split; [lia |]. split; [exact Hyes |]. intros q' Hq'. lia.
    + destruct (Z.eq_dec p q0) as [-> | Hneq]; [contradiction |].
      destruct (IH (p + 1)) as (q & Hq & Hoq & Hmin); [lia | lia |].
      exists q. split; [lia |]. split; [exact Hoq |].
      intros q' Hq'. destruct (Z.eq_dec q' p) as [-> | Hne]; [exact Hno |].
      apply Hmin. lia.
Qed.

Lemma chunk_len (c : list byte) (p : Z) :
  0 <= p <= len c ->
  len (firstn (Z.to_nat buf_size) (skipn (Z.to_nat p) c))
  = Z.min buf_size (len c - p).
Proof.
  intros Hp. pose proof buf_size_pos. unfold len in *.
  rewrite length_firstn, length_skipn. lia.
Qed.

(** Without a marker ahead, and with a marker of two bytes or more that
    is no longer than the file, the loop never leaves: each round steps
    back [len(sync_marker) - 1] bytes and reads the same tail again. *)
Lemma advance_loop_spins (c m : list byte) :
  2 <= len m <= buf_size -> len m <= len c ->
  forall (fuel : nat) (p : Z),
    0 <= p < len c ->
    p = len c - len m + 1 \/ (forall q, p <= q -> ~ occurs_at c m q) ->
    advance_loop fuel
      (mkfile c (p + len (firstn (Z.to_nat buf_size) (skipn (Z.to_nat p) c))))
      m (firstn (Z.to_nat buf_size) (skipn (Z.to_nat p) c))
    = OutOfFuel.
Proof.
  intros Hm Hc fuel.
  induction fuel as [| fuel IH]; intros p Hp Hinv; [reflexivity |].
  rewrite advance_loop_step.
  pose proof (chunk_len c p ltac:(lia)) as Hlen.
  pose proof buf_size_pos as Hbuf.
  set (data := firstn (Z.to_nat buf_size) (skipn (Z.to_nat p) c)) in *.
  destruct data as [| d0 data'] eqn:Edata;
    [change (len (@nil byte)) with 0 in Hlen; lia |].
  rewrite <- Edata in *. cbv zeta.
  assert (Hnone : bytes_find data m = -1).
  { destruct (Z.eq_dec (bytes_find data m) (-1)) as [E | Hsome]; [exact E |].
    exfalso.
    destruct (find_from_found data m 0 _ ltac:(lia) eq_refl Hsome)
      as (k & _ & _ & Hs & _).
    subst data.
    destruct (chunk_occurs c m p k ltac:(lia) ltac:(lia) Hs) as [Hock Hin].
    destruct Hinv as [Htail | Hno]; [lia |].
    apply (Hno (p + Z.of_nat k)); [lia | exact Hock]. }
  rewrite Hnone. cbn [Z.leb Z.compare].
  unfold f_tell, f_seek_cur, f_seek. cbn [position content].
  destruct (Z.leb_spec (len m) (p + len data)) as [_ | Hbad]; [| lia].
  destruct (Z.ltb_spec (p + len data + -1 * (len m - 1)) 0) as [Hbad | _]; [lia |].
  cbn [bind]. rewrite f_read_buf. apply IH; [lia |].
  destruct (Z_le_dec (len c - p) buf_size) as [Hshort | Hlong].
  - left. lia.
  - destruct Hinv as [Htail | Hno]; [lia |].
    right. intros q Hq. apply Hno. lia.
Qed.

Lemma advance_file_past_next_sync_marker_spins (c m : list byte) (p : Z) :
  2 <= len m <= buf_size -> len m <= len c -> 0 <= p < len c ->
  (forall q, p <= q -> ~ occurs_at c m q) ->
  forall fuel, advance_file_past_next_sync_marker fuel (mkfile c p) m = OutOfFuel.
Proof.
  intros Hm Hc Hp Hno fuel. unfold advance_file_past_next_sync_marker.
  rewrite f_read_buf. apply advance_loop_spins; auto.
Qed.

(* ------------------------------------------------------------------ *)
(** ** The block reader                                                *)
(* ------------------------------------------------------------------ *)

Lemma bytes_eqb_eq (a b : list byte) : bytes_eqb a b = true -> a = b.
Proof.
  unfold bytes_eqb. rewrite andb_true_iff, Nat.eqb_eq, starts_with_firstn.
  intros [Hl Hf]. rewrite Hl, firstn_all in Hf. congruence.
Qed.

Lemma varint_rest_used (rest : list byte) (n shift used n' used' : Z) :
  varint_rest rest n shift used = Ok (n', used') -> used < used'.
Proof.
  revert n shift used. induction rest as [| c rest IH]; intros n shift used; simpl.
  - discriminate.
  - destruct (Z.land (byte_val c) 128 =? 0).
    + intros [= _ <-]. lia.
    + intros Hr. apply IH in Hr. lia.
Qed.

Lemma read_long_advances (f f' : file) (z : Z) :
  read_long f = Ok (z, f') ->
  content f' = content f /\ position f < position f'.
Proof.
  unfold read_long.
  destruct (skipn (Z.to_nat (position f)) (content f)) as [| c rest]; [discriminate |].
  destruct (Z.land (byte_val c) 128 =? 0); cbn [bind].
  - intros [= _ <-]. cbn. split; [reflexivity | lia].
  - destruct (varint_rest rest (Z.land (byte_val c) 127) 7 1) as [[n' used] | e |] eqn:E;
      cbn [bind]; try discriminate.
    intros [= _ <-]. cbn. apply varint_rest_used in E. split; [reflexivity | lia].
Qed.

Lemma read_long_eof (f : file) :
  read_long f = Raise EOFError ->
  skipn (Z.to_nat (position f)) (content f) = [].
Proof.
  unfold read_long.
  destruct (skipn (Z.to_nat (position f)) (content f)) as [| c rest]; [reflexivity |].
  destruct (Z.land (byte_val c) 128 =? 0); cbn [bind]; [discriminate |].
  assert (Hv : forall rest n s u, varint_rest rest n s u <> Raise EOFError).
  { clear. induction rest as [| c rest IH]; intros n s u; simpl; [discriminate |].
    destruct (Z.land (byte_val c) 128 =? 0); [discriminate | apply IH]. }
  destruct (varint_rest rest (Z.land (byte_val c) 127) 7 1) as [[n' used] | e |] eqn:E;
    cbn [bind]; try discriminate.
  intros [= ->]. exfalso. exact (Hv _ _ _ _ E).
Qed.

Lemma f_read_advances (f : file) (n : Z) :
  content (snd (f_read f n)) = content f /\
  position (snd (f_read f n)) = position f + len (fst (f_read f n)).
Proof. unfold f_read. cbn. split; reflexivity. Qed.

Lemma f_read_nonneg (f : file) (n : Z) :
  0 <= n ->
  fst (f_read f n) = firstn (Z.to_nat n) (skipn (Z.to_nat (position f)) (content f)).
Proof.
  intros Hn. unfold f_read. cbn [fst].
  destruct (Z.ltb_spec n 0); [lia | reflexivity].
Qed.

Lemma read_bytes_advances (f f' : file) (out : list byte) :
  read_bytes f = Ok (out, f') ->
  content f' = content f /\ position f < position f'.
Proof.
  unfold read_bytes.
  destruct (read_long f) as [[size f1] | e |] eqn:E; cbn [bind]; try discriminate.
  apply read_long_advances in E. destruct E as [Ec Ep].
  pose proof (f_read_advances f1 size) as [Hc Hp].
  destruct (f_read f1 size) as [o f2]. cbn [fst snd] in *.
  destruct (len o =? size); [| discriminate].
  intros [= <- <-]. split; [congruence |]. unfold len in *. lia.
Qed.

Lemma read_map_advances (fuel : nat) :
  forall (f f' : file) (pending : Z) (items items' : list (list byte * list byte)),
    read_map fuel f pending items = Ok (items', f') ->
    content f' = content f /\ position f <= position f'.
Proof.
  induction fuel as [| fuel IH]; intros f f' pending items items'; simpl; [discriminate |].
  destruct (pending =? 0).
  - destruct (read_long f) as [[count f1] | e |] eqn:E1; cbn [bind]; try discriminate.
    apply read_long_advances in E1. destruct E1 as [Ec1 Ep1].
    destruct (count =? 0).
    + intros [= _ <-]. split; [assumption | lia].
    + destruct (count <? 0).
      * destruct (read_long f1) as [[sz f2] | e |] eqn:E2; cbn [bind]; try discriminate.
        apply read_long_advances in E2. destruct E2 as [Ec2 Ep2].
        intros Hr. apply IH in Hr. destruct Hr as [Hc Hp]. split; [congruence | lia].
      * intros Hr. apply IH in Hr. destruct Hr as [Hc Hp]. split; [congruence | lia].
  - destruct (read_bytes f) as [[key f1] | e |] eqn:E1; cbn [bind]; try discriminate.
    apply read_bytes_advances in E1. destruct E1 as [Ec1 Ep1].
    destruct (read_bytes f1) as [[val f2] | e |] eqn:E2; cbn [bind]; try discriminate.
    apply read_bytes_advances in E2. destruct E2 as [Ec2 Ep2].
    intros Hr. apply IH in Hr. destruct Hr as [Hc Hp]. split; [congruence | lia].
Qed.

(** A larger step budget does not change a finished parse. *)
Lemma read_map_mono (fuel : nat) :
  forall (f : file) (pending : Z) (items : list (list byte * list byte))
         (r : result (list (list byte * list byte) * file)),
    read_map fuel f pending items = r -> r <> OutOfFuel ->
    forall fuel', (fuel <= fuel')%nat -> read_map fuel' f pending items = r.
Proof.
  induction fuel as [| fuel IH]; intros f pending items r Hr Hne fuel' Hle.
  - simpl in Hr. congruence.
  - destruct fuel' as [| fuel']; [lia |]. simpl in *.
    destruct (pending =? 0).
    + destruct (read_long f) as [[count f1] | e |]; cbn [bind] in *; auto.
      destruct (count =? 0); auto.
      destruct (count <? 0).
      * destruct (read_long f1) as [[sz f2] | e |]; cbn [bind] in *; auto.
        apply IH; auto; lia.
      * apply IH; auto; lia.
    + destruct (read_bytes f) as [[key f1] | e |]; cbn [bind] in *; auto.
      destruct (read_bytes f1) as [[val f2] | e |]; cbn [bind] in *; auto.
      apply IH; auto; lia.
Qed.

Lemma block_reader_mono (fuel fuel' : nat) (f : file) (h : Header) (fh : file) :
  block_reader fuel f = Ok (h, fh) -> (fuel <= fuel')%nat ->
  block_reader fuel' f = Ok (h, fh).
Proof.
  unfold block_reader. destruct (f_read f 4) as [mg f1].
  destruct (read_map fuel f1 0 []) as [[mt f2] | e |] eqn:E; cbn [bind]; try discriminate.
  intros Hr Hle.
  rewrite (read_map_mono fuel _ _ _ _ E ltac:(discriminate) fuel' Hle). cbn [bind]. exact Hr.
Qed.

(** After the header the file stands just behind the sync marker. *)
Lemma block_reader_lands (fuel : nat) (data : list byte) (h : Header) (fh : file) :
  block_reader fuel (mkfile data 0) = Ok (h, fh) ->
  len (sync h) = SYNC_SIZE ->
  fh = mkfile data (position fh) /\ SYNC_SIZE <= position fh /\
  occurs_at data (sync h) (position fh - SYNC_SIZE).
Proof.
  unfold block_reader.
  pose proof (f_read_advances (mkfile data 0) 4) as [Hc1 Hp1].
  destruct (f_read (mkfile data 0) 4) as [mg f1]. cbn [fst snd content position] in *.
  destruct (read_map fuel f1 0 []) as [[mt f2] | e |] eqn:E; cbn [bind]; try discriminate.
  apply read_map_advances in E. destruct E as [Hc2 Hp2].
  pose proof (f_read_advances f2 SYNC_SIZE) as [Hc3 Hp3].
  destruct (f_read f2 SYNC_SIZE) as [sy f3] eqn:E3. cbn [fst snd] in *.
  destruct (bytes_eqb mg MAGIC); [| discriminate].
  intros [= <- <-]. cbn [sync]. intros Hlen.
  assert (Hpos : 0 <= position f2) by (unfold len in *; lia).
  split; [destruct f3; cbn in *; congruence |].
  split; [lia |].
  replace (position f3 - SYNC_SIZE) with (position f2) by lia.
  apply occurs_at_intro; [exact Hpos | | unfold SYNC_SIZE in *; lia].
  pose proof (f_read_nonneg f2 SYNC_SIZE ltac:(unfold SYNC_SIZE; lia)) as Hsy.
  rewrite E3 in Hsy. cbn [fst] in Hsy. rewrite Hc2, Hc1 in Hsy.
  assert (Hn : List.length sy = Z.to_nat SYNC_SIZE) by (unfold len in Hlen; lia).
  rewrite Hn. symmetry. exact Hsy.
Qed.

(** A block taken by the reader starts where the file stood and ends
    where the file stands afterwards. *)
Lemma next_block_position (sync_marker : list byte) (f f' : file) (b : Block) :
  next_block sync_marker f = Ok (Some b, f') ->
  offset b = position f /\ position f' = offset b + size b /\
  content f' = content f.
Proof.
  unfold next_block, f_tell.
  destruct (read_long f) as [[num f1] | e |] eqn:E1; try discriminate.
  2: { destruct e; discriminate. }
  apply read_long_advances in E1. destruct E1 as [Hc1 Hp1].
  destruct (read_bytes f1) as [[payload f2] | e |] eqn:E2; cbn [bind]; try discriminate.
  apply read_bytes_advances in E2. destruct E2 as [Hc2 Hp2].
  pose proof (f_read_advances f2 SYNC_SIZE) as [Hc3 Hp3].
  destruct (f_read f2 SYNC_SIZE) as [mark f3]. cbn [fst snd] in *.
  destruct (bytes_eqb mark sync_marker); [| discriminate].
  intros [= <- <-]. cbn [offset size]. split; [reflexivity |].
  split; [lia | congruence].
Qed.

Lemma next_block_some (data sync_marker : list byte) (p : Z) (b : Block) (f' : file) :
  0 <= p -> len sync_marker = SYNC_SIZE ->
  next_block sync_marker (mkfile data p) = Ok (Some b, f') ->
  offset b = p /\ f' = mkfile data (p + size b) /\ SYNC_SIZE < size b /\
  occurs_at data sync_marker (p + size b - SYNC_SIZE).
Proof.
  intros Hp Hlen Hn. pose proof (next_block_position _ _ _ _ Hn) as (Ho & Hpos & Hc).
  cbn [position content] in *.
  split; [exact Ho |].
  split; [destruct f'; cbn in *; congruence |].
  revert Hn. unfold next_block, f_tell. cbn [position].
  destruct (read_long (mkfile data p)) as [[num f1] | e |] eqn:E1; try discriminate.
  2: { destruct e; discriminate. }
  apply read_long_advances in E1. destruct E1 as [Hc1 Hp1].
  destruct (read_bytes f1) as [[payload f2] | e |] eqn:E2; cbn [bind]; try discriminate.
  apply read_bytes_advances in E2. destruct E2 as [Hc2 Hp2].
  pose proof (f_read_advances f2 SYNC_SIZE) as [Hc3 Hp3].
  pose proof (f_read_nonneg f2 SYNC_SIZE ltac:(unfold SYNC_SIZE; lia)) as Hmark.
  destruct (f_read f2 SYNC_SIZE) as [mark f3]. cbn [fst snd content position] in *.
  destruct (bytes_eqb mark sync_marker) eqn:Eq; [| discriminate].
  apply bytes_eqb_eq in Eq. subst mark.
  intros [= Hb Hf]. subst b. cbn [offset size] in *.
  rewrite Eq in Hp3.
  split; [lia |].
  replace (p + (position f3 - p) - SYNC_SIZE) with (position f2) by lia.
  apply occurs_at_intro; [lia | | unfold SYNC_SIZE in Hlen; lia].
  assert (Hn : List.length sync_marker = Z.to_nat SYNC_SIZE) by (unfold len in Hlen; lia).
  rewrite Hn. rewrite Hc2, Hc1 in Eq. exact Eq.
Qed.

Lemma next_block_none (data sync_marker : list byte) (p : Z) (f' : file) :
  0 <= p ->
  next_block sync_marker (mkfile data p) = Ok (None, f') ->
  len data <= p /\ f' = mkfile data p.
Proof.
  intros Hp. unfold next_block.
  destruct (read_long (mkfile data p)) as [[num f1] | e |] eqn:E1; try discriminate.
  - destruct (read_bytes f1) as [[payload f2] | e |]; cbn [bind]; try discriminate.
    destruct (f_read f2 SYNC_SIZE) as [mark f3].
    destruct (bytes_eqb mark sync_marker); discriminate.
  - destruct e; try discriminate. intros [= <-].
    apply read_long_eof in E1. cbn [position content] in E1.
    split; [| reflexivity].
    assert (Hl : List.length (skipn (Z.to_nat p) data) = 0%nat) by (rewrite E1; reflexivity).
    rewrite length_skipn in Hl. unfold len. lia.
Qed.

(* ------------------------------------------------------------------ *)
(** ** read_records: claims come first                                 *)
(* ------------------------------------------------------------------ *)

Section ClaimProtocol.

Context {T : Type} `{RangeTracker T}.
Variable decode_records : Block -> list value * option exn.

Lemma read_loop_guarded (fuel : nat) :
  forall (f : file) (sync_marker : list byte) (rt : T),
    guarded (fst (read_loop decode_records fuel f sync_marker rt (position f)))
            (snd (read_loop decode_records fuel f sync_marker rt (position f))).
Proof.
  induction fuel as [| fuel IH]; intros f sync_marker rt; simpl.
  - apply guarded_cut. discriminate.
  - destruct (try_claim rt (position f)) as [[[] rt'] | e |].
    + destruct (next_block sync_marker f) as [[[b |] f'] | e |] eqn:En; cbn [fst snd].
      * apply next_block_position in En. destruct En as (Ho & Hp & _).
        destruct (decode_records b) as [records [e |]]; cbn [fst snd].
        -- rewrite <- Ho. apply guarded_block_fails.
        -- specialize (IH f' sync_marker rt'). rewrite Hp in IH.
           destruct (read_loop decode_records fuel f' sync_marker rt'
                               (offset b + size b)) as [rest r].
           cbn [fst snd] in *. rewrite <- Ho. apply guarded_block. exact IH.
      * apply guarded_reader_fails. discriminate.
      * apply guarded_reader_fails. discriminate.
      * apply guarded_reader_fails. discriminate.
    + cbn. apply guarded_rejected.
    + cbn. apply guarded_cut. discriminate.
    + cbn. apply guarded_cut. discriminate.
Qed.

Lemma read_records_guarded (fuel : nat) (data : list byte) (rt : T) :
  guarded (fst (read_records decode_records fuel data rt))
          (snd (read_records decode_records fuel data rt)).
Proof.
  unfold read_records.
  destruct (block_reader fuel (mkfile data 0)) as [[h f] | e |];
    try (apply guarded_cut; discriminate).
  destruct (f_seek f _) as [f1 | e |]; try (apply guarded_cut; discriminate).
  destruct (advance_file_past_next_sync_marker fuel f1 (sync h)) as [[v f2] | e |];
    try (apply guarded_cut; discriminate).
  apply read_loop_guarded.
Qed.

End ClaimProtocol.

Lemma yields_then (b0 : Block) (records : list value) (rest pre post : list event)
  (x : event) :
  map (Yield b0) records ++ rest = pre ++ x :: post ->
  (exists r, x = Yield b0 r) \/
  (exists pre', pre = map (Yield b0) records ++ pre' /\ rest = pre' ++ x :: post).
Proof.
  revert pre. induction records as [| r records IH]; intros pre Heq; simpl in Heq.
  - right. exists pre. split; [reflexivity | exact Heq].
  - destruct pre as [| y pre]; simpl in Heq.
    + left. exists r. congruence.
    + injection Heq as Hy Heq. destruct (IH _ Heq) as [Hl | (pre' & Hp & Hr)].
      * left. exact Hl.
      * right. exists pre'. simpl. split; [congruence | exact Hr].
Qed.

Lemma guarded_block_claimed (t : list event) (r : result unit) :
  guarded t r ->
  forall pre b post, t = pre ++ NextBlock b :: post ->
    exists pre', pre = pre' ++ [TryClaim (offset b) true].
Proof.
  induction 1 as [r Hr | p | p r Hr | b0 records e | b0 records rest r Hg IH];
    intros pre b post Heq.
  - destruct pre; discriminate.
  - destruct pre as [| ? [| ? ?]]; discriminate.
  - destruct pre as [| ? [| ? ?]]; discriminate.
  - destruct pre as [| e1 [| e2 pre]]; [discriminate | |].
    + injection Heq as He1 Hb _. subst. exists []. reflexivity.
    + injection Heq as He1 He2 Heq. rewrite <- (app_nil_r (map _ _)) in Heq.
      apply yields_then in Heq. destruct Heq as [[v Hv] | (pre' & _ & Hnil)].
      * discriminate.
      * destruct pre'; discriminate.
  - destruct pre as [| e1 [| e2 pre]]; [discriminate | |].
    + injection Heq as He1 Hb _. subst. exists []. reflexivity.
    + injection Heq as He1 He2 Heq.
      apply yields_then in Heq. destruct Heq as [[v Hv] | (pre' & Hp & Hrest)].
      * discriminate.
      * destruct (IH _ _ _ Hrest) as [pre'' Hpre'']. subst.
        exists (TryClaim (offset b0) true :: NextBlock b0
                :: map (Yield b0) records ++ pre'').
        simpl. rewrite <- app_assoc. reflexivity.
Qed.

Lemma guarded_yield_claimed (t : list event) (r : result unit) :
  guarded t r ->
  forall pre b v post, t = pre ++ Yield b v :: post ->
    In (TryClaim (offset b) true) pre /\ In (NextBlock b) pre.
Proof.
  induction 1 as [r Hr | p | p r Hr | b0 records e | b0 records rest r Hg IH];
    intros pre b v post Heq.
  - destruct pre; discriminate.
  - destruct pre as [| ? [| ? ?]]; discriminate.
  - destruct pre as [| ? [| ? ?]]; discriminate.
  - destruct pre as [| e1 [| e2 pre]]; [discriminate | discriminate |].
    injection Heq as He1 He2 Heq. rewrite <- (app_nil_r (map _ _)) in Heq.
    apply yields_then in Heq. destruct Heq as [[v' Hv] | (pre' & _ & Hnil)].
    + injection Hv as Hb _. subst. simpl. auto.
    + destruct pre'; discriminate.
  - destruct pre as [| e1 [| e2 pre]]; [discriminate | discriminate |].
    injection Heq as He1 He2 Heq.
    apply yields_then in Heq. destruct Heq as [[v' Hv] | (pre' & Hp & Hrest)].
    + injection Hv as Hb _. subst. simpl. auto.
    + destruct (IH _ _ _ _ Hrest) as [Hc Hn]. subst.
      split; right; right; apply in_or_app; right; assumption.
Qed.

Lemma guarded_rejection_last (t : list event) (r : result unit) :
  guarded t r ->
  forall pre p post, t = pre ++ TryClaim p false :: post ->
    post = [] /\ r = Ok tt.
Proof.
  induction 1 as [r Hr | p0 | p0 r Hr | b0 records e | b0 records rest r Hg IH];
    intros pre p post Heq.
  - destruct pre; discriminate.
  - destruct pre as [| ? [| ? ?]]; try discriminate.
    injection Heq as _ Hpost. subst. split; reflexivity.
  - destruct pre as [| ? [| ? ?]]; discriminate.
  - destruct pre as [| e1 [| e2 pre]]; [discriminate | discriminate |].
    injection Heq as He1 He2 Heq. rewrite <- (app_nil_r (map _ _)) in Heq.
    apply yields_then in Heq. destruct Heq as [[v' Hv] | (pre' & _ & Hnil)].
    + discriminate.
    + destruct pre'; discriminate.
  - destruct pre as [| e1 [| e2 pre]]; [discriminate | discriminate |].
    injection Heq as He1 He2 Heq.
    apply yields_then in Heq. destruct Heq as [[v' Hv] | (pre' & Hp & Hrest)].
    + discriminate.
    + exact (IH _ _ _ Hrest).
Qed.

(** C4.  In any run of [read_records], against any range tracker and on
    any file: a block is taken from the reader only directly after its
    starting offset was claimed and the claim accepted; a record is
    yielded only from a block that was claimed, accepted and taken before;
    and a rejected claim is the last thing that happens, the generator
    then ending normally. *)
Theorem read_records_claims_before_decoding
  (T : Type) (tracker : RangeTracker T)
  (decode_records : Block -> list value * option exn)
  (fuel : nat) (data : list byte) (range_tracker : T) :
  let run := read_records decode_records fuel data range_tracker in
  (forall pre b post, fst run = pre ++ NextBlock b :: post ->
     exists pre', pre = pre' ++ [TryClaim (offset b) true]) /\
  (forall pre b record post, fst run = pre ++ Yield b record :: post ->
     In (TryClaim (offset b) true) pre /\ In (NextBlock b) pre) /\
  (forall pre p post, fst run = pre ++ TryClaim p false :: post ->
     post = [] /\ snd run = Ok tt).
Proof.
  intros run. pose proof (read_records_guarded decode_records fuel data range_tracker) as Hg.
  fold run in Hg. split; [| split].
  - exact (guarded_block_claimed _ _ Hg).
  - exact (guarded_yield_claimed _ _ Hg).
  - exact (guarded_rejection_last _ _ Hg).
Qed.

(* ------------------------------------------------------------------ *)
(** ** A container file, block by block                                *)
(* ------------------------------------------------------------------ *)

Lemma marker_ends_from_sound (m : list byte) (d : list byte) :
  forall i e, In e (marker_ends_from d m i) ->
    exists k : nat, e = i + Z.of_nat k + len m /\
                    starts_with m (skipn k d) = true.
Proof.
  induction d as [| a d IH]; intros i e Hin; simpl in Hin; [contradiction |].
  apply in_app_or in Hin. destruct Hin as [Hin | Hin].
  - destruct (starts_with m (a :: d)) eqn:E; [| contradiction].
    destruct Hin as [<- | []]. exists 0%nat. split; [lia | exact E].
  - destruct (IH _ _ Hin) as (k & -> & Hs). exists (S k). split; [lia | exact Hs].
Qed.

Lemma marker_ends_from_complete (m : list byte) (d : list byte) :
  0 < len m ->
  forall (k : nat) i, starts_with m (skipn k d) = true ->
    In (i + Z.of_nat k + len m) (marker_ends_from d m i).
Proof.
  intros Hm. induction d as [| a d IH]; intros k i Hs.
  - rewrite skipn_nil in Hs. destruct m; [unfold len in Hm; simpl in Hm; lia | discriminate].
  - simpl. apply in_or_app. destruct k as [| k].
    + left. simpl in Hs. unfold starts_with in *; fold starts_with in *.
      rewrite Hs. left. lia.
    + right. simpl in Hs. replace (i + Z.of_nat (S k) + len m)
        with (i + 1 + Z.of_nat k + len m) by lia.
      apply IH. exact Hs.
Qed.

(** [marker_ends] lists exactly the ends of the occurrences. *)
Lemma marker_ends_spec (c m : list byte) (q : Z) :
  0 < len m ->
  occurs_at c m q <-> (0 <= q /\ In (q + len m) (marker_ends c m)).
Proof.
  intros Hm. split.
  - intros (Hq & Hb & Hf). split; [exact Hq |].
    apply starts_with_firstn in Hf.
    pose proof (marker_ends_from_complete m c Hm (Z.to_nat q) 0 Hf) as Hin.
    replace (0 + Z.of_nat (Z.to_nat q) + len m) with (q + len m) in Hin by lia.
    exact Hin.
  - intros [Hq Hin]. apply marker_ends_from_sound in Hin.
    destruct Hin as (k & Hk & Hs). apply starts_with_firstn in Hs.
    apply occurs_at_intro; [exact Hq | | exact Hm].
    replace (Z.to_nat q) with k by lia. exact Hs.
Qed.

Lemma read_all_blocks_chain (data sync_marker : list byte) (fuel : nat) :
  len sync_marker = SYNC_SIZE ->
  forall (p : Z) (bs : list Block),
    0 <= p ->
    read_all_blocks fuel sync_marker (mkfile data p) = Ok bs ->
    chain data sync_marker p bs.
Proof.
  intros Hlen. induction fuel as [| fuel IH]; intros p bs Hp; simpl; [discriminate |].
  destruct (next_block sync_marker (mkfile data p)) as [[[b |] f'] | e |] eqn:En;
    cbn [bind]; try discriminate.
  - destruct (next_block_some data sync_marker p b f' Hp Hlen En) as (Ho & -> & Hsz & Hocc).
    destruct (read_all_blocks fuel sync_marker (mkfile data (p + size b)))
      as [rest | e |] eqn:Er; cbn [bind]; try discriminate.
    intros [= <-]. simpl. unfold block_end. rewrite Ho.
    split; [exact En |]. apply IH; [unfold SYNC_SIZE in Hsz; lia | exact Er].
  - intros [= <-]. simpl. destruct (next_block_none data sync_marker p f' Hp En) as [_ Hf].
    rewrite Hf in En. exact En.
Qed.

Section Chain.

Variables data sync_marker : list byte.
Hypothesis Hlen : len sync_marker = SYNC_SIZE.

Lemma chain_head (p : Z) (b : Block) (bs : list Block) :
  0 <= p -> chain data sync_marker p (b :: bs) ->
  offset b = p /\ SYNC_SIZE < size b /\
  occurs_at data sync_marker (block_end b - SYNC_SIZE) /\
  chain data sync_marker (block_end b) bs.
Proof.
  intros Hp [Hn Hc].
  destruct (next_block_some data sync_marker p b _ Hp Hlen Hn) as (Ho & _ & Hsz & Hocc).
  unfold block_end in *. rewrite Ho in *.
  split; [reflexivity |]. split; [exact Hsz |]. split; [exact Hocc | exact Hc].
Qed.

Lemma chain_blocks (bs : list Block) :
  forall p, 0 <= p -> chain data sync_marker p bs ->
    forall b, In b bs ->
      p <= offset b /\ SYNC_SIZE < size b /\
      occurs_at data sync_marker (block_end b - SYNC_SIZE) /\
      In (offset b) (p :: map block_end bs).
Proof.
  induction bs as [| b0 bs IH]; intros p Hp Hc b Hin; [contradiction |].
  destruct (chain_head _ _ _ Hp Hc) as (Ho & Hsz & Hocc & Hc').
  destruct Hin as [<- | Hin].
  - repeat split; try lia; try apply Hocc. left. auto.
  - assert (Hp' : 0 <= block_end b0) by (unfold block_end, SYNC_SIZE in *; lia).
    destruct (IH _ Hp' Hc' b Hin) as (Hge & Hsz' & Hocc' & Hb).
    split; [unfold block_end, SYNC_SIZE in *; lia |].
    split; [exact Hsz' |]. split; [exact Hocc' |].
    right. exact Hb.
Qed.

Lemma chain_sorted (bs : list Block) :
  forall p, 0 <= p -> chain data sync_marker p bs ->
    StronglySorted (fun x y => offset x < offset y) bs.
Proof.
  induction bs as [| b0 bs IH]; intros p Hp Hc; [constructor |].
  destruct (chain_head _ _ _ Hp Hc) as (Ho & Hsz & Hocc & Hc').
  assert (Hp' : 0 <= block_end b0) by (unfold block_end, SYNC_SIZE in *; lia).
  constructor; [exact (IH _ Hp' Hc') |].
  apply Forall_forall. intros b Hin.
  destruct (chain_blocks _ _ Hp' Hc' b Hin) as (Hge & _).
  unfold block_end, SYNC_SIZE in *. lia.
Qed.

(** The chain ends at the end of the file, or beyond. *)
Lemma chain_reaches_end (bs : list Block) :
  forall p, 0 <= p -> chain data sync_marker p bs ->
    exists B, In B (p :: map block_end bs) /\ len data <= B.
Proof.
  induction bs as [| b0 bs IH]; intros p Hp Hc.
  - simpl in *. destruct (next_block_none data sync_marker p _ Hp Hc) as [Hle _].
    exists p. split; [left; reflexivity | exact Hle].
  - destruct (chain_head _ _ _ Hp Hc) as (Ho & Hsz & Hocc & Hc').
    assert (Hp' : 0 <= block_end b0) by (unfold block_end, SYNC_SIZE in *; lia).
    destruct (IH _ Hp' Hc') as (B & HB & Hle).
    exists B. split; [right; exact HB | exact Hle].
Qed.

(** At any block boundary the rest of the chain starts, with the blocks
    before the boundary behind it and the others at or after it. *)
Lemma chain_suffix (bs : list Block) :
  forall p, 0 <= p -> chain data sync_marker p bs ->
    forall P, In P (p :: map block_end bs) ->
      exists pre suf, bs = pre ++ suf /\ chain data sync_marker P suf /\
                      (forall b, In b pre -> offset b < P) /\
                      (forall b, In b suf -> P <= offset b).
Proof.
  induction bs as [| b0 bs IH]; intros p Hp Hc P HP.
  - destruct HP as [<- | []]. exists [], []. repeat split; auto; contradiction.
  - destruct HP as [<- | HP].
    + exists [], (b0 :: bs). split; [reflexivity |]. split; [exact Hc |].
      split; [contradiction |]. intros b Hin.
      apply (chain_blocks _ _ Hp Hc b Hin).
    + destruct (chain_head _ _ _ Hp Hc) as (Ho & Hsz & Hocc & Hc').
      assert (Hp' : 0 <= block_end b0) by (unfold block_end, SYNC_SIZE in *; lia).
      destruct (IH _ Hp' Hc' P HP) as (pre & suf & -> & Hcs & Hpre & Hsuf).
      exists (b0 :: pre), suf. split; [reflexivity |]. split; [exact Hcs |].
      split; [| exact Hsuf].
      intros b [<- | Hin]; [| exact (Hpre b Hin)].
      assert (HPge : block_end b0 <= P).
      { destruct HP as [<- | HP]; [lia |].
        apply in_map_iff in HP. destruct HP as (b' & <- & Hb').
        assert (Hin' : In b' (pre ++ suf)) by exact Hb'.
        destruct (chain_blocks _ _ Hp' Hc' b' Hin') as (Hge & Hsz' & _).
        unfold block_end, SYNC_SIZE in *. lia. }
      unfold block_end, SYNC_SIZE in *. lia.
Qed.

End Chain.

(* ------------------------------------------------------------------ *)
(** ** One range of a container file                                   *)
(* ------------------------------------------------------------------ *)

Lemma records_of_app (t1 t2 : list event) :
  records_of (t1 ++ t2) = records_of t1 ++ records_of t2.
Proof. unfold records_of. apply flat_map_app. Qed.

Lemma records_of_yields (b : Block) (records : list value) :
  records_of (map (Yield b) records) = records.
Proof.
  unfold records_of.
  induction records as [| r records IH]; [reflexivity |].
  simpl. f_equal. exact IH.
Qed.

Lemma filter_none {A : Type} (f : A -> bool) (l : list A) :
  (forall x, In x l -> f x = false) -> filter f l = [].
Proof.
  induction l as [| a l IH]; intros Hf; [reflexivity |].
  simpl. rewrite (Hf a (or_introl eq_refl)). apply IH.
  intros x Hx. apply Hf. right. exact Hx.
Qed.

Lemma filter_all {A : Type} (f : A -> bool) (l : list A) :
  (forall x, In x l -> f x = true) -> filter f l = l.
Proof.
  induction l as [| a l IH]; intros Hf; [reflexivity |].
  simpl. rewrite (Hf a (or_introl eq_refl)). f_equal. apply IH.
  intros x Hx. apply Hf. right. exact Hx.
Qed.

Section RangeOfChain.

Variables data sync_marker : list byte.
Variable decode_records : Block -> list value * option exn.
Hypothesis Hlen : len sync_marker = SYNC_SIZE.

(** From a block boundary on, the loop yields the blocks that start
    before the stop position, and ends on the claim that is rejected. *)
Lemma read_loop_chain (start stop : Z) (bs : list Block) :
  stop <= len data ->
  (forall b, In b bs -> snd (decode_records b) = None) ->
  forall (p last : Z) (fuel : nat),
    0 <= p -> last < p -> chain data sync_marker p bs ->
    (List.length bs < fuel)%nat ->
    exists trace,
      read_loop decode_records fuel (mkfile data p) sync_marker
                (mkTracker start stop last) p = (trace, Ok tt) /\
      records_of trace
      = flat_map (fun b => fst (decode_records b))
                 (filter (fun b => offset b <? stop) bs).
Proof.
  intros Hstop. induction bs as [| b bs IH]; intros Hdec p last fuel Hp Hlast Hc Hfuel.
  - destruct fuel as [| fuel]; [simpl in Hfuel; lia |].
    destruct (next_block_none data sync_marker p _ Hp Hc) as [Hend _].
    simpl. unfold offset_try_claim. cbn [last_record_start stop_offset].
    destruct (Z.ltb_spec p last); [lia |].
    destruct (Z.eqb_spec p last); [lia |].
    rewrite andb_false_r. cbn [orb].
    destruct (Z.leb_spec stop p); [| lia].
    exists [TryClaim p false]. split; reflexivity.
  - destruct fuel as [| fuel]; [simpl in Hfuel; lia |].
    destruct (chain_head data sync_marker Hlen _ _ _ Hp Hc) as (Ho & Hsz & Hocc & Hc').
    pose proof Hc as [Hn _].
    simpl read_loop. unfold offset_try_claim. cbn [last_record_start stop_offset start_offset].
    destruct (Z.ltb_spec p last); [lia |].
    destruct (Z.eqb_spec p last); [lia |].
    rewrite andb_false_r. cbn [orb].
    destruct (Z.leb_spec stop p) as [Hout | Hin].
    + (* the block starts at or after the stop position *)
      exists [TryClaim p false]. split; [reflexivity |].
      cbn [filter]. destruct (Z.ltb_spec (offset b) stop); [lia |].
      rewrite filter_none; [reflexivity |]. intros b' Hb'.
      assert (Hp' : 0 <= block_end b) by (unfold block_end, SYNC_SIZE in *; lia).
      destruct (chain_blocks data sync_marker Hlen _ _ Hp' Hc' b' Hb') as (Hge & _).
      apply Z.ltb_ge. unfold block_end, SYNC_SIZE in *. lia.
    + rewrite Hn.
      pose proof (Hdec b (or_introl eq_refl)) as Hok.
      destruct (decode_records b) as [records failure] eqn:Ed. cbn [snd] in Hok. subst failure.
      assert (Hp' : 0 <= block_end b) by (unfold block_end, SYNC_SIZE in *; lia).
      destruct (IH (fun b' Hb' => Hdec b' (or_intror Hb')) (block_end b) p fuel)
        as (rest & Hrest & Hrecs);
        [ exact Hp' | unfold block_end, SYNC_SIZE in *; lia | exact Hc'
        | simpl in Hfuel; lia |].
      fold (block_end b). rewrite Hrest.
      eexists. split; [reflexivity |].
      cbn [filter]. destruct (Z.ltb_spec (offset b) stop); [| lia].
      cbn [flat_map]. rewrite Ed. cbn [fst].
      change (TryClaim p true :: NextBlock b :: map (Yield b) records ++ rest)
        with ([TryClaim p true; NextBlock b] ++ (map (Yield b) records ++ rest)).
      rewrite !records_of_app, records_of_yields, Hrecs. reflexivity.
Qed.

End RangeOfChain.

Lemma marker_end_occurs (c m : list byte) (B : Z) :
  0 < len m -> In B (marker_ends c m) -> occurs_at c m (B - len m).
Proof.
  intros Hm Hin. pose proof Hin as Hin'.
  apply marker_ends_from_sound in Hin'. destruct Hin' as (k & Hk & _).
  apply marker_ends_spec; [exact Hm |]. split; [lia |].
  replace (B - len m + len m) with B by lia. exact Hin.
Qed.

Section ContainerFile.

Variable data : list byte.
Variable decode_records : Block -> list value * option exn.
Variables (header : Header) (fh : file) (bs : list Block).
Variables fuel_h fuel_b : nat.

(** The file is a container: its header parses, its blocks follow one
    another to the end of the file and decode, and the bytes of the
    sync marker occur where the header and the blocks end, nowhere else. *)
Hypothesis Hheader : block_reader fuel_h (mkfile data 0) = Ok (header, fh).
Hypothesis Hsync : len (sync header) = SYNC_SIZE.
Hypothesis Hblocks : read_all_blocks fuel_b (sync header) fh = Ok bs.
Hypothesis Hdecode : forall b, In b bs -> snd (decode_records b) = None.
Hypothesis Hmarks :
  marker_ends data (sync header) = position fh :: map block_end bs.

Lemma container_chain :
  fh = mkfile data (position fh) /\ SYNC_SIZE <= position fh /\
  chain data (sync header) (position fh) bs.
Proof.
  destruct (block_reader_lands _ _ _ _ Hheader Hsync) as (Hfh & Hge & _).
  split; [exact Hfh |]. split; [exact Hge |].
  apply read_all_blocks_chain with (fuel := fuel_b); [exact Hsync | |].
  - unfold SYNC_SIZE in Hge. lia.
  - rewrite <- Hfh. exact Hblocks.
Qed.

(** A range read on its own yields the blocks that start inside it. *)
Lemma read_range_records (s e : Z) (fuel : nat) :
  0 <= s <= len data -> e <= len data ->
  (fuel_h + List.length data + List.length bs + 1 <= fuel)%nat ->
  exists trace,
    read_range decode_records fuel data (s, e) = (trace, Ok tt) /\
    records_of trace
    = flat_map (fun b => fst (decode_records b)) (filter (starts_in s e) bs).
Proof.
  intros Hs He Hfuel.
  destruct container_chain as (Hfh & Hge & Hchain).
  assert (Hm : 0 < len (sync header)) by (unfold SYNC_SIZE in Hsync; lia).
  assert (Hmb : 0 < len (sync header) <= buf_size)
    by (unfold SYNC_SIZE in Hsync; unfold buf_size; lia).
  assert (Hp0 : 0 <= position fh) by (unfold SYNC_SIZE in Hge; lia).
  (* the marker that closes the file *)
  destruct (chain_reaches_end data (sync header) Hsync bs _ Hp0 Hchain) as (B & HB & HBend).
  rewrite <- Hmarks in HB.
  pose proof (marker_end_occurs _ _ _ Hm HB) as Hq0.
  set (start := Z.max 0 (s - len (sync header))).
  assert (Hstart : 0 <= start <= B - len (sync header)).
  { destruct Hq0 as (Hq0 & _). subst start. lia. }
  destruct (first_occurrence _ _ _ Hq0 (Z.to_nat (B - len (sync header) - start))
              start Hstart (Nat.le_refl _)) as (q & Hq & Hoq & Hmin).
  pose proof Hoq as (Hq1 & Hq2 & _).
  (* where the scan lands is a block boundary *)
  assert (HP : In (q + len (sync header)) (position fh :: map block_end bs)).
  { rewrite <- Hmarks. apply (proj1 (marker_ends_spec _ _ _ Hm) Hoq). }
  destruct (chain_suffix data (sync header) Hsync bs _ Hp0 Hchain _ HP)
    as (pre & suf & Hbs & Hcs & Hpre & Hsuf).
  destruct (read_loop_chain data (sync header) decode_records Hsync s e suf He
              (fun b Hb => Hdecode b ltac:(rewrite Hbs; apply in_or_app; right; exact Hb))
              (q + len (sync header)) (-1) fuel
              ltac:(lia) ltac:(lia) Hcs)
    as (trace & Hrun & Hrecs).
  { rewrite Hbs in Hfuel. rewrite length_app in Hfuel. lia. }
  exists trace. split.
  - unfold read_range, read_records. cbn [fst snd start_position OffsetRangeTracker_tracker
                                           offset_range_tracker start_offset].
    rewrite (block_reader_mono fuel_h fuel _ _ _ Hheader ltac:(lia)).
    fold start. rewrite Hfh. unfold f_seek. cbn [content position].
    destruct (Z.ltb_spec start 0); [lia |].
    unfold advance_file_past_next_sync_marker. rewrite f_read_buf.
    rewrite (advance_loop_finds data (sync header) q Hmb Hoq fuel start
               ltac:(lia) ltac:(unfold len in *; lia) Hmin).
    unfold f_tell. cbn [position]. exact Hrun.
  - rewrite Hrecs, Hbs, filter_app. f_equal.
    rewrite (filter_none (starts_in s e) pre).
    + simpl. apply filter_ext_in. intros b Hb. unfold starts_in.
      specialize (Hsuf b Hb).
      destruct (Z.leb_spec s (offset b)); [reflexivity |].
      subst start. lia.
    + intros b Hb. unfold starts_in. specialize (Hpre b Hb).
      destruct (Z.leb_spec s (offset b)) as [Hin |]; [| reflexivity].
      exfalso.
      assert (Hbb : In b bs) by (rewrite Hbs; apply in_or_app; left; exact Hb).
      destruct (chain_blocks data (sync header) Hsync bs _ Hp0 Hchain b Hbb)
        as (_ & _ & _ & Hbound).
      rewrite <- Hmarks in Hbound.
      pose proof (marker_end_occurs _ _ _ Hm Hbound) as Hocc.
      apply (Hmin (offset b - len (sync header))); [| exact Hocc].
      destruct Hocc as (Hocc0 & _). subst start. lia.
Qed.

End ContainerFile.

(* ------------------------------------------------------------------ *)
(** ** All ranges of a partition                                       *)
(* ------------------------------------------------------------------ *)

Lemma is_partition_bounds (ranges : list (Z * Z)) :
  forall lo hi, is_partition lo hi ranges = true ->
    lo <= hi /\ forall r, In r ranges -> lo <= fst r /\ fst r <= snd r /\ snd r <= hi.
Proof.
  induction ranges as [| [a b] ranges IH]; intros lo hi Hp; simpl in Hp.
  - apply Z.eqb_eq in Hp. split; [lia | contradiction].
  - apply andb_true_iff in Hp. destruct Hp as [Hp Hrest].
    apply andb_true_iff in Hp. destruct Hp as [Ha Hab].
    apply Z.eqb_eq in Ha. apply Z.leb_le in Hab.
    destruct (IH _ _ Hrest) as [Hle Hall]. split; [lia |].
    intros r [<- | Hr]; cbn [fst snd]; [lia |].
    destruct (Hall r Hr) as (H1 & H2 & H3). lia.
Qed.

Lemma starts_in_join (bs : list Block) (a b c : Z) :
  StronglySorted (fun x y => offset x < offset y) bs ->
  a <= b <= c ->
  filter (starts_in a b) bs ++ filter (starts_in b c) bs
  = filter (starts_in a c) bs.
Proof.
  intros Hsorted Habc. induction Hsorted as [| x bs Hs IH Hx]; [reflexivity |].
  rewrite Forall_forall in Hx. cbn [filter].
  destruct (starts_in a b x) eqn:E1, (starts_in b c x) eqn:E2,
           (starts_in a c x) eqn:E3;
    unfold starts_in in E1, E2, E3;
    rewrite ?andb_true_iff, ?andb_false_iff, ?Z.leb_le, ?Z.ltb_lt,
            ?Z.leb_gt, ?Z.ltb_ge in E1, E2, E3;
    try lia.
  - simpl. f_equal. exact IH.
  - rewrite <- IH. rewrite filter_none; [reflexivity |].
    intros y Hy. specialize (Hx y Hy). unfold starts_in.
    destruct (Z.ltb_spec (offset y) b); [lia |]. apply andb_false_r.
  - exact IH.
Qed.

Lemma partition_covers (bs : list Block) (ranges : list (Z * Z)) :
  StronglySorted (fun x y => offset x < offset y) bs ->
  forall lo hi, is_partition lo hi ranges = true ->
    flat_map (fun r => filter (starts_in (fst r) (snd r)) bs) ranges
    = filter (starts_in lo hi) bs.
Proof.
  intros Hsorted. induction ranges as [| [a b] ranges IH]; intros lo hi Hp.
  - simpl in Hp. apply Z.eqb_eq in Hp. subst hi. simpl.
    rewrite filter_none; [reflexivity |]. intros x _. unfold starts_in.
    destruct (Z.leb_spec lo (offset x)), (Z.ltb_spec (offset x) lo);
      cbn [andb]; try reflexivity; lia.
  - pose proof Hp as Hp'. simpl in Hp'.
    apply andb_true_iff in Hp'. destruct Hp' as [Hp' Hrest].
    apply andb_true_iff in Hp'. destruct Hp' as [Ha Hab].
    apply Z.eqb_eq in Ha. apply Z.leb_le in Hab. subst a.
    destruct (is_partition_bounds _ _ _ Hrest) as [Hle _].
    cbn [flat_map fst snd]. rewrite (IH _ _ Hrest).
    apply starts_in_join; [exact Hsorted | lia].
Qed.

Lemma flat_map_flat_map {A B C : Type} (f : B -> list C) (g : A -> list B)
  (l : list A) :
  flat_map f (flat_map g l) = flat_map (fun a => flat_map f (g a)) l.
Proof.
  induction l as [| a l IH]; [reflexivity |].
  simpl. rewrite flat_map_app, IH. reflexivity.
Qed.

(* ------------------------------------------------------------------ *)
(** ** A finished run does not depend on the step budget              *)
(* ------------------------------------------------------------------ *)

Lemma advance_loop_mono (fuel : nat) :
  forall (f : file) (m data : list byte) (r : result (value * file)),
    advance_loop fuel f m data = r -> r <> OutOfFuel ->
    forall fuel', (fuel <= fuel')%nat -> advance_loop fuel' f m data = r.
Proof.
  induction fuel as [| fuel IH]; intros f m data r Hr Hne fuel' Hle.
  - simpl in Hr. congruence.
  - destruct fuel' as [| fuel']; [lia |].
    rewrite advance_loop_step in *.
    destruct data as [| d0 data]; [exact Hr |]. cbv zeta in *.
    destruct (0 <=? bytes_find (d0 :: data) m); [exact Hr |].
    destruct (if len m <=? f_tell f then f_seek_cur f (-1 * (len m - 1)) else Ok f)
      as [f1 | e |]; cbn [bind] in *; try exact Hr.
    destruct (f_read f1 buf_size) as [data' f2].
    apply IH; [exact Hr | exact Hne | lia].
Qed.

Lemma block_reader_finished (fuel fuel' : nat) (f : file)
  (r : result (Header * file)) :
  block_reader fuel f = r -> r <> OutOfFuel -> (fuel <= fuel')%nat ->
  block_reader fuel' f = r.
Proof.
  unfold block_reader. destruct (f_read f 4) as [mg f1].
  intros Hr Hne Hle.
  destruct (read_map fuel f1 0 []) as [[mt f2] | e |] eqn:Em.
  - rewrite (read_map_mono fuel _ _ _ _ Em ltac:(discriminate) fuel' Hle). exact Hr.
  - rewrite (read_map_mono fuel _ _ _ _ Em ltac:(discriminate) fuel' Hle). exact Hr.
  - cbn [bind] in Hr. congruence.
Qed.

Section RunMono.

Context {T : Type} `{RangeTracker T}.
Variable decode_records : Block -> list value * option exn.

Lemma read_loop_mono (fuel : nat) :
  forall (f : file) (m : list byte) (rt : T) (p : Z)
         (t : list event) (r : result unit),
    read_loop decode_records fuel f m rt p = (t, r) -> r <> OutOfFuel ->
    forall fuel', (fuel <= fuel')%nat ->
      read_loop decode_records fuel' f m rt p = (t, r).
Proof.
  induction fuel as [| fuel IH]; intros f m rt p t r Hr Hne fuel' Hle.
  - simpl in Hr. congruence.
  - destruct fuel' as [| fuel']; [lia |]. simpl in *.
    destruct (try_claim rt p) as [[[] rt'] | e |]; try exact Hr.
    destruct (next_block m f) as [[[b |] f'] | e |]; try exact Hr.
    destruct (decode_records b) as [records [e |]]; try exact Hr.
    destruct (read_loop decode_records fuel f' m rt' (offset b + size b))
      as [rest r'] eqn:E.
    injection Hr as <- <-.
    rewrite (IH _ _ _ _ _ _ E Hne fuel' ltac:(lia)). reflexivity.
Qed.

Lemma read_records_mono (fuel : nat) (data : list byte) (rt : T)
  (t : list event) (r : result unit) :
  read_records decode_records fuel data rt = (t, r) -> r <> OutOfFuel ->
  forall fuel', (fuel <= fuel')%nat ->
    read_records decode_records fuel' data rt = (t, r).
Proof.
  unfold read_records. intros Hr Hne fuel' Hle.
  destruct (block_reader fuel (mkfile data 0)) as [[h f] | e |] eqn:Eh.
  - rewrite (block_reader_finished fuel fuel' _ _ Eh ltac:(discriminate) Hle).
    destruct (f_seek f _) as [f1 | e |]; try exact Hr.
    unfold advance_file_past_next_sync_marker in *.
    destruct (f_read f1 buf_size) as [d f1'].
    destruct (advance_loop fuel f1' (sync h) d) as [[v f2] | e |] eqn:Ea.
    + rewrite (advance_loop_mono fuel _ _ _ _ Ea ltac:(discriminate) fuel' Hle).
      apply read_loop_mono with (fuel := fuel); assumption.
    + rewrite (advance_loop_mono fuel _ _ _ _ Ea ltac:(discriminate) fuel' Hle).
      exact Hr.
    + injection Hr as _ <-. congruence.
  - rewrite (block_reader_finished fuel fuel' _ _ Eh ltac:(discriminate) Hle).
    exact Hr.
  - injection Hr as _ <-. congruence.
Qed.

End RunMono.

(* ================================================================== *)
(** * The claims about reading                                         *)
(* ================================================================== *)

(** C1 (amended).  For a container file in which the 16 bytes of the sync
    marker occur only where the header and the blocks end, and for every
    partition of its byte range into adjacent half-open ranges: every
    range, read on its own, ends normally, and the records of the ranges
    taken in range order are exactly the records of the file read as a
    single range, which are the records of all its blocks in order. *)
Theorem split_ranges_read_every_record_once
  (data : list byte) (decode_records : Block -> list value * option exn)
  (header : Header) (fh : file) (bs : list Block) (fuel_h fuel_b : nat)
  (ranges : list (Z * Z)) :
  block_reader fuel_h (mkfile data 0) = Ok (header, fh) ->
  len (sync header) = SYNC_SIZE ->
  read_all_blocks fuel_b (sync header) fh = Ok bs ->
  (forall b, In b bs -> snd (decode_records b) = None) ->
  marker_ends data (sync header) = position fh :: map block_end bs ->
  is_partition 0 (len data) ranges = true ->
  forall fuel,
    (fuel_h + List.length data + List.length bs + 1 <= fuel)%nat ->
    let whole := read_range decode_records fuel data (0, len data) in
    let parts := map (read_range decode_records fuel data) ranges in
    snd whole = Ok tt /\
    (forall run, In run parts -> snd run = Ok tt) /\
    flat_map (fun run => records_of (fst run)) parts = records_of (fst whole) /\
    records_of (fst whole) = flat_map (fun b => fst (decode_records b)) bs.
Proof.
  intros Hheader Hsync Hblocks Hdecode Hmarks Hpart fuel Hfuel whole parts.
  pose proof (read_range_records data decode_records header fh bs fuel_h fuel_b
                Hheader Hsync Hblocks Hdecode Hmarks) as Hrange.
  destruct (container_chain data header fh bs fuel_h fuel_b Hheader Hsync Hblocks)
    as (Hfh & Hge & Hchain).
  assert (Hp0 : 0 <= position fh) by (unfold SYNC_SIZE in Hge; lia).
  pose proof (chain_sorted data (sync header) Hsync bs _ Hp0 Hchain) as Hsorted.
  destruct (is_partition_bounds _ _ _ Hpart) as [Hlen Hbounds].
  (* every block starts inside the file *)
  assert (Hall : filter (starts_in 0 (len data)) bs = bs).
  { apply filter_all. intros b Hb.
    destruct (chain_blocks data (sync header) Hsync bs _ Hp0 Hchain b Hb)
      as (Hge' & Hsz & (_ & Hocc & _) & _).
    unfold starts_in, block_end, SYNC_SIZE in *.
    destruct (Z.leb_spec 0 (offset b)), (Z.ltb_spec (offset b) (len data));
      cbn [andb]; try reflexivity; lia. }
  destruct (Hrange 0 (len data) fuel ltac:(lia) ltac:(lia) Hfuel) as (tw & Hw & Hwr).
  fold whole in Hw. rewrite Hall in Hwr.
  assert (Hparts : (forall run, In run parts -> snd run = Ok tt) /\
                   flat_map (fun run => records_of (fst run)) parts
                   = flat_map (fun r => flat_map (fun b => fst (decode_records b))
                                          (filter (starts_in (fst r) (snd r)) bs))
                              ranges).
  { subst parts. clear Hpart. induction ranges as [| [a b] ranges IH].
    - split; [intros run [] | reflexivity].
    - destruct (Hbounds (a, b) (or_introl eq_refl)) as (Ha & Hab & Hb).
      cbn [fst snd] in *.
      destruct (Hrange a b fuel ltac:(lia) ltac:(lia) Hfuel) as (t & Ht & Htr).
      destruct (IH (fun r Hr => Hbounds r (or_intror Hr))) as [IH1 IH2].
      split.
      + intros run [<- | Hrun]; [rewrite Ht; reflexivity | exact (IH1 run Hrun)].
      + cbn [map flat_map]. rewrite Ht. cbn [fst snd]. rewrite Htr, IH2. reflexivity. }
  destruct Hparts as [Hok Hrecs].
  rewrite Hw. cbn [fst snd].
  split; [reflexivity |]. split; [exact Hok |]. split; [| exact Hwr].
  rewrite Hrecs, Hwr, <- flat_map_flat_map.
  rewrite (partition_covers bs ranges Hsorted _ _ Hpart), Hall. reflexivity.
Qed.

Lemma split_ranges_read_every_record_once_witness :
  block_reader 10 (mkfile two_block_file 0)
  = Ok (two_block_header, mkfile two_block_file 57) /\
  len (sync two_block_header) = SYNC_SIZE /\
  read_all_blocks 10 (sync two_block_header) (mkfile two_block_file 57)
  = Ok two_block_blocks /\
  (forall b, In b two_block_blocks -> snd (decode_long_records b) = None) /\
  marker_ends two_block_file (sync two_block_header)
  = position (mkfile two_block_file 57) :: map block_end two_block_blocks /\
  is_partition 0 (len two_block_file) two_block_ranges = true /\
  (10 + List.length two_block_file + List.length two_block_blocks + 1 <= 200)%nat /\
  let whole := read_range decode_long_records 200 two_block_file
                          (0, len two_block_file) in
  let parts := map (read_range decode_long_records 200 two_block_file)
                   two_block_ranges in
  snd whole = Ok tt /\
  (forall run, In run parts -> snd run = Ok tt) /\
  flat_map (fun run => records_of (fst run)) parts = records_of (fst whole) /\
  records_of (fst whole)
  = flat_map (fun b => fst (decode_long_records b)) two_block_blocks.
Proof.
  assert (H1 : block_reader 10 (mkfile two_block_file 0)
               = Ok (two_block_header, mkfile two_block_file 57))
    by (vm_compute; reflexivity).
  assert (H2 : len (sync two_block_header) = SYNC_SIZE) by reflexivity.
  assert (H3 : read_all_blocks 10 (sync two_block_header) (mkfile two_block_file 57)
               = Ok two_block_blocks) by (vm_compute; reflexivity).
  assert (H4 : forall b, In b two_block_blocks -> snd (decode_long_records b) = None)
    by (intros b [<- | [<- | []]]; reflexivity).
  assert (H5 : marker_ends two_block_file (sync two_block_header)
               = position (mkfile two_block_file 57) :: map block_end two_block_blocks)
    by (vm_compute; reflexivity).
  assert (H6 : is_partition 0 (len two_block_file) two_block_ranges = true)
    by (vm_compute; reflexivity).
  assert (H7 : (10 + List.length two_block_file + List.length two_block_blocks + 1
                <= 200)%nat) by (vm_compute; lia).
  repeat (split; [assumption |]).
  exact (split_ranges_read_every_record_once
           two_block_file decode_long_records two_block_header
           (mkfile two_block_file 57) two_block_blocks 10 10 two_block_ranges
           H1 H2 H3 H4 H5 H6 200 H7).
Defined.

(** C1 as stated fails: a container file whose first block holds records
    that encode to the bytes of the sync marker.  The range that starts
    inside that block lands behind the stray bytes, has its claim
    accepted and takes a block from the middle of the real one. *)
Lemma stray_marker_breaks_split_coverage :
  is_container decode_long_records stray_marker_file /\
  is_partition 0 (len stray_marker_file) stray_marker_ranges = true /\
  ~ split_coverage decode_long_records stray_marker_file stray_marker_ranges.
Proof.
  split; [| split].
  - exists 10%nat, two_block_header, (mkfile stray_marker_file 57), stray_marker_blocks.
    split; [vm_compute; reflexivity |]. split; [reflexivity |].
    split; [vm_compute; reflexivity |].
    intros b [<- | [<- | []]]; reflexivity.
  - vm_compute. reflexivity.
  - intros [fuel0 Hcov]. specialize (Hcov (Nat.max fuel0 20) (Nat.le_max_l _ _)).
    assert (Hrun : forall r,
               snd (read_range decode_long_records 20 stray_marker_file r) <> OutOfFuel ->
               read_range decode_long_records (Nat.max fuel0 20) stray_marker_file r
               = read_range decode_long_records 20 stray_marker_file r).
    { intros r Hr. unfold read_range in *.
      destruct (read_records decode_long_records 20 stray_marker_file
                  (offset_range_tracker (fst r) (snd r))) as [t o] eqn:E.
      apply (read_records_mono decode_long_records 20 _ _ _ _ E Hr).
      apply Nat.le_max_r. }
    unfold stray_marker_ranges in Hcov. cbn [map] in Hcov.
    rewrite !Hrun in Hcov by (vm_compute; discriminate).
    vm_compute in Hcov. discriminate.
Qed.

(** C5.  When the sync marker (between 1 byte and the buffer size long;
    16 bytes in a container file) occurs somewhere at or after the
    position of the stream, [advance_file_past_next_sync_marker] returns
    [True] and leaves the stream exactly at the end of the first such
    occurrence, wherever that occurrence lies relative to the ends of the
    buffered reads; no occurrence is skipped, and the call finishes
    within one round per byte up to the occurrence. *)
Theorem advance_lands_after_first_marker
  (c sync_marker : list byte) (p q0 : Z) :
  0 < len sync_marker <= buf_size ->
  0 <= p <= q0 ->
  occurs_at c sync_marker q0 ->
  exists q,
    p <= q <= q0 /\ occurs_at c sync_marker q /\
    (forall q', p <= q' < q -> ~ occurs_at c sync_marker q') /\
    forall fuel, (Z.to_nat (q - p) < fuel)%nat ->
      advance_file_past_next_sync_marker fuel (mkfile c p) sync_marker
      = Ok (VBool true, mkfile c (q + len sync_marker)).
Proof.
  intros Hm Hp Hocc.
  destruct (first_occurrence c sync_marker q0 Hocc (Z.to_nat (q0 - p)) p Hp (Nat.le_refl _))
    as (q & Hq & Hoq & Hmin).
  exists q. split; [lia |]. split; [exact Hoq |]. split; [exact Hmin |].
  intros fuel Hfuel. unfold advance_file_past_next_sync_marker.
  rewrite f_read_buf. apply advance_loop_finds; auto; lia.
Qed.

Lemma advance_lands_after_first_marker_witness :
  0 < len sample_sync <= buf_size /\
  0 <= 0 <= 9990 /\
  occurs_at straddling_stream sample_sync 9990 /\
  exists q,
    0 <= q <= 9990 /\ occurs_at straddling_stream sample_sync q /\
    (forall q', 0 <= q' < q -> ~ occurs_at straddling_stream sample_sync q') /\
    forall fuel, (Z.to_nat (q - 0) < fuel)%nat ->
      advance_file_past_next_sync_marker fuel (mkfile straddling_stream 0) sample_sync
      = Ok (VBool true, mkfile straddling_stream (q + len sample_sync)).
Proof.
  assert (H1 : 0 < len sample_sync <= buf_size) by (vm_compute; split; [reflexivity | discriminate]).
  assert (H2 : 0 <= 0 <= 9990) by lia.
  assert (H3 : occurs_at straddling_stream sample_sync 9990).
  { split; [lia |]. split; [vm_compute; discriminate | vm_compute; reflexivity]. }
  repeat (split; [assumption |]).
  exact (advance_lands_after_first_marker straddling_stream sample_sync 0 9990 H1 H2 H3).
Defined.

(** C6 fails on the code.  On a stream of twenty zero bytes, in which the
    16-byte marker does not occur, the scanner never returns: whatever
    the step budget, the loop is still stepping back 15 bytes and reading
    the same 15 bytes again. *)
Theorem advance_never_returns_without_marker :
  forall fuel,
    advance_file_past_next_sync_marker fuel (mkfile marker_free_stream 0) sample_sync
    = OutOfFuel.
Proof.
  apply advance_file_past_next_sync_marker_spins.
  - vm_compute. split; discriminate.
  - vm_compute. discriminate.
  - vm_compute. split; [discriminate | reflexivity].
  - intros q Hq Hocc.
    apply (marker_ends_spec marker_free_stream sample_sync q ltac:(reflexivity)) in Hocc.
    destruct Hocc as [_ Hin]. vm_compute in Hin. exact Hin.
Qed.

(* ================================================================== *)
(** * The claims about values and schemas                              *)
(* ================================================================== *)

(** C2.  For every 32-bit two's-complement value [x] (an Avro int) and
    every 64-bit value [y] (an Avro long): the forward conversion gives
    the unsigned reading of the same bit pattern, a number in [0, 2^32)
    (resp. [0, 2^64)) with the same low 32 (resp. 64) bits; converting
    that back gives the original value; and for every other atomic kind
    both conversions return the value unchanged. *)
Theorem atomic_int_round_trip (x y : Z) :
  - 2 ^ 31 <= x < 2 ^ 31 ->
  - 2 ^ 63 <= y < 2 ^ 63 ->
  (exists u, avro_atomic_value_to_beam_atomic_value "int" (VInt x) = Ok (VInt u) /\
             0 <= u < 2 ^ 32 /\
             u = (if x <? 0 then x + 2 ^ 32 else x) /\
             (forall i, 0 <= i < 32 -> Z.testbit u i = Z.testbit x i) /\
             beam_atomic_value_to_avro_atomic_value "int" (VInt u) = Ok (VInt x)) /\
  (exists u, avro_atomic_value_to_beam_atomic_value "long" (VInt y) = Ok (VInt u) /\
             0 <= u < 2 ^ 64 /\
             u = (if y <? 0 then y + 2 ^ 64 else y) /\
             (forall i, 0 <= i < 64 -> Z.testbit u i = Z.testbit y i) /\
             beam_atomic_value_to_avro_atomic_value "long" (VInt u) = Ok (VInt y)) /\
  (forall avro_type v,
      avro_type <> "int" -> avro_type <> "long" ->
      avro_atomic_value_to_beam_atomic_value avro_type v = Ok v /\
      beam_atomic_value_to_avro_atomic_value avro_type v = Ok v).
Proof.
  intros Hx Hy.
  assert (Hu : forall w z, 0 < w -> - 2 ^ (w - 1) <= z < 2 ^ (w - 1) ->
                 as_unsigned w z = (if z <? 0 then z + 2 ^ w else z)).
  { intros w z Hw Hz. unfold as_unsigned.
    assert (Hp : 2 ^ w = 2 * 2 ^ (w - 1)).
    { replace w with (Z.succ (w - 1)) at 1 by lia. apply Z.pow_succ_r. lia. }
    destruct (Z.ltb_spec z 0).
    - symmetry. apply Z.mod_unique with (q := -1); lia.
    - apply Z.mod_small. lia. }
  split; [| split].
  - exists (as_unsigned 32 x). split; [reflexivity |].
    split; [apply as_unsigned_range; lia |].
    split; [apply Hu; [lia | exact Hx] |].
    split; [intros i Hi; apply as_unsigned_bits; exact Hi |].
    change (Ok (VInt (as_signed 32 (as_unsigned 32 x))) = Ok (VInt x)).
    rewrite as_signed_unsigned; [reflexivity | lia | exact Hx].
  - exists (as_unsigned 64 y). split; [reflexivity |].
    split; [apply as_unsigned_range; lia |].
    split; [apply Hu; [lia | exact Hy] |].
    split; [intros i Hi; apply as_unsigned_bits; exact Hi |].
    change (Ok (VInt (as_signed 64 (as_unsigned 64 y))) = Ok (VInt y)).
    rewrite as_signed_unsigned; [reflexivity | lia | exact Hy].
  - intros avro_type v Hi Hl.
    unfold avro_atomic_value_to_beam_atomic_value,
           beam_atomic_value_to_avro_atomic_value.
    apply String.eqb_neq in Hi. apply String.eqb_neq in Hl.
    rewrite Hi, Hl. split; reflexivity.
Qed.

Lemma atomic_int_round_trip_witness :
  - 2 ^ 31 <= -1 < 2 ^ 31 /\
  - 2 ^ 63 <= - 2 ^ 63 < 2 ^ 63 /\
  (exists u, avro_atomic_value_to_beam_atomic_value "int" (VInt (-1)) = Ok (VInt u) /\
             0 <= u < 2 ^ 32 /\
             u = (if -1 <? 0 then -1 + 2 ^ 32 else -1) /\
             (forall i, 0 <= i < 32 -> Z.testbit u i = Z.testbit (-1) i) /\
             beam_atomic_value_to_avro_atomic_value "int" (VInt u) = Ok (VInt (-1))) /\
  (exists u, avro_atomic_value_to_beam_atomic_value "long" (VInt (- 2 ^ 63)) = Ok (VInt u) /\
             0 <= u < 2 ^ 64 /\
             u = (if - 2 ^ 63 <? 0 then - 2 ^ 63 + 2 ^ 64 else - 2 ^ 63) /\
             (forall i, 0 <= i < 64 -> Z.testbit u i = Z.testbit (- 2 ^ 63) i) /\
             beam_atomic_value_to_avro_atomic_value "long" (VInt u) = Ok (VInt (- 2 ^ 63))) /\
  (forall avro_type v,
      avro_type <> "int" -> avro_type <> "long" ->
      avro_atomic_value_to_beam_atomic_value avro_type v = Ok v /\
      beam_atomic_value_to_avro_atomic_value avro_type v = Ok v).
Proof.
  assert (H1 : - 2 ^ 31 <= -1 < 2 ^ 31) by lia.
  assert (H2 : - 2 ^ 63 <= - 2 ^ 63 < 2 ^ 63) by lia.
  split; [exact H1 |]. split; [exact H2 |].
  exact (atomic_int_round_trip (-1) (- 2 ^ 63) H1 H2).
Defined.

(** C3 fails on the code.  A record schema with a string-keyed map field
    converts to a beam schema, and converting that back raises
    [AttributeError]: [beam_type_to_avro_type] asks the map type for an
    [element_type], where the other converters read its [value_type]. *)
Theorem map_schema_does_not_round_trip :
  avro_schema_to_beam_schema inventory_schema
  = Ok (mkSchema ""
          [ ("name", FieldType_atomic false STRING);
            ("counts", FieldType_map false (FieldType_atomic false STRING)
                                     (FieldType_atomic false INT32)) ]) /\
  (s <- avro_schema_to_beam_schema inventory_schema ;;
   beam_schema_to_avro_schema s) = Raise AttributeError.
Proof. split; reflexivity. Qed.

(** C7 fails on the code.  A two-member union of ["null"] and an array --
    a member with no direct primitive mapping, given as a dict -- does not
    yield the Any type: the membership test in the primitives table
    raises [TypeError], in either member order. *)
Theorem union_with_dict_member_raises :
  avro_union_type_to_beam_type nullable_array = Raise TypeError /\
  avro_union_type_to_beam_type (rev nullable_array) = Raise TypeError.
Proof. split; reflexivity. Qed.

(** C8.  For a map type whose key type is not the atomic string type,
    building the value converter raises [TypeError] in both directions:
    the result of the construction is the error, not a converter, so no
    value is ever processed. *)
Theorem map_key_rejected_at_construction
  (nullable : bool) (key_type value_type : FieldType) :
  atomic_type_of key_type <> STRING ->
  avro_value_to_beam_value (FieldType_map nullable key_type value_type)
  = Raise TypeError /\
  beam_value_to_avro_value (FieldType_map nullable key_type value_type)
  = Raise TypeError.
Proof.
  intros Hkey.
  assert (Hneq : AtomicType_eqb (atomic_type_of key_type) STRING = false).
  { destruct (atomic_type_of key_type); try reflexivity. congruence. }
  simpl. rewrite Hneq. split; reflexivity.
Qed.

Lemma map_key_rejected_at_construction_witness :
  atomic_type_of (FieldType_atomic false INT32) <> STRING /\
  avro_value_to_beam_value
    (FieldType_map false (FieldType_atomic false INT32) (FieldType_atomic false STRING))
  = Raise TypeError /\
  beam_value_to_avro_value
    (FieldType_map false (FieldType_atomic false INT32) (FieldType_atomic false STRING))
  = Raise TypeError.
Proof.
  assert (H1 : atomic_type_of (FieldType_atomic false INT32) <> STRING)
    by (simpl; discriminate).
  split; [exact H1 |].
  exact (map_key_rejected_at_construction false (FieldType_atomic false INT32)
           (FieldType_atomic false STRING) H1).
Defined.

(** C9 fails on the code.  For the top-level schema ["int"], given as a
    bare name, the schema is wrapped as the claim says, but neither
    converter is built: [avro_dict_to_beam_row] calls itself without the
    beam schema and raises [TypeError], and [beam_row_to_avro_dict] hands
    the schema, not a field type, to [beam_value_to_avro_value], which
    raises [ValueError]; the latter also for the dict [{'type': 'int'}]. *)
Theorem scalar_schema_converters_raise :
  avro_schema_to_beam_schema (AvroStr "int")
  = Ok (mkSchema "" [ ("record", FieldType_atomic false INT32) ]) /\
  avro_dict_to_beam_row (AvroStr "int")
    (mkSchema "" [ ("record", FieldType_atomic false INT32) ]) = Raise TypeError /\
  beam_row_to_avro_dict (AvroStr "int")
    (mkSchema "" [ ("record", FieldType_atomic false INT32) ]) = Raise ValueError /\
  beam_row_to_avro_dict (AvroDict "int")
    (mkSchema "" [ ("record", FieldType_atomic false INT32) ]) = Raise ValueError.
Proof. repeat split; reflexivity. Qed.




(* ================================================================== *)
(** * How far the defects reach                                        *)
(* ================================================================== *)

(** ** The scanner on a stream shorter than the marker                 *)

(** When the whole file is shorter than the marker, the scanner reads to
    the end and falls off the loop: it returns [None] at the end of the
    file.  (The step back is taken only with [len(sync_marker)] bytes
    behind the position.) *)
Lemma advance_returns_none_on_short_file (c m : list byte) (p : Z) (fuel : nat) :
  len c < len m -> len m <= buf_size -> 0 <= p <= len c -> (2 <= fuel)%nat ->
  advance_file_past_next_sync_marker fuel (mkfile c p) m
  = Ok (VNone, mkfile c (len c)).
Proof.
  intros Hshort Hm Hp Hfuel. unfold advance_file_past_next_sync_marker.
  rewrite f_read_buf.
  pose proof (chunk_len c p Hp) as Hlen.
  set (data := firstn (Z.to_nat buf_size) (skipn (Z.to_nat p) c)) in *.
  destruct fuel as [| [| fuel]]; try lia.
  rewrite advance_loop_step.
  destruct data as [| d0 data'] eqn:Edata.
  - change (len (@nil byte)) with 0 in *.
    replace (p + 0) with (len c) by lia. reflexivity.
  - rewrite <- Edata in *. cbv zeta.
    assert (Hnone : bytes_find data m = -1).
    { destruct (Z.eq_dec (bytes_find data m) (-1)) as [E | Hsome]; [exact E |].
      exfalso.
      destruct (find_from_found data m 0 _ ltac:(lia) eq_refl Hsome)
        as (k & _ & _ & Hs & _).
      subst data.
      destruct (chunk_occurs c m p k ltac:(lia) ltac:(lia) Hs) as [(_ & Hb & _) _].
      lia. }
    rewrite Hnone. cbn [Z.leb Z.compare].
    unfold f_tell. cbn [position].
    destruct (Z.leb_spec (len m) (p + len data)); [lia |].
    cbn [bind]. rewrite f_read_buf.
    replace (p + len data) with (len c) by lia.
    assert (Hend : firstn (Z.to_nat buf_size) (skipn (Z.to_nat (len c)) c) = []).
    { rewrite skipn_all2 by (unfold len; lia). apply firstn_nil. }
    rewrite Hend. change (len (@nil byte)) with 0.
    replace (len c + 0) with (len c) by lia. reflexivity.
Qed.

(** ** Unions of type names                                            *)

Lemma primitive_names_invert (p : string) (a : AtomicType) :
  dict_get p AVRO_PRIMITIVES_TO_BEAM_PRIMITIVES = Some a ->
  atomic_get a BEAM_PRIMITIVES_TO_AVRO_PRIMITIVES = Some p /\ p <> "null".
Proof.
  unfold AVRO_PRIMITIVES_TO_BEAM_PRIMITIVES. cbn [dict_get].
  repeat match goal with
         | |- context [String.eqb p ?s] =>
             destruct (String.eqb_spec p s) as [-> | _];
             [intros [= <-]; split; [reflexivity | discriminate] |]
         end.
  discriminate.
Qed.

(** A two-member union of ["null"] and a primitive name, in either order,
    is the nullable atomic type. *)
Lemma nullable_primitive_union (p : string) (a : AtomicType) :
  dict_get p AVRO_PRIMITIVES_TO_BEAM_PRIMITIVES = Some a ->
  avro_union_type_to_beam_type [AvroStr "null"; AvroStr p]
  = Ok (FieldType_atomic true a) /\
  avro_union_type_to_beam_type [AvroStr p; AvroStr "null"]
  = Ok (FieldType_atomic true a).
Proof.
  unfold AVRO_PRIMITIVES_TO_BEAM_PRIMITIVES at 1. cbn [dict_get].
  repeat match goal with
         | |- context [String.eqb p ?s] =>
             destruct (String.eqb_spec p s) as [-> | _];
             [intros [= <-]; split; reflexivity |]
         end.
  discriminate.
Qed.

(** A union whose members are all type names never raises. *)
Lemma union_of_names_never_raises (names : list string) :
  exists t, avro_union_type_to_beam_type (map AvroStr names) = Ok t.
Proof.
  unfold avro_union_type_to_beam_type.
  destruct (_ && _); [| eexists; reflexivity].
  induction names as [| n names IH]; cbn [map union_members_scan];
    [eexists; reflexivity |].
  destruct (dict_get n AVRO_PRIMITIVES_TO_BEAM_PRIMITIVES); [eexists; reflexivity |].
  exact IH.
Qed.

(** More than two members, no ["null"] among them, or no primitive name
    among them: the Any type. *)
Lemma other_unions_of_names_are_any (names : list string) :
  List.length names <> 2%nat \/ ~ In "null" names \/
  (forall n, In n names -> is_primitive n = false) ->
  avro_union_type_to_beam_type (map AvroStr names) = Ok typing_to_runner_api_Any.
Proof.
  intros Hshape. unfold avro_union_type_to_beam_type.
  destruct (len (map AvroStr names) =? 2) eqn:El; cbn [andb]; [| reflexivity].
  destruct (existsb (is_name "null") (map AvroStr names)) eqn:En; [| reflexivity].
  apply Z.eqb_eq in El. unfold len in El. rewrite length_map in El.
  apply existsb_exists in En. destruct En as (x & Hx & Hnull).
  apply in_map_iff in Hx. destruct Hx as (n & <- & Hn).
  cbn [is_name] in Hnull. apply String.eqb_eq in Hnull. subst n.
  destruct Hshape as [Hl | [Hno | Hprim]]; [lia | contradiction |].
  clear El Hn. induction names as [| n names IH]; [reflexivity |].
  cbn [map union_members_scan].
  pose proof (Hprim n (or_introl eq_refl)) as Hn. unfold is_primitive in Hn.
  destruct (dict_get n AVRO_PRIMITIVES_TO_BEAM_PRIMITIVES); [discriminate |].
  apply IH. intros n' Hn'. apply Hprim. right. exact Hn'.
Qed.

(** ** Scalar schemas given as a dict                                  *)

(** For a non-record schema given as a dict, [avro_dict_to_beam_row]
    does build the wrapping converter. *)
Lemma avro_dict_to_beam_row_wraps (t : string) (beam_schema : Schema) :
  t <> "record" ->
  exists to_row,
    avro_dict_to_beam_row (AvroDict t) beam_schema = Ok to_row /\
    forall v, to_row v = Ok (VRow [("record", v)]).
Proof.
  intros Ht. apply String.eqb_neq in Ht.
  unfold avro_dict_to_beam_row. cbn [schema_type_name bind]. rewrite Ht.
  eexists. split; [reflexivity |]. intros v. reflexivity.
Qed.

(** ** Schema round trips without maps                                 *)

Lemma avro_schema_nested_ind (P : avro_schema -> Prop) :
  (forall s, P (AvroStr s)) ->
  (forall ms, Forall P ms -> P (AvroUnion ms)) ->
  (forall t, P (AvroDict t)) ->
  (forall i, P i -> P (AvroArray i)) ->
  (forall v, P v -> P (AvroMap v)) ->
  (forall n fs, Forall (fun f => P (snd f)) fs -> P (AvroRecord n fs)) ->
  forall a, P a.
Proof.
  intros Hs Hu Hd Ha Hm Hr. fix IH 1. intros [s | ms | t | i | v | n fs].
  - apply Hs.
  - apply Hu. induction ms as [| m ms IHms]; constructor; [apply IH | exact IHms].
  - apply Hd.
  - apply Ha, IH.
  - apply Hm, IH.
  - apply Hr. induction fs as [| [name t] fs IHfs]; constructor; [apply IH | exact IHfs].
Qed.

Lemma primitive_round_trip (s : string) :
  is_primitive s = true ->
  exists a, bare_type_to_beam_type s = Ok (FieldType_atomic false a) /\
            beam_type_to_avro_type (FieldType_atomic false a) = Ok (AvroDict s).
Proof.
  unfold is_primitive, bare_type_to_beam_type. intros Hs.
  destruct (dict_get s AVRO_PRIMITIVES_TO_BEAM_PRIMITIVES) as [a |] eqn:E; [| discriminate].
  exists a. split; [reflexivity |].
  destruct (primitive_names_invert s a E) as [Hinv _].
  cbn [beam_type_to_avro_type]. rewrite Hinv. reflexivity.
Qed.

(** Every supported schema converts, and converts back to itself in the
    spelling of [canonical]: same fields in the same order, same
    nesting, same nullability. *)
Lemma supported_type_round_trip :
  forall a, supported a = true ->
    exists t, avro_type_to_beam_type a = Ok t /\
              beam_type_to_avro_type t = Ok (canonical a).
Proof.
  induction a as [s | ms _ | s | i IH | v _ | n fs IH] using avro_schema_nested_ind;
    intros Hsup.
  - destruct (primitive_round_trip s Hsup) as (a & H1 & H2).
    exists (FieldType_atomic false a). split; assumption.
  - destruct ms as [| [x | | | | |] [| [y | | | | |] [| ? ?]]]; try discriminate.
    cbn [supported] in Hsup. apply orb_true_iff in Hsup.
    cbn [avro_type_to_beam_type canonical].
    destruct Hsup as [Hsup | Hsup]; apply andb_true_iff in Hsup;
      destruct Hsup as [Hnull Hprim]; apply String.eqb_eq in Hnull; subst;
      unfold is_primitive in Hprim.
    + destruct (dict_get y AVRO_PRIMITIVES_TO_BEAM_PRIMITIVES) as [a |] eqn:E;
        [| discriminate].
      destruct (nullable_primitive_union y a E) as [Hu _].
      destruct (primitive_names_invert y a E) as [Hinv _].
      exists (FieldType_atomic true a). split; [exact Hu |].
      cbn [beam_type_to_avro_type]. rewrite Hinv. reflexivity.
    + destruct (dict_get x AVRO_PRIMITIVES_TO_BEAM_PRIMITIVES) as [a |] eqn:E;
        [| discriminate].
      destruct (nullable_primitive_union x a E) as [_ Hu].
      destruct (primitive_names_invert x a E) as [Hinv Hne].
      exists (FieldType_atomic true a). split; [exact Hu |].
      cbn [beam_type_to_avro_type]. rewrite Hinv.
      apply String.eqb_neq in Hne. rewrite Hne. reflexivity.
  - destruct (primitive_round_trip s Hsup) as (a & H1 & H2).
    exists (FieldType_atomic false a). split; assumption.
  - cbn [supported] in Hsup. destruct (IH Hsup) as (t & H1 & H2).
    exists (FieldType_array false t). cbn [avro_type_to_beam_type beam_type_to_avro_type canonical].
    rewrite H1. cbn [bind]. rewrite H2. split; reflexivity.
  - discriminate.
  - cbn [supported] in Hsup.
    assert (Hfs : exists fs',
               mapM_fields avro_type_to_beam_type fs = Ok fs' /\
               mapM_fields beam_type_to_avro_type fs'
               = Ok (map (fun f => (fst f, canonical (snd f))) fs)).
    { induction fs as [| [name t] fs IHfs].
      - exists []. split; reflexivity.
      - cbn [forallb snd] in Hsup. apply andb_true_iff in Hsup.
        destruct Hsup as [Ht Hrest].
        pose proof (Forall_inv IH) as IHt. cbn [snd] in IHt.
        destruct (IHt Ht) as (t' & H1 & H2).
        destruct (IHfs (Forall_inv_tail IH) Hrest) as (fs' & H3 & H4).
        exists ((name, t') :: fs'). cbn [mapM_fields map fst snd].
        fold (mapM_fields avro_type_to_beam_type).
        fold (mapM_fields beam_type_to_avro_type).
        rewrite H1. cbn [bind]. rewrite H3. cbn [bind].
        rewrite H2. cbn [bind]. rewrite H4. split; reflexivity. }
    destruct Hfs as (fs' & H1 & H2).
    exists (FieldType_row false "" fs').
    cbn [avro_type_to_beam_type beam_type_to_avro_type canonical].
    rewrite H1. cbn [bind]. rewrite H2. split; reflexivity.
Qed.

(** For a record schema of supported shapes with no map in it, the round
    trip through the beam schema gives the schema back. *)
Lemma record_schema_round_trip_without_maps
  (name : string) (fs : list (string * avro_schema)) :
  supported (AvroRecord name fs) = true ->
  exists s,
    avro_schema_to_beam_schema (AvroRecord name fs) = Ok s /\
    beam_schema_to_avro_schema s = Ok (canonical (AvroRecord name fs)).
Proof.
  intros Hsup. destruct (supported_type_round_trip _ Hsup) as (t & H1 & H2).
  unfold avro_schema_to_beam_schema, beam_schema_to_avro_schema.
  rewrite H1. cbn [bind is_record_dict].
  cbn [avro_type_to_beam_type] in H1.
  destruct (mapM_fields avro_type_to_beam_type fs) as [fs' | e |]; cbn [bind] in H1;
    try discriminate.
  injection H1 as <-. eexists. split; [reflexivity |]. exact H2.
Qed.

(* ================================================================== *)
(** * Runs on the worked inputs                                        *)
(* ================================================================== *)

(** The range [[57, 78)] of the two-block file: the scan starts 16 bytes
    early, at the header's marker, and lands on the first block; the
    claim of the second block, at the stop position, is rejected. *)
Example read_range_of_first_block :
  read_range decode_long_records 20 two_block_file (57, 78)
  = ([ TryClaim 57 true;
       NextBlock (mkBlock 57 21 3 [x14; x28; x3c]%byte);
       Yield (mkBlock 57 21 3 [x14; x28; x3c]%byte) (VInt 10);
       Yield (mkBlock 57 21 3 [x14; x28; x3c]%byte) (VInt 20);
       Yield (mkBlock 57 21 3 [x14; x28; x3c]%byte) (VInt 30);
       TryClaim 78 false ],
     Ok tt).
Proof. vm_compute. reflexivity. Qed.

(** The marker at bytes 9990 to 10005 is not inside the first read of
    10000 bytes; the second read, begun 15 bytes back, finds it. *)
Example advance_over_read_boundary :
  advance_file_past_next_sync_marker 1 (mkfile straddling_stream 0) sample_sync
  = OutOfFuel /\
  advance_file_past_next_sync_marker 2 (mkfile straddling_stream 0) sample_sync
  = Ok (VBool true, mkfile straddling_stream 10006).
Proof. split; vm_compute; reflexivity. Qed.

(** The second range of the file with the stray marker lands at byte 75,
    inside the first block, and the reader fails there. *)
Example read_range_behind_stray_marker :
  read_range decode_long_records 20 stray_marker_file (58, 110)
  = ([ TryClaim 75 true ], Raise ValueError).
Proof. vm_compute. reflexivity. Qed.

(** Scenario A of the schema: a user record with two nullable fields. *)
Example user_schema_to_beam :
  avro_schema_to_beam_schema
    (AvroRecord "User"
       [ ("name", AvroStr "string");
         ("favorite_number", AvroUnion [AvroStr "int"; AvroStr "null"]);
         ("favorite_color", AvroUnion [AvroStr "string"; AvroStr "null"]) ])
  = Ok (mkSchema ""
          [ ("name", FieldType_atomic false STRING);
            ("favorite_number", FieldType_atomic true INT32);
            ("favorite_color", FieldType_atomic true STRING) ]).
Proof. reflexivity. Qed.

(* ================================================================== *)
(** * More on the scanner                                              *)
(* ================================================================== *)

(** The scanner behind the first marker ahead, for every budget that
    covers the bytes up to it. *)
Lemma advance_finds_first (c m : list byte) (p q0 : Z) :
  0 < len m <= buf_size -> 0 <= p <= q0 -> occurs_at c m q0 ->
  exists q,
    p <= q <= q0 /\ occurs_at c m q /\
    (forall q', p <= q' < q -> ~ occurs_at c m q') /\
    forall fuel, (Z.to_nat (q - p) < fuel)%nat ->
      advance_file_past_next_sync_marker fuel (mkfile c p) m
      = Ok (VBool true, mkfile c (q + len m)).
Proof.
  intros Hm Hp Hocc.
  destruct (first_occurrence c m q0 Hocc (Z.to_nat (q0 - p)) p Hp (Nat.le_refl _))
    as (q & Hq & Hoq & Hmin).
  exists q. split; [lia |]. split; [exact Hoq |]. split; [exact Hmin |].
  intros fuel Hfuel. unfold advance_file_past_next_sync_marker.
  rewrite f_read_buf. apply advance_loop_finds; auto; lia.
Qed.

(** With no marker ahead the loop cannot answer [True]: a chunk it reads
    starts at or after the starting position, or is the last
    [len(sync_marker) - 1] bytes of the file. *)
Lemma advance_loop_none_without_marker (c m : list byte) (p0 : Z) :
  0 < len m <= buf_size ->
  (forall q, p0 <= q -> ~ occurs_at c m q) ->
  forall (fuel : nat) (p : Z) (v : value) (f' : file),
    0 <= p ->
    p0 <= p \/ (p = len c - len m + 1 /\ len m <= len c) ->
    advance_loop fuel
      (mkfile c (p + len (firstn (Z.to_nat buf_size) (skipn (Z.to_nat p) c))))
      m (firstn (Z.to_nat buf_size) (skipn (Z.to_nat p) c))
    = Ok (v, f') ->
    v = VNone.
Proof.
  intros Hm Hno fuel.
  induction fuel as [| fuel IH]; intros p v f' Hp Hinv; [discriminate |].
  rewrite advance_loop_step.
  pose proof buf_size_pos as Hbuf.
  assert (Hlen : len (firstn (Z.to_nat buf_size) (skipn (Z.to_nat p) c))
                 = Z.max 0 (Z.min buf_size (len c - p))).
  { unfold len. rewrite length_firstn, length_skipn. lia. }
  set (data := firstn (Z.to_nat buf_size) (skipn (Z.to_nat p) c)) in *.
  destruct data as [| d0 data'] eqn:Edata; [intros [= <- _]; reflexivity |].
  rewrite <- Edata in *. cbv zeta.
  assert (Hnone : bytes_find data m = -1).
  { destruct (Z.eq_dec (bytes_find data m) (-1)) as [E | Hsome]; [exact E |].
    exfalso.
    destruct (find_from_found data m 0 _ ltac:(lia) eq_refl Hsome)
      as (k & _ & _ & Hs & _).
    subst data.
    destruct (chunk_occurs c m p k Hp ltac:(lia) Hs) as [Hock Hin].
    destruct Hinv as [Hge | [Htail Hfit]].
    - apply (Hno (p + Z.of_nat k)); [lia | exact Hock].
    - lia. }
  rewrite Hnone. cbn [Z.leb Z.compare].
  unfold f_tell, f_seek_cur, f_seek. cbn [position content].
  assert (Hpos : 0 < len data) by (rewrite Edata; unfold len; simpl; lia).
  destruct (Z.leb_spec (len m) (p + len data)) as [Hback | Hstay].
  - destruct (Z.ltb_spec (p + len data + -1 * (len m - 1)) 0) as [Hbad | _]; [lia |].
    cbn [bind]. rewrite f_read_buf. apply IH; [lia |].
    destruct (Z_le_dec (len c - p) buf_size) as [Hshort | Hlong].
    + right. lia.
    + destruct Hinv as [Hge | [Htail Hfit]]; [left; lia | lia].
  - cbn [bind]. rewrite f_read_buf. apply IH; [lia |].
    destruct Hinv as [Hge | [Htail Hfit]]; [left; lia | lia].
Qed.

Lemma marker_ahead_or_not (c m : list byte) (p : Z) :
  0 < len m ->
  (exists q0, p <= q0 /\ occurs_at c m q0) \/
  (forall q, p <= q -> ~ occurs_at c m q).
Proof.
  intros Hm.
  destruct (Exists_dec (fun e => p + len m <= e) (marker_ends c m)
              (fun e => Z_le_dec (p + len m) e)) as [Hex | Hnone].
  - left. apply Exists_exists in Hex. destruct Hex as (e & Hin & Hle).
    exists (e - len m). split; [lia |]. apply marker_end_occurs; assumption.
  - right. intros q Hq Hocc. apply Hnone. apply Exists_exists.
    exists (q + len m). split; [| lia].
    apply (proj1 (marker_ends_spec c m q Hm) Hocc).
Qed.

(** X1.  Whatever the scanner returns is right, for a marker of 1 to
    [buf_size] bytes: when it returns [True] the stream stands at the end
    of the first marker at or after the starting position, and when it
    falls off the loop there is no marker at or after that position. *)
Theorem advance_answer_is_right
  (c sync_marker : list byte) (p : Z) (fuel : nat) (v : value) (f' : file) :
  0 < len sync_marker <= buf_size -> 0 <= p ->
  advance_file_past_next_sync_marker fuel (mkfile c p) sync_marker = Ok (v, f') ->
  (v = VBool true /\
   exists q, p <= q /\ occurs_at c sync_marker q /\
             (forall q', p <= q' < q -> ~ occurs_at c sync_marker q') /\
             f' = mkfile c (q + len sync_marker)) \/
  (v = VNone /\ forall q, p <= q -> ~ occurs_at c sync_marker q).
Proof.
  intros Hm Hp Hrun.
  destruct (marker_ahead_or_not c sync_marker p ltac:(lia)) as [(q0 & Hq0 & Hocc) | Hno].
  - left.
    destruct (advance_finds_first c sync_marker p q0 Hm ltac:(lia) Hocc)
      as (q & Hq & Hoq & Hmin & Hfind).
    specialize (Hfind (Nat.max fuel (S (Z.to_nat (q - p)))) ltac:(lia)).
    unfold advance_file_past_next_sync_marker in *.
    destruct (f_read (mkfile c p) buf_size) as [data f1].
    rewrite (advance_loop_mono fuel _ _ _ _ Hrun ltac:(discriminate)
               (Nat.max fuel (S (Z.to_nat (q - p)))) ltac:(lia)) in Hfind.
    injection Hfind as -> ->. split; [reflexivity |].
    exists q. split; [lia |]. split; [exact Hoq |]. split; [exact Hmin | reflexivity].
  - right. split; [| exact Hno].
    unfold advance_file_past_next_sync_marker in Hrun. rewrite f_read_buf in Hrun.
    apply (advance_loop_none_without_marker c sync_marker p Hm Hno fuel p v f' Hp);
      [left; lia | exact Hrun].
Qed.

Lemma advance_answer_is_right_witness :
  0 < len sample_sync <= buf_size /\ 0 <= 60 /\
  advance_file_past_next_sync_marker 2 (mkfile two_block_file 60) sample_sync
  = Ok (VBool true, mkfile two_block_file 78) /\
  ((VBool true = VBool true /\
    exists q, 60 <= q /\ occurs_at two_block_file sample_sync q /\
              (forall q', 60 <= q' < q -> ~ occurs_at two_block_file sample_sync q') /\
              mkfile two_block_file 78 = mkfile two_block_file (q + len sample_sync)) \/
   (VBool true = VNone /\
    forall q, 60 <= q -> ~ occurs_at two_block_file sample_sync q)).
Proof.
  assert (H1 : 0 < len sample_sync <= buf_size)
    by (vm_compute; split; [reflexivity | discriminate]).
  assert (H2 : 0 <= 60) by lia.
  assert (H3 : advance_file_past_next_sync_marker 2 (mkfile two_block_file 60) sample_sync
               = Ok (VBool true, mkfile two_block_file 78))
    by (vm_compute; reflexivity).
  split; [exact H1 |]. split; [exact H2 |]. split; [exact H3 |].
  exact (advance_answer_is_right two_block_file sample_sync 60 2 (VBool true)
           (mkfile two_block_file 78) H1 H2 H3).
Defined.

(** With a one-byte marker the step back is of zero bytes, so the reads
    move on to the end of the file. *)
Lemma advance_loop_one_byte_marker (c m : list byte) (p0 : Z) :
  len m = 1 -> (forall q, p0 <= q -> ~ occurs_at c m q) ->
  forall (fuel : nat) (p : Z),
    0 <= p -> p0 <= p <= len c -> (Z.to_nat (len c - p) < fuel)%nat ->
    advance_loop fuel
      (mkfile c (p + len (firstn (Z.to_nat buf_size) (skipn (Z.to_nat p) c))))
      m (firstn (Z.to_nat buf_size) (skipn (Z.to_nat p) c))
    = Ok (VNone, mkfile c (len c)).
Proof.
  intros Hm Hno fuel.
  induction fuel as [| fuel IH]; intros p Hp Hrange Hfuel; [lia |].
  rewrite advance_loop_step.
  pose proof buf_size_pos as Hbuf.
  pose proof (chunk_len c p ltac:(lia)) as Hlen.
  set (data := firstn (Z.to_nat buf_size) (skipn (Z.to_nat p) c)) in *.
  destruct data as [| d0 data'] eqn:Edata.
  - change (len (@nil byte)) with 0 in *.
    replace (p + 0) with (len c) by lia. reflexivity.
  - rewrite <- Edata in *. cbv zeta.
    assert (Hpos : 0 < len data) by (rewrite Edata; unfold len; simpl; lia).
    assert (Hnone : bytes_find data m = -1).
    { destruct (Z.eq_dec (bytes_find data m) (-1)) as [E | Hsome]; [exact E |].
      exfalso.
      destruct (find_from_found data m 0 _ ltac:(lia) eq_refl Hsome)
        as (k & _ & _ & Hs & _).
      subst data.
      destruct (chunk_occurs c m p k Hp ltac:(lia) Hs) as [Hock _].
      apply (Hno (p + Z.of_nat k)); [lia | exact Hock]. }
    rewrite Hnone. cbn [Z.leb Z.compare].
    unfold f_tell, f_seek_cur, f_seek. cbn [position content].
    destruct (Z.leb_spec (len m) (p + len data)) as [_ | Hbad]; [| lia].
    destruct (Z.ltb_spec (p + len data + -1 * (len m - 1)) 0) as [Hbad | _]; [lia |].
    cbn [bind]. rewrite f_read_buf.
    replace (p + len data + -1 * (len m - 1)) with (p + len data) by lia.
    apply IH; lia.
Qed.

(** X2.  With no marker ahead, a marker of 2 to [buf_size] bytes, and a
    file at least as long as the marker with bytes left to read, the
    scanner never returns, whatever the step budget. *)
Theorem advance_spins_without_marker (c sync_marker : list byte) (p : Z) :
  2 <= len sync_marker <= buf_size -> len sync_marker <= len c ->
  0 <= p < len c ->
  (forall q, p <= q -> ~ occurs_at c sync_marker q) ->
  forall fuel,
    advance_file_past_next_sync_marker fuel (mkfile c p) sync_marker = OutOfFuel.
Proof. exact (advance_file_past_next_sync_marker_spins c sync_marker p). Qed.

Lemma advance_spins_without_marker_witness :
  2 <= len sample_sync <= buf_size /\ len sample_sync <= len two_block_file /\
  0 <= 90 < len two_block_file /\
  (forall q, 90 <= q -> ~ occurs_at two_block_file sample_sync q) /\
  forall fuel,
    advance_file_past_next_sync_marker fuel (mkfile two_block_file 90) sample_sync
    = OutOfFuel.
Proof.
  assert (H1 : 2 <= len sample_sync <= buf_size) by (vm_compute; split; discriminate).
  assert (H2 : len sample_sync <= len two_block_file) by (vm_compute; discriminate).
  assert (H3 : 0 <= 90 < len two_block_file)
    by (vm_compute; split; [discriminate | reflexivity]).
  assert (H4 : forall q, 90 <= q -> ~ occurs_at two_block_file sample_sync q).
  { intros q Hq Hocc.
    apply (marker_ends_spec two_block_file sample_sync q ltac:(reflexivity)) in Hocc.
    destruct Hocc as [_ Hin].
    assert (E : marker_ends two_block_file sample_sync = [57; 78; 98])
      by (vm_compute; reflexivity).
    rewrite E in Hin. change (len sample_sync) with 16 in Hin.
    destruct Hin as [Hin | [Hin | [Hin | []]]]; lia. }
  repeat (split; [assumption |]).
  exact (advance_spins_without_marker two_block_file sample_sync 90 H1 H2 H3 H4).
Defined.

(** X3.  The scanner does reach the end of the file and return [None]
    there in three cases: the marker is one byte long and not ahead, the
    whole file is shorter than the marker, or the stream already stands
    at the end of the file. *)
Theorem advance_returns_none_at_end (c sync_marker : list byte) (p : Z) :
  0 < len sync_marker <= buf_size -> 0 <= p <= len c ->
  (len sync_marker = 1 /\ forall q, p <= q -> ~ occurs_at c sync_marker q) \/
  len c < len sync_marker \/ p = len c ->
  forall fuel, (Z.to_nat (len c - p) + 2 <= fuel)%nat ->
    advance_file_past_next_sync_marker fuel (mkfile c p) sync_marker
    = Ok (VNone, mkfile c (len c)).
Proof.
  intros Hm Hp Hcase fuel Hfuel.
  destruct Hcase as [[Hone Hno] | [Hshort | Hend]].
  - unfold advance_file_past_next_sync_marker. rewrite f_read_buf.
    apply (advance_loop_one_byte_marker c sync_marker p Hone Hno); lia.
  - apply advance_returns_none_on_short_file; lia.
  - subst p. unfold advance_file_past_next_sync_marker. rewrite f_read_buf.
    rewrite skipn_all2 by (unfold len; lia). rewrite firstn_nil.
    destruct fuel as [| fuel]; [lia |]. rewrite advance_loop_step.
    change (len (@nil byte)) with 0. replace (len c + 0) with (len c) by lia.
    reflexivity.
Qed.

Lemma advance_returns_none_at_end_witness :
  0 < len [x01]%byte <= buf_size /\ 0 <= 3 <= len marker_free_stream /\
  ((len [x01]%byte = 1 /\
    forall q, 3 <= q -> ~ occurs_at marker_free_stream [x01]%byte q) \/
   len marker_free_stream < len [x01]%byte \/ 3 = len marker_free_stream) /\
  (Z.to_nat (len marker_free_stream - 3) + 2 <= 30)%nat /\
  advance_file_past_next_sync_marker 30 (mkfile marker_free_stream 3) [x01]%byte
  = Ok (VNone, mkfile marker_free_stream (len marker_free_stream)).
Proof.
  assert (H1 : 0 < len [x01]%byte <= buf_size)
    by (vm_compute; split; [reflexivity | discriminate]).
  assert (H2 : 0 <= 3 <= len marker_free_stream) by (vm_compute; split; discriminate).
  assert (H3 : (len [x01]%byte = 1 /\
                forall q, 3 <= q -> ~ occurs_at marker_free_stream [x01]%byte q) \/
               len marker_free_stream < len [x01]%byte \/ 3 = len marker_free_stream).
  { left. split; [reflexivity |]. intros q Hq Hocc.
    apply (marker_ends_spec marker_free_stream [x01]%byte q ltac:(reflexivity)) in Hocc.
    destruct Hocc as [_ Hin]. vm_compute in Hin. exact Hin. }
  assert (H4 : (Z.to_nat (len marker_free_stream - 3) + 2 <= 30)%nat)
    by (vm_compute; lia).
  repeat (split; [assumption |]).
  exact (advance_returns_none_at_end marker_free_stream [x01]%byte 3 H1 H2 H3 30 H4).
Defined.

(* ================================================================== *)
(** * More on read_records                                             *)
(* ================================================================== *)

(** X4.  In a container file whose marker bytes occur only where the
    header and the blocks end, a range [[s, e)] inside the file, read on
    its own, ends normally and yields exactly the records of the blocks
    that start at an offset in [[s, e)], in file order. *)
Theorem range_reads_the_blocks_that_start_in_it
  (data : list byte) (decode_records : Block -> list value * option exn)
  (header : Header) (fh : file) (bs : list Block) (fuel_h fuel_b : nat)
  (s e : Z) (fuel : nat) :
  block_reader fuel_h (mkfile data 0) = Ok (header, fh) ->
  len (sync header) = SYNC_SIZE ->
  read_all_blocks fuel_b (sync header) fh = Ok bs ->
  (forall b, In b bs -> snd (decode_records b) = None) ->
  marker_ends data (sync header) = position fh :: map block_end bs ->
  0 <= s <= len data -> e <= len data ->
  (fuel_h + List.length data + List.length bs + 1 <= fuel)%nat ->
  exists trace,
    read_range decode_records fuel data (s, e) = (trace, Ok tt) /\
    records_of trace
    = flat_map (fun b => fst (decode_records b)) (filter (starts_in s e) bs).
Proof.
  intros Hheader Hsync Hblocks Hdecode Hmarks Hs He Hfuel.
  exact (read_range_records data decode_records header fh bs fuel_h fuel_b
           Hheader Hsync Hblocks Hdecode Hmarks s e fuel Hs He Hfuel).
Qed.

Lemma range_reads_the_blocks_that_start_in_it_witness :
  block_reader 10 (mkfile two_block_file 0)
  = Ok (two_block_header, mkfile two_block_file 57) /\
  len (sync two_block_header) = SYNC_SIZE /\
  read_all_blocks 10 (sync two_block_header) (mkfile two_block_file 57)
  = Ok two_block_blocks /\
  (forall b, In b two_block_blocks -> snd (decode_long_records b) = None) /\
  marker_ends two_block_file (sync two_block_header)
  = position (mkfile two_block_file 57) :: map block_end two_block_blocks /\
  0 <= 60 <= len two_block_file /\ 98 <= len two_block_file /\
  (10 + List.length two_block_file + List.length two_block_blocks + 1 <= 200)%nat /\
  exists trace,
    read_range decode_long_records 200 two_block_file (60, 98) = (trace, Ok tt) /\
    records_of trace
    = flat_map (fun b => fst (decode_long_records b))
               (filter (starts_in 60 98) two_block_blocks).
Proof.
  assert (H1 : block_reader 10 (mkfile two_block_file 0)
               = Ok (two_block_header, mkfile two_block_file 57))
    by (vm_compute; reflexivity).
  assert (H2 : len (sync two_block_header) = SYNC_SIZE) by reflexivity.
  assert (H3 : read_all_blocks 10 (sync two_block_header) (mkfile two_block_file 57)
               = Ok two_block_blocks) by (vm_compute; reflexivity).
  assert (H4 : forall b, In b two_block_blocks -> snd (decode_long_records b) = None)
    by (intros b [<- | [<- | []]]; reflexivity).
  assert (H5 : marker_ends two_block_file (sync two_block_header)
               = position (mkfile two_block_file 57) :: map block_end two_block_blocks)
    by (vm_compute; reflexivity).
  assert (H6 : 0 <= 60 <= len two_block_file) by (vm_compute; split; discriminate).
  assert (H7 : 98 <= len two_block_file) by (vm_compute; discriminate).
  assert (H8 : (10 + List.length two_block_file + List.length two_block_blocks + 1
                <= 200)%nat) by (vm_compute; lia).
  repeat (split; [assumption |]).
  exact (range_reads_the_blocks_that_start_in_it
           two_block_file decode_long_records two_block_header
           (mkfile two_block_file 57) two_block_blocks 10 10 60 98 200
           H1 H2 H3 H4 H5 H6 H7 H8).
Defined.

Lemma next_block_size_positive (sync_marker : list byte) (f f' : file) (b : Block) :
  next_block sync_marker f = Ok (Some b, f') -> 0 < size b.
Proof.
  unfold next_block, f_tell.
  destruct (read_long f) as [[num f1] | e |] eqn:E1; try discriminate.
  2: { destruct e; discriminate. }
  apply read_long_advances in E1. destruct E1 as [Hc1 Hp1].
  destruct (read_bytes f1) as [[payload f2] | e |] eqn:E2; cbn [bind]; try discriminate.
  apply read_bytes_advances in E2. destruct E2 as [Hc2 Hp2].
  pose proof (f_read_advances f2 SYNC_SIZE) as [Hc3 Hp3].
  destruct (f_read f2 SYNC_SIZE) as [mark f3]. cbn [fst snd] in *.
  destruct (bytes_eqb mark sync_marker); [| discriminate].
  intros [= <- _]. cbn [size]. unfold len in Hp3. lia.
Qed.

Lemma claims_of_app (t1 t2 : list event) :
  claims_of (t1 ++ t2) = claims_of t1 ++ claims_of t2.
Proof. unfold claims_of. apply flat_map_app. Qed.

Lemma claims_of_yields (b : Block) (records : list value) :
  claims_of (map (Yield b) records) = [].
Proof.
  unfold claims_of. induction records as [| r records IH]; [reflexivity | exact IH].
Qed.

Lemma read_loop_claims_increase
  (T : Type) (tracker : RangeTracker T)
  (decode_records : Block -> list value * option exn) (fuel : nat) :
  forall (f : file) (sync_marker : list byte) (rt : T),
    StronglySorted Z.lt
      (claims_of (fst (read_loop decode_records fuel f sync_marker rt (position f)))) /\
    Forall (fun p => position f <= p)
      (claims_of (fst (read_loop decode_records fuel f sync_marker rt (position f)))).
Proof.
  induction fuel as [| fuel IH]; intros f sync_marker rt; simpl.
  - split; constructor.
  - destruct (try_claim rt (position f)) as [[[] rt'] | e |]; cbn [fst].
    + destruct (next_block sync_marker f) as [[[b |] f'] | e |] eqn:En; cbn [fst].
      * pose proof (next_block_size_positive _ _ _ _ En) as Hsz.
        apply next_block_position in En. destruct En as (Ho & Hp & _).
        destruct (decode_records b) as [records [e |]]; cbn [fst].
        -- change (TryClaim (position f) true :: NextBlock b :: map (Yield b) records)
             with ([TryClaim (position f) true; NextBlock b] ++ map (Yield b) records).
           rewrite claims_of_app, claims_of_yields. cbn.
           split; repeat constructor. lia.
        -- destruct (IH f' sync_marker rt') as [IHs IHf]. rewrite Hp in IHs, IHf.
           destruct (read_loop decode_records fuel f' sync_marker rt'
                               (offset b + size b)) as [rest r].
           cbn [fst] in *.
           change (TryClaim (position f) true :: NextBlock b
                   :: map (Yield b) records ++ rest)
             with ([TryClaim (position f) true; NextBlock b]
                   ++ (map (Yield b) records ++ rest)).
           rewrite !claims_of_app, claims_of_yields. cbn [claims_of flat_map claimed app].
           split.
           ++ constructor; [exact IHs |].
              eapply Forall_impl; [| exact IHf]. intros p Hle. cbn beta in Hle. lia.
           ++ constructor; [lia |].
              eapply Forall_impl; [| exact IHf]. intros p Hle. cbn beta in Hle. lia.
      * cbn. split; repeat constructor. lia.
      * cbn. split; repeat constructor. lia.
      * cbn. split; repeat constructor. lia.
    + cbn. split; repeat constructor. lia.
    + split; constructor.
    + split; constructor.
Qed.

(** X5.  Against any range tracker and on any file, the positions a run
    of [read_records] offers to [try_claim] are strictly increasing: no
    position is claimed twice, none after a larger one. *)
Theorem read_records_claims_increase
  (T : Type) (tracker : RangeTracker T)
  (decode_records : Block -> list value * option exn)
  (fuel : nat) (data : list byte) (range_tracker : T) :
  StronglySorted Z.lt
    (claims_of (fst (read_records decode_records fuel data range_tracker))).
Proof.
  unfold read_records.
  destruct (block_reader fuel (mkfile data 0)) as [[h f] | e |]; try constructor.
  destruct (f_seek f _) as [f1 | e |]; try constructor.
  destruct (advance_file_past_next_sync_marker fuel f1 (sync h)) as [[v f2] | e |];
    try constructor.
  unfold f_tell. apply read_loop_claims_increase.
Qed.

(** With a stop position beyond the end of the file every claim is
    accepted, the one at the end of the file too; the reader has no block
    there, and its end of iteration, raised inside the generator, comes
    out as [RuntimeError]. *)
Lemma read_loop_chain_open
  (data sync_marker : list byte)
  (decode_records : Block -> list value * option exn)
  (start stop : Z) (bs : list Block) :
  len sync_marker = SYNC_SIZE -> len data < stop ->
  (forall b, In b bs -> snd (decode_records b) = None) ->
  forall (p last : Z) (fuel : nat),
    0 <= p <= len data -> last < p -> chain data sync_marker p bs ->
    (List.length bs < fuel)%nat ->
    exists trace,
      read_loop decode_records fuel (mkfile data p) sync_marker
                (mkTracker start stop last) p = (trace, Raise RuntimeError) /\
      records_of trace = flat_map (fun b => fst (decode_records b)) bs.
Proof.
  intros Hlen Hstop. induction bs as [| b bs IH]; intros Hdec p last fuel Hp Hlast Hc Hfuel.
  - destruct fuel as [| fuel]; [simpl in Hfuel; lia |].
    simpl in Hc. simpl. unfold offset_try_claim. cbn [last_record_start stop_offset].
    destruct (Z.ltb_spec p last); [lia |].
    destruct (Z.eqb_spec p last); [lia |].
    rewrite andb_false_r. cbn [orb].
    destruct (Z.leb_spec stop p); [lia |].
    rewrite Hc. exists [TryClaim p true]. split; reflexivity.
  - destruct fuel as [| fuel]; [simpl in Hfuel; lia |].
    destruct (chain_head data sync_marker Hlen _ _ _ (proj1 Hp) Hc)
      as (Ho & Hsz & (_ & Hocc & _) & Hc').
    pose proof Hc as [Hn _].
    simpl read_loop. unfold offset_try_claim.
    cbn [last_record_start stop_offset start_offset].
    destruct (Z.ltb_spec p last); [lia |].
    destruct (Z.eqb_spec p last); [lia |].
    rewrite andb_false_r. cbn [orb].
    destruct (Z.leb_spec stop p); [lia |].
    rewrite Hn.
    pose proof (Hdec b (or_introl eq_refl)) as Hok.
    destruct (decode_records b) as [records failure] eqn:Ed. cbn [snd] in Hok. subst failure.
    destruct (IH (fun b' Hb' => Hdec b' (or_intror Hb')) (block_end b) p fuel)
      as (rest & Hrest & Hrecs);
      [ unfold block_end, SYNC_SIZE in *; lia | unfold block_end, SYNC_SIZE in *; lia
      | exact Hc' | simpl in Hfuel; lia |].
    fold (block_end b). rewrite Hrest.
    eexists. split; [reflexivity |].
    cbn [flat_map]. rewrite Ed. cbn [fst].
    change (TryClaim p true :: NextBlock b :: map (Yield b) records ++ rest)
      with ([TryClaim p true; NextBlock b] ++ (map (Yield b) records ++ rest)).
    rewrite !records_of_app, records_of_yields, Hrecs. reflexivity.
Qed.

(** Where a range starts reading: at the first block boundary at or
    after its start, with the blocks before its start behind it. *)
Lemma read_range_lands
  (data : list byte) (decode_records : Block -> list value * option exn)
  (header : Header) (fh : file) (bs : list Block) (fuel_h fuel_b : nat)
  (s : Z) (fuel : nat) :
  block_reader fuel_h (mkfile data 0) = Ok (header, fh) ->
  len (sync header) = SYNC_SIZE ->
  read_all_blocks fuel_b (sync header) fh = Ok bs ->
  marker_ends data (sync header) = position fh :: map block_end bs ->
  0 <= s <= len data ->
  (fuel_h + List.length data + List.length bs + 1 <= fuel)%nat ->
  exists P pre suf,
    bs = pre ++ suf /\ chain data (sync header) P suf /\ 0 <= P <= len data /\
    (forall b, In b pre -> offset b < s) /\
    (forall b, In b suf -> s <= offset b) /\
    forall e, read_range decode_records fuel data (s, e)
              = read_loop decode_records fuel (mkfile data P) (sync header)
                          (mkTracker s e (-1)) P.
Proof.
  intros Hheader Hsync Hblocks Hmarks Hs Hfuel.
  destruct (container_chain data header fh bs fuel_h fuel_b Hheader Hsync Hblocks)
    as (Hfh & Hge & Hchain).
  assert (Hm : 0 < len (sync header)) by (unfold SYNC_SIZE in Hsync; lia).
  assert (Hmb : 0 < len (sync header) <= buf_size)
    by (unfold SYNC_SIZE in Hsync; unfold buf_size; lia).
  assert (Hp0 : 0 <= position fh) by (unfold SYNC_SIZE in Hge; lia).
  destruct (chain_reaches_end data (sync header) Hsync bs _ Hp0 Hchain) as (B & HB & HBend).
  rewrite <- Hmarks in HB.
  pose proof (marker_end_occurs _ _ _ Hm HB) as Hq0.
  set (start := Z.max 0 (s - len (sync header))).
  assert (Hstart : 0 <= start <= B - len (sync header)).
  { destruct Hq0 as (Hq0 & _). subst start. lia. }
  destruct (first_occurrence _ _ _ Hq0 (Z.to_nat (B - len (sync header) - start))
              start Hstart (Nat.le_refl _)) as (q & Hq & Hoq & Hmin).
  pose proof Hoq as (Hq1 & Hq2 & _).
  assert (HP : In (q + len (sync header)) (position fh :: map block_end bs)).
  { rewrite <- Hmarks. apply (proj1 (marker_ends_spec _ _ _ Hm) Hoq). }
  destruct (chain_suffix data (sync header) Hsync bs _ Hp0 Hchain _ HP)
    as (pre & suf & Hbs & Hcs & Hpre & Hsuf).
  exists (q + len (sync header)), pre, suf.
  split; [exact Hbs |]. split; [exact Hcs |]. split; [lia |].
  split; [| split].
  - intros b Hb. specialize (Hpre b Hb).
    destruct (Z_lt_dec (offset b) s) as [Hlt | Hge']; [exact Hlt |]. exfalso.
    assert (Hbb : In b bs) by (rewrite Hbs; apply in_or_app; left; exact Hb).
    destruct (chain_blocks data (sync header) Hsync bs _ Hp0 Hchain b Hbb)
      as (_ & _ & _ & Hbound).
    rewrite <- Hmarks in Hbound.
    pose proof (marker_end_occurs _ _ _ Hm Hbound) as Hocc.
    apply (Hmin (offset b - len (sync header))); [| exact Hocc].
    destruct Hocc as (Hocc0 & _). subst start. lia.
  - intros b Hb. specialize (Hsuf b Hb). subst start. lia.
  - intros e. unfold read_range, read_records.
    cbn [fst snd start_position OffsetRangeTracker_tracker
         offset_range_tracker start_offset].
    rewrite (block_reader_mono fuel_h fuel _ _ _ Hheader ltac:(lia)).
    fold start. rewrite Hfh. unfold f_seek. cbn [content position].
    destruct (Z.ltb_spec start 0); [lia |].
    unfold advance_file_past_next_sync_marker. rewrite f_read_buf.
    rewrite (advance_loop_finds data (sync header) q Hmb Hoq fuel start
               ltac:(lia) ltac:(unfold len in *; lia) Hmin).
    unfold f_tell. cbn [position]. reflexivity.
Qed.

(** X6.  A range whose stop position lies beyond the end of the file
    (an unbounded range) does not end normally on a container file: it
    yields the records of every block that starts at or after its start,
    then has the claim at the end of the file accepted, asks the reader
    for a block that is not there, and ends in [RuntimeError]. *)
Theorem range_past_the_end_raises
  (data : list byte) (decode_records : Block -> list value * option exn)
  (header : Header) (fh : file) (bs : list Block) (fuel_h fuel_b : nat)
  (s e : Z) (fuel : nat) :
  block_reader fuel_h (mkfile data 0) = Ok (header, fh) ->
  len (sync header) = SYNC_SIZE ->
  read_all_blocks fuel_b (sync header) fh = Ok bs ->
  (forall b, In b bs -> snd (decode_records b) = None) ->
  marker_ends data (sync header) = position fh :: map block_end bs ->
  0 <= s <= len data -> len data < e ->
  (fuel_h + List.length data + List.length bs + 1 <= fuel)%nat ->
  exists trace,
    read_range decode_records fuel data (s, e) = (trace, Raise RuntimeError) /\
    records_of trace
    = flat_map (fun b => fst (decode_records b))
               (filter (fun b => s <=? offset b) bs).
Proof.
  intros Hheader Hsync Hblocks Hdecode Hmarks Hs He Hfuel.
  destruct (read_range_lands data decode_records header fh bs fuel_h fuel_b s fuel
              Hheader Hsync Hblocks Hmarks Hs Hfuel)
    as (P & pre & suf & Hbs & Hcs & HP & Hpre & Hsuf & Hrun).
  destruct (read_loop_chain_open data (sync header) decode_records s e suf Hsync He
              (fun b Hb => Hdecode b ltac:(rewrite Hbs; apply in_or_app; right; exact Hb))
              P (-1) fuel HP ltac:(lia) Hcs)
    as (trace & Hloop & Hrecs).
  { rewrite Hbs, length_app in Hfuel. lia. }
  exists trace. split; [rewrite Hrun; exact Hloop |].
  rewrite Hrecs, Hbs, filter_app.
  rewrite (filter_none (fun b => s <=? offset b) pre).
  - rewrite filter_all; [reflexivity |].
    intros b Hb. apply Z.leb_le. exact (Hsuf b Hb).
  - intros b Hb. apply Z.leb_gt. exact (Hpre b Hb).
Qed.

Lemma range_past_the_end_raises_witness :
  block_reader 10 (mkfile two_block_file 0)
  = Ok (two_block_header, mkfile two_block_file 57) /\
  len (sync two_block_header) = SYNC_SIZE /\
  read_all_blocks 10 (sync two_block_header) (mkfile two_block_file 57)
  = Ok two_block_blocks /\
  (forall b, In b two_block_blocks -> snd (decode_long_records b) = None) /\
  marker_ends two_block_file (sync two_block_header)
  = position (mkfile two_block_file 57) :: map block_end two_block_blocks /\
  0 <= 0 <= len two_block_file /\ len two_block_file < 1000 /\
  (10 + List.length two_block_file + List.length two_block_blocks + 1 <= 200)%nat /\
  exists trace,
    read_range decode_long_records 200 two_block_file (0, 1000)
    = (trace, Raise RuntimeError) /\
    records_of trace
    = flat_map (fun b => fst (decode_long_records b))
               (filter (fun b => 0 <=? offset b) two_block_blocks).
Proof.
  assert (H1 : block_reader 10 (mkfile two_block_file 0)
               = Ok (two_block_header, mkfile two_block_file 57))
    by (vm_compute; reflexivity).
  assert (H2 : len (sync two_block_header) = SYNC_SIZE) by reflexivity.
  assert (H3 : read_all_blocks 10 (sync two_block_header) (mkfile two_block_file 57)
               = Ok two_block_blocks) by (vm_compute; reflexivity).
  assert (H4 : forall b, In b two_block_blocks -> snd (decode_long_records b) = None)
    by (intros b [<- | [<- | []]]; reflexivity).
  assert (H5 : marker_ends two_block_file (sync two_block_header)
               = position (mkfile two_block_file 57) :: map block_end two_block_blocks)
    by (vm_compute; reflexivity).
  assert (H6 : 0 <= 0 <= len two_block_file) by (vm_compute; split; discriminate).
  assert (H7 : len two_block_file < 1000) by (vm_compute; reflexivity).
  assert (H8 : (10 + List.length two_block_file + List.length two_block_blocks + 1
                <= 200)%nat) by (vm_compute; lia).
  repeat (split; [assumption |]).
  exact (range_past_the_end_raises
           two_block_file decode_long_records two_block_header
           (mkfile two_block_file 57) two_block_blocks 10 10 0 1000 200
           H1 H2 H3 H4 H5 H6 H7 H8).
Defined.

(* ================================================================== *)
(** * More on the schema converters                                    *)
(* ================================================================== *)

(** X7.  A record schema built from the seven primitives (as names or as
    dicts), two-member unions of ["null"] and a primitive name, arrays
    and nested records -- no maps -- converts to a beam schema and back
    to the same schema in canonical spelling: same field names, order,
    nesting and nullability; only the record names are lost. *)
Theorem supported_record_schema_round_trips
  (name : string) (fs : list (string * avro_schema)) :
  supported (AvroRecord name fs) = true ->
  exists s,
    avro_schema_to_beam_schema (AvroRecord name fs) = Ok s /\
    beam_schema_to_avro_schema s = Ok (canonical (AvroRecord name fs)).
Proof. exact (record_schema_round_trip_without_maps name fs). Qed.

Lemma supported_record_schema_round_trips_witness :
  supported user_schema = true /\
  exists s,
    avro_schema_to_beam_schema user_schema = Ok s /\
    beam_schema_to_avro_schema s = Ok (canonical user_schema).
Proof.
  assert (H1 : supported user_schema = true) by reflexivity.
  split; [exact H1 |].
  exact (supported_record_schema_round_trips "User" _ H1).
Defined.

Lemma union_members_scan_names (names : list string) :
  union_members_scan (map AvroStr names)
  = Ok (match first_primitive names with
        | Some a => FieldType_atomic true a
        | None => typing_to_runner_api_Any
        end).
Proof.
  induction names as [| n names IH]; [reflexivity |].
  cbn [map union_members_scan first_primitive].
  destruct (dict_get n AVRO_PRIMITIVES_TO_BEAM_PRIMITIVES); [reflexivity | exact IH].
Qed.

(** X8.  On a union whose members are all type names
    [avro_union_type_to_beam_type] never raises: it returns the nullable
    atomic type of the first primitive name when the union has exactly
    two members, ["null"] among them, and a primitive name among them,
    and the Any type for every other shape. *)
Theorem union_of_names_to_beam_type (names : list string) :
  avro_union_type_to_beam_type (map AvroStr names)
  = Ok (if (List.length names =? 2)%nat && existsb (String.eqb "null") names
        then match first_primitive names with
             | Some a => FieldType_atomic true a
             | None => typing_to_runner_api_Any
             end
        else typing_to_runner_api_Any).
Proof.
  unfold avro_union_type_to_beam_type.
  assert (Hlen : (len (map AvroStr names) =? 2) = (List.length names =? 2)%nat).
  { unfold len. rewrite length_map.
    destruct (Nat.eqb_spec (List.length names) 2) as [-> | Hne]; [reflexivity |].
    apply Z.eqb_neq. lia. }
  assert (Hnull : existsb (is_name "null") (map AvroStr names)
                  = existsb (String.eqb "null") names).
  { clear Hlen. induction names as [| n names IH]; [reflexivity |].
    cbn [map existsb is_name]. rewrite IH. reflexivity. }
  rewrite Hlen, Hnull.
  destruct ((List.length names =? 2)%nat && existsb (String.eqb "null") names);
    [apply union_members_scan_names | reflexivity].
Qed.

Lemma FieldType_nested_ind (P : FieldType -> Prop) :
  (forall n, P (FieldType_unset n)) ->
  (forall n a, P (FieldType_atomic n a)) ->
  (forall n e, P e -> P (FieldType_array n e)) ->
  (forall n e, P e -> P (FieldType_iterable n e)) ->
  (forall n k v, P k -> P v -> P (FieldType_map n k v)) ->
  (forall n i fs, Forall (fun f => P (snd f)) fs -> P (FieldType_row n i fs)) ->
  (forall n u, P (FieldType_logical n u)) ->
  forall t, P t.
Proof.
  intros Hu Ha Har Hi Hm Hr Hl. fix IH 1. intros [n | n a | n e | n e | n k v | n i fs | n u].
  - apply Hu.
  - apply Ha.
  - apply Har, IH.
  - apply Hi, IH.
  - apply Hm; apply IH.
  - apply Hr. induction fs as [| [name t] fs IHfs]; constructor; [apply IH | exact IHfs].
  - apply Hl.
Qed.

Lemma avro_names_invert (a : AtomicType) (p : string) :
  atomic_get a BEAM_PRIMITIVES_TO_AVRO_PRIMITIVES = Some p ->
  dict_get p AVRO_PRIMITIVES_TO_BEAM_PRIMITIVES = Some a /\ p <> "null".
Proof.
  destruct a; cbn; intros [= <-]; split; (reflexivity || discriminate).
Qed.

(** X9.  Every beam type that can be written converts to an Avro schema
    that converts back to the same type, up to what Avro cannot say: an
    iterable comes back as an array, arrays and rows come back not
    nullable, and rows without their identifier.  Atomic kinds and their
    nullability, field names and field order come back as they were. *)
Theorem writable_type_round_trips (t : FieldType) :
  writable t = true ->
  exists a, beam_type_to_avro_type t = Ok a /\
            avro_type_to_beam_type a = Ok (read_back t).
Proof.
  induction t as [n | n a | n e IH | n e IH | n k v _ _ | n i fs IH | n u]
    using FieldType_nested_ind; intros Hw; try discriminate.
  - cbn [writable] in Hw. cbn [beam_type_to_avro_type read_back].
    destruct (atomic_get a BEAM_PRIMITIVES_TO_AVRO_PRIMITIVES) as [p |] eqn:E;
      [| discriminate].
    destruct (avro_names_invert a p E) as [Hinv Hne].
    destruct n.
    + eexists. split; [reflexivity |].
      destruct (nullable_primitive_union p a Hinv) as [Hu _]. exact Hu.
    + eexists. split; [reflexivity |].
      cbn [avro_type_to_beam_type]. unfold bare_type_to_beam_type.
      rewrite Hinv. reflexivity.
  - destruct (IH Hw) as (a & H1 & H2). exists (AvroArray a).
    cbn [beam_type_to_avro_type avro_type_to_beam_type read_back].
    rewrite H1. cbn [bind]. rewrite H2. split; reflexivity.
  - destruct (IH Hw) as (a & H1 & H2). exists (AvroArray a).
    cbn [beam_type_to_avro_type avro_type_to_beam_type read_back].
    rewrite H1. cbn [bind]. rewrite H2. split; reflexivity.
  - cbn [writable] in Hw.
    assert (Hfs : exists fs',
               mapM_fields beam_type_to_avro_type fs = Ok fs' /\
               mapM_fields avro_type_to_beam_type fs'
               = Ok (map (fun f => (fst f, read_back (snd f))) fs)).
    { induction fs as [| [name t] fs IHfs].
      - exists []. split; reflexivity.
      - cbn [forallb snd] in Hw. apply andb_true_iff in Hw.
        destruct Hw as [Ht Hrest].
        pose proof (Forall_inv IH) as IHt. cbn [snd] in IHt.
        destruct (IHt Ht) as (t' & H1 & H2).
        destruct (IHfs (Forall_inv_tail IH) Hrest) as (fs' & H3 & H4).
        exists ((name, t') :: fs'). cbn [mapM_fields map fst snd].
        fold (mapM_fields beam_type_to_avro_type).
        fold (mapM_fields avro_type_to_beam_type).
        rewrite H1. cbn [bind]. rewrite H3. cbn [bind].
        rewrite H2. cbn [bind]. rewrite H4. split; reflexivity. }
    destruct Hfs as (fs' & H1 & H2).
    exists (AvroRecord i fs').
    cbn [beam_type_to_avro_type avro_type_to_beam_type read_back].
    rewrite H1. cbn [bind]. rewrite H2. split; reflexivity.
Qed.

Lemma writable_type_round_trips_witness :
  writable user_row_type = true /\
  exists a, beam_type_to_avro_type user_row_type = Ok a /\
            avro_type_to_beam_type a = Ok (read_back user_row_type).
Proof.
  assert (H1 : writable user_row_type = true) by reflexivity.
  split; [exact H1 |].
  exact (writable_type_round_trips user_row_type H1).
Defined.

(** X10.  [beam_type_to_avro_type] returns a schema exactly for the
    writable types: a type with a map, a logical type, an unset type or
    an atomic kind without Avro name (byte, int16, unspecified) anywhere
    in it raises, and every other type converts. *)
Theorem beam_type_converts_iff_writable (t : FieldType) :
  (exists a, beam_type_to_avro_type t = Ok a) <-> writable t = true.
Proof.
  split.
  - induction t as [n | n a | n e IH | n e IH | n k v _ _ | n i fs IH | n u]
      using FieldType_nested_ind; intros [s Hs]; cbn [beam_type_to_avro_type] in Hs;
      try discriminate.
    + cbn [writable].
      destruct (atomic_get a BEAM_PRIMITIVES_TO_AVRO_PRIMITIVES); [reflexivity | discriminate].
    + cbn [writable]. apply IH.
      destruct (beam_type_to_avro_type e) as [a | |]; try discriminate. eexists; reflexivity.
    + cbn [writable]. apply IH.
      destruct (beam_type_to_avro_type e) as [a | |]; try discriminate. eexists; reflexivity.
    + destruct (negb _); discriminate.
    + cbn [writable].
      destruct (mapM_fields beam_type_to_avro_type fs) as [fs' | |] eqn:E;
        cbn [bind] in Hs; try discriminate.
      clear Hs. revert fs' E.
      induction fs as [| [name t] fs IHfs]; intros fs' E; [reflexivity |].
      cbn [mapM_fields] in E. fold (mapM_fields beam_type_to_avro_type) in E.
      destruct (beam_type_to_avro_type t) as [a | |] eqn:Et; cbn [bind] in E;
        try discriminate.
      destruct (mapM_fields beam_type_to_avro_type fs) as [rest | |] eqn:Er;
        cbn [bind] in E; try discriminate.
      cbn [forallb snd]. apply andb_true_iff. split.
      * apply (Forall_inv IH). exists a. exact Et.
      * apply (IHfs (Forall_inv_tail IH) rest eq_refl).
  - induction t as [n | n a | n e IH | n e IH | n k v _ _ | n i fs IH | n u]
      using FieldType_nested_ind; intros Hw; cbn [writable] in Hw;
      try discriminate; cbn [beam_type_to_avro_type].
    + destruct (atomic_get a BEAM_PRIMITIVES_TO_AVRO_PRIMITIVES); [| discriminate].
      destruct n; eexists; reflexivity.
    + destruct (IH Hw) as (a & ->). eexists. reflexivity.
    + destruct (IH Hw) as (a & ->). eexists. reflexivity.
    + assert (Hfs : exists fs', mapM_fields beam_type_to_avro_type fs = Ok fs').
      { induction fs as [| [name t] fs IHfs]; [exists []; reflexivity |].
        cbn [forallb snd] in Hw. apply andb_true_iff in Hw. destruct Hw as [Ht Hrest].
        destruct (Forall_inv IH Ht) as (a & Ha). cbn [snd] in Ha.
        destruct (IHfs (Forall_inv_tail IH) Hrest) as (fs' & Hfs').
        cbn [mapM_fields]. fold (mapM_fields beam_type_to_avro_type).
        rewrite Ha, Hfs'. eexists. reflexivity. }
      destruct Hfs as (fs' & ->). eexists. reflexivity.
Qed.

(* ================================================================== *)
(** * More on the value converters                                     *)
(* ================================================================== *)

(** ** Dicts                                                           *)

Lemma distinct_NoDup (names : list string) :
  distinct names = true <-> NoDup names.
Proof.
  induction names as [| n names IH]; simpl.
  - split; [constructor | reflexivity].
  - rewrite andb_true_iff, negb_true_iff, IH. split.
    + intros [Hn Hd]. constructor; [| exact Hd].
      intros Hin. assert (Hex : existsb (String.eqb n) names = true).
      { apply existsb_exists. exists n. split; [exact Hin | apply String.eqb_refl]. }
      congruence.
    + intros Hnd. inversion Hnd as [| ? ? Hn Hd]; subst. split; [| exact Hd].
      destruct (existsb (String.eqb n) names) eqn:E; [| reflexivity].
      apply existsb_exists in E. destruct E as (x & Hx & Heq).
      apply String.eqb_eq in Heq. subst x. contradiction.
Qed.

Lemma dict_set_new {A : Type} (k : string) (v : A) (d : list (string * A)) :
  ~ In k (map fst d) -> dict_set k v d = d ++ [(k, v)].
Proof.
  induction d as [| [k' v'] d IH]; intros Hk; [reflexivity |].
  simpl in *. destruct (String.eqb_spec k k') as [-> | Hne].
  - exfalso. apply Hk. left. reflexivity.
  - rewrite IH; [reflexivity |]. intros Hin. apply Hk. right. exact Hin.
Qed.

Lemma dict_fold_distinct {A : Type} (l acc : list (string * A)) :
  NoDup (map fst (acc ++ l)) ->
  fold_left (fun d kv => dict_set (fst kv) (snd kv) d) l acc = acc ++ l.
Proof.
  revert acc. induction l as [| [k v] l IH]; intros acc Hnd; simpl.
  - rewrite app_nil_r. reflexivity.
  - rewrite dict_set_new.
    + rewrite IH; rewrite <- app_assoc; [reflexivity | exact Hnd].
    + rewrite map_app in Hnd. simpl in Hnd.
      apply NoDup_remove_2 in Hnd. intros Hin. apply Hnd.
      apply in_or_app. left. exact Hin.
Qed.

(** A list of items with distinct keys is the dict built from it. *)
Lemma dict_of_items_distinct {A : Type} (l : list (string * A)) :
  distinct (map fst l) = true -> dict_of_items l = l.
Proof.
  intros Hd. apply distinct_NoDup in Hd. unfold dict_of_items.
  rewrite dict_fold_distinct; [reflexivity | exact Hd].
Qed.

Lemma dict_get_in {A : Type} (d : list (string * A)) (k : string) (v : A) :
  NoDup (map fst d) -> In (k, v) d -> dict_get k d = Some v.
Proof.
  induction d as [| [k' v'] d IH]; intros Hnd Hin; [contradiction |].
  simpl in *. inversion Hnd as [| ? ? Hk Hnd']; subst.
  destruct Hin as [[= -> ->] | Hin].
  - rewrite String.eqb_refl. reflexivity.
  - destruct (String.eqb_spec k k') as [-> | Hne].
    + exfalso. apply Hk. apply in_map_iff. exists (k', v). split; [reflexivity | exact Hin].
    + apply IH; assumption.
Qed.

(** ** Rows                                                            *)

Lemma beam_Row_of_fields (kvs : list (string * value)) :
  forallb field_name (map fst kvs) = true -> beam_Row kvs = Ok (VRow kvs).
Proof.
  intros H. unfold beam_Row.
  assert (Hno : existsb (String.eqb "self") (map fst kvs) = false).
  { induction kvs as [| [k x] kvs IH]; [reflexivity |].
    cbn [map fst forallb] in H. apply andb_true_iff in H. destruct H as [Hk Hrest].
    cbn [map fst existsb]. rewrite (IH Hrest), orb_false_r.
    unfold field_name in Hk. rewrite !andb_true_iff in Hk.
    destruct Hk as [[[Hself _] _] _]. apply negb_true_iff in Hself.
    rewrite String.eqb_sym. exact Hself. }
  rewrite Hno. reflexivity.
Qed.

Lemma py_getattr_field (d : list (string * value)) (k : string) (x : value) :
  field_name k = true -> dict_get k d = Some x -> py_getattr (VRow d) k = Ok x.
Proof.
  intros Hk Hx. unfold field_name in Hk. rewrite !andb_true_iff in Hk.
  destruct Hk as [[[_ Hc] Hd] Hw]. apply negb_true_iff in Hc, Hd, Hw.
  cbn [py_getattr]. rewrite Hc, Hd, Hw, Hx. reflexivity.
Qed.

Lemma field_name_in (names : list string) (items : list (string * value))
  (k : string) (x : value) :
  forallb field_name names = true -> map fst items = names -> In (k, x) items ->
  field_name k = true.
Proof.
  intros Hall Hkeys Hin. rewrite forallb_forall in Hall. apply Hall.
  rewrite <- Hkeys. apply in_map_iff. exists (k, x). split; [reflexivity | exact Hin].
Qed.

Lemma mapM_fields_keys {A B : Type} (f : A -> result B)
  (l : list (string * A)) (l' : list (string * B)) :
  mapM_fields f l = Ok l' -> map fst l' = map fst l.
Proof.
  revert l'. induction l as [| [k a] l IH]; intros l' H; simpl in H.
  - injection H as <-. reflexivity.
  - destruct (f a) as [b | |]; cbn [bind] in H; try discriminate.
    fold (mapM_fields f) in H.
    destruct (mapM_fields f l) as [rest | |]; cbn [bind] in H; try discriminate.
    injection H as <-. simpl. f_equal. apply IH. reflexivity.
Qed.

Lemma mapM_round_trip {A B : Type} (c : A -> result B) (c' : B -> result A)
  (l : list A) :
  (forall x, In x l -> exists w, c x = Ok w /\ c' w = Ok x) ->
  exists l', mapM c l = Ok l' /\ mapM c' l' = Ok l.
Proof.
  induction l as [| x l IH]; intros Hall.
  - exists []. split; reflexivity.
  - destruct (Hall x (or_introl eq_refl)) as (w & Hw & Hw').
    destruct (IH (fun y Hy => Hall y (or_intror Hy))) as (l' & Hl & Hl').
    exists (w :: l'). simpl. rewrite Hw. cbn [bind]. rewrite Hl. cbn [bind].
    rewrite Hw'. cbn [bind]. rewrite Hl'. split; reflexivity.
Qed.

Lemma mapM_length {A B : Type} (c : A -> result B) (l : list A) (l' : list B) :
  mapM c l = Ok l' -> List.length l' = List.length l.
Proof.
  revert l'. induction l as [| x l IH]; intros l' H; simpl in H.
  - injection H as <-. reflexivity.
  - destruct (c x) as [w | |]; cbn [bind] in H; try discriminate.
    destruct (mapM c l) as [rest | |]; cbn [bind] in H; try discriminate.
    injection H as <-. simpl. f_equal. apply IH. reflexivity.
Qed.

(** X11.  For every atomic kind with an Avro name the two value
    converters are built, and on [None] they raise [TypeError] when the
    kind is int32 or int64 -- the value goes to ctypes, nullable field or
    not -- and return [None] for every other kind. *)
Theorem none_in_an_atomic_field
  (nullable : bool) (a : AtomicType) (avro_type : string) :
  atomic_get a BEAM_PRIMITIVES_TO_AVRO_PRIMITIVES = Some avro_type ->
  exists to_beam to_avro,
    avro_value_to_beam_value (FieldType_atomic nullable a) = Ok to_beam /\
    beam_value_to_avro_value (FieldType_atomic nullable a) = Ok to_avro /\
    to_beam VNone = (if is_integer_kind a then Raise TypeError else Ok VNone) /\
    to_avro VNone = (if is_integer_kind a then Raise TypeError else Ok VNone).
Proof.
  intros Hname. cbn [avro_value_to_beam_value beam_value_to_avro_value].
  rewrite Hname. eexists. eexists. split; [reflexivity |]. split; [reflexivity |].
  destruct a; cbn in Hname; try discriminate; injection Hname as <-;
    split; reflexivity.
Qed.

Lemma none_in_an_atomic_field_witness :
  atomic_get INT32 BEAM_PRIMITIVES_TO_AVRO_PRIMITIVES = Some "int" /\
  exists to_beam to_avro,
    avro_value_to_beam_value (FieldType_atomic true INT32) = Ok to_beam /\
    beam_value_to_avro_value (FieldType_atomic true INT32) = Ok to_avro /\
    to_beam VNone = (if is_integer_kind INT32 then Raise TypeError else Ok VNone) /\
    to_avro VNone = (if is_integer_kind INT32 then Raise TypeError else Ok VNone).
Proof.
  assert (H1 : atomic_get INT32 BEAM_PRIMITIVES_TO_AVRO_PRIMITIVES = Some "int")
    by reflexivity.
  split; [exact H1 |].
  exact (none_in_an_atomic_field true INT32 "int" H1).
Defined.

(** ** Round trips of values                                           *)

Lemma in_signed_range_inv (w : Z) (v : value) :
  in_signed_range w v = true ->
  exists x, v = VInt x /\ - 2 ^ (w - 1) <= x < 2 ^ (w - 1).
Proof.
  destruct v; try discriminate. simpl. rewrite andb_true_iff, Z.leb_le, Z.ltb_lt.
  intros H. eexists. split; [reflexivity | exact H].
Qed.

Lemma aligned_keys (fs : list (string * FieldType)) :
  forall items,
    forallb2 (fun f kv => String.eqb (fst f) (fst kv)
                          && conforms (snd f) (snd kv)) fs items = true ->
    map fst items = map fst fs.
Proof.
  induction fs as [| [n t] fs IH]; intros [| [k x] items] H; simpl in H;
    try discriminate; [reflexivity |].
  apply andb_true_iff in H. destruct H as [H Hrest].
  apply andb_true_iff in H. destruct H as [Hk _].
  apply String.eqb_eq in Hk. simpl. f_equal; [congruence | exact (IH _ Hrest)].
Qed.

Lemma row_fields_round_trip (fs : list (string * FieldType)) :
  Forall (fun f => forall tb ta v,
              avro_value_to_beam_value (snd f) = Ok tb ->
              beam_value_to_avro_value (snd f) = Ok ta ->
              conforms (snd f) v = true ->
              exists w, tb v = Ok w /\ ta w = Ok v) fs ->
  forall (cs cs' : list (string * converter)) (items : list (string * value))
         (D : value),
    mapM_fields avro_value_to_beam_value fs = Ok cs ->
    mapM_fields beam_value_to_avro_value fs = Ok cs' ->
    forallb2 (fun f kv => String.eqb (fst f) (fst kv)
                          && conforms (snd f) (snd kv)) fs items = true ->
    (forall k x, In (k, x) items -> py_getitem D k = Ok x) ->
    exists kvs,
      mapM (fun nc => x <- py_getitem D (fst nc) ;;
                      y <- snd nc x ;; Ok (fst nc, y)) cs = Ok kvs /\
      map fst kvs = map fst items /\
      forall R,
        (forall k w, In (k, w) kvs -> py_getattr R k = Ok w) ->
        mapM (fun nc => x <- py_getattr R (fst nc) ;;
                        y <- snd nc x ;; Ok (fst nc, y)) cs' = Ok items.
Proof.
  induction fs as [| [n t] fs IH]; intros Hall cs cs' items D Hcs Hcs' Hfit HD.
  - destruct items; [| discriminate]. simpl in Hcs, Hcs'.
    injection Hcs as <-. injection Hcs' as <-.
    exists []. split; [reflexivity |]. split; [reflexivity |]. intros R _. reflexivity.
  - destruct items as [| [k x] items]; [discriminate |].
    simpl in Hfit. apply andb_true_iff in Hfit. destruct Hfit as [Hfit Hrest].
    apply andb_true_iff in Hfit. destruct Hfit as [Hk Hx].
    apply String.eqb_eq in Hk. subst k.
    cbn [mapM_fields] in Hcs, Hcs'.
    fold (mapM_fields avro_value_to_beam_value) in Hcs.
    fold (mapM_fields beam_value_to_avro_value) in Hcs'.
    destruct (avro_value_to_beam_value t) as [c | |] eqn:Ec; cbn [bind] in Hcs;
      try discriminate.
    destruct (mapM_fields avro_value_to_beam_value fs) as [cr | |] eqn:Ecr;
      cbn [bind] in Hcs; try discriminate.
    destruct (beam_value_to_avro_value t) as [c' | |] eqn:Ec'; cbn [bind] in Hcs';
      try discriminate.
    destruct (mapM_fields beam_value_to_avro_value fs) as [cr' | |] eqn:Ecr';
      cbn [bind] in Hcs'; try discriminate.
    injection Hcs as <-. injection Hcs' as <-.
    destruct (Forall_inv Hall c c' x Ec Ec' Hx) as (w & Hw & Hw').
    destruct (IH (Forall_inv_tail Hall) cr cr' items D eq_refl eq_refl Hrest
                 (fun k y Hin => HD k y (or_intror Hin)))
      as (kvs & Hfwd & Hkeys & Hbwd).
    exists ((n, w) :: kvs). split; [| split].
    + cbn [mapM fst snd]. rewrite (HD n x (or_introl eq_refl)). cbn [bind].
      rewrite Hw. cbn [bind]. rewrite Hfwd. reflexivity.
    + simpl. f_equal. exact Hkeys.
    + intros R HR. cbn [mapM fst snd].
      rewrite (HR n w (or_introl eq_refl)). cbn [bind].
      rewrite Hw'. cbn [bind].
      rewrite (Hbwd R (fun k y Hin => HR k y (or_intror Hin))). reflexivity.
Qed.

(** X12.  Once the two converters of a type are built, a value that fits
    the type on the Avro side goes to the beam side and back unchanged:
    ints and longs through their unsigned reading, lists element by
    element, maps value by value, a record dict through a row with the
    declared fields.  The fields of a row type are distinct and none is
    named [self], [__class__], [__dict__] or [__weakref__]: the first
    cannot be given to [Row], the others are not read back from it. *)
Theorem avro_value_round_trips (t : FieldType) :
  forall (to_beam to_avro : converter) (v : value),
    avro_value_to_beam_value t = Ok to_beam ->
    beam_value_to_avro_value t = Ok to_avro ->
    conforms t v = true ->
    exists w, to_beam v = Ok w /\ to_avro w = Ok v.
Proof.
  induction t as [n | n a | n e IH | n e IH | n k e _ IH | n i fs IH | n u]
    using FieldType_nested_ind; intros to_beam to_avro v Hb Ha Hfit;
    cbn [avro_value_to_beam_value beam_value_to_avro_value] in Hb, Ha.
  - discriminate.
  - destruct a; cbn in Hb, Ha; try discriminate;
      injection Hb as <-; injection Ha as <-; cbn [conforms] in Hfit.
    + apply in_signed_range_inv in Hfit. destruct Hfit as (x & -> & Hx).
      exists (VInt (as_unsigned 32 x)). split; [reflexivity |].
      change (Ok (VInt (as_signed 32 (as_unsigned 32 x))) = Ok (VInt x)).
      rewrite as_signed_unsigned; [reflexivity | lia | exact Hx].
    + apply in_signed_range_inv in Hfit. destruct Hfit as (x & -> & Hx).
      exists (VInt (as_unsigned 64 x)). split; [reflexivity |].
      change (Ok (VInt (as_signed 64 (as_unsigned 64 x))) = Ok (VInt x)).
      rewrite as_signed_unsigned; [reflexivity | lia | exact Hx].
    + exists v. split; reflexivity.
    + exists v. split; reflexivity.
    + exists v. split; reflexivity.
    + exists v. split; reflexivity.
    + exists v. split; reflexivity.
  - destruct (avro_value_to_beam_value e) as [c | |] eqn:Ec; cbn [bind] in Hb;
      try discriminate.
    destruct (beam_value_to_avro_value e) as [c' | |] eqn:Ec'; cbn [bind] in Ha;
      try discriminate.
    injection Hb as <-. injection Ha as <-. cbn [conforms] in Hfit.
    destruct v as [| | | | | | l | | |]; try discriminate.
    destruct (mapM_round_trip c c' l) as (l' & Hl & Hl').
    { intros x Hx. apply (IH c c' x eq_refl eq_refl).
      rewrite forallb_forall in Hfit. exact (Hfit x Hx). }
    exists (VList l'). unfold convert_elements. cbn [py_iter bind].
    rewrite Hl. cbn [bind]. rewrite Hl'. split; reflexivity.
  - destruct (avro_value_to_beam_value e) as [c | |] eqn:Ec; cbn [bind] in Hb;
      try discriminate.
    destruct (beam_value_to_avro_value e) as [c' | |] eqn:Ec'; cbn [bind] in Ha;
      try discriminate.
    injection Hb as <-. injection Ha as <-. cbn [conforms] in Hfit.
    destruct v as [| | | | | | l | | |]; try discriminate.
    destruct (mapM_round_trip c c' l) as (l' & Hl & Hl').
    { intros x Hx. apply (IH c c' x eq_refl eq_refl).
      rewrite forallb_forall in Hfit. exact (Hfit x Hx). }
    exists (VList l'). unfold convert_elements. cbn [py_iter bind].
    rewrite Hl. cbn [bind]. rewrite Hl'. split; reflexivity.
  - cbn [conforms] in Hfit. apply andb_true_iff in Hfit. destruct Hfit as [Hkey Hfit].
    rewrite Hkey in Hb, Ha. cbn [negb] in Hb, Ha.
    destruct (avro_value_to_beam_value e) as [c | |] eqn:Ec; cbn [bind] in Hb;
      try discriminate.
    destruct (beam_value_to_avro_value e) as [c' | |] eqn:Ec'; cbn [bind] in Ha;
      try discriminate.
    injection Hb as <-. injection Ha as <-.
    destruct v as [| | | | | | | items | |]; try discriminate.
    apply andb_true_iff in Hfit. destruct Hfit as [Hdist Hall].
    destruct (mapM_round_trip
                (fun kv => x <- c (snd kv) ;; Ok (fst kv, x))
                (fun kv => x <- c' (snd kv) ;; Ok (fst kv, x)) items)
      as (kvs & Hk & Hk').
    { intros [key x] Hx. rewrite forallb_forall in Hall.
      destruct (IH c c' x eq_refl eq_refl (Hall _ Hx)) as (w & Hw & Hw').
      exists (key, w). cbn [fst snd]. rewrite Hw. cbn [bind fst snd]. rewrite Hw'.
      split; reflexivity. }
    assert (Hkeys : map fst kvs = map fst items).
    { clear - Hk. revert kvs Hk. induction items as [| [key x] items IHi];
        intros kvs Hk; simpl in Hk.
      - injection Hk as <-. reflexivity.
      - destruct (c x) as [w | |]; cbn [bind] in Hk; try discriminate.
        destruct (mapM _ items) as [rest | |]; cbn [bind] in Hk; try discriminate.
        injection Hk as <-. simpl. f_equal. apply IHi. reflexivity. }
    exists (VDict kvs). unfold convert_map_values. cbn [py_items bind].
    rewrite Hk. cbn [bind].
    rewrite (dict_of_items_distinct kvs) by (rewrite Hkeys; exact Hdist).
    rewrite Hk'. cbn [bind]. rewrite (dict_of_items_distinct items Hdist).
    split; reflexivity.
  - cbn [conforms] in Hfit. apply andb_true_iff in Hfit. destruct Hfit as [Hdist Hfit].
    apply andb_true_iff in Hdist. destruct Hdist as [Hdist Hnames].
    destruct v as [| | | | | | | items | |]; try discriminate.
    destruct (mapM_fields avro_value_to_beam_value fs) as [cs | |] eqn:Ecs;
      cbn [bind] in Hb; try discriminate.
    destruct (mapM_fields beam_value_to_avro_value fs) as [cs' | |] eqn:Ecs';
      cbn [bind] in Ha; try discriminate.
    injection Hb as <-. injection Ha as <-.
    pose proof (mapM_fields_keys _ _ _ Ecs) as Hkcs.
    pose proof (mapM_fields_keys _ _ _ Ecs') as Hkcs'.
    pose proof (aligned_keys fs items Hfit) as Hkitems.
    rewrite (dict_of_items_distinct cs) by (rewrite Hkcs; exact Hdist).
    rewrite (dict_of_items_distinct cs') by (rewrite Hkcs'; exact Hdist).
    assert (Hnd : NoDup (map fst items))
      by (rewrite Hkitems; apply distinct_NoDup; exact Hdist).
    destruct (row_fields_round_trip fs IH cs cs' items (VDict items) Ecs Ecs' Hfit)
      as (kvs & Hfwd & Hkeys & Hbwd).
    { intros key x Hin. cbn [py_getitem]. rewrite (dict_get_in items key x Hnd Hin).
      reflexivity. }
    assert (Hkk : map fst kvs = map fst fs) by congruence.
    exists (VRow kvs). unfold convert_fields_with. rewrite Hfwd. cbn [bind].
    split; [apply beam_Row_of_fields; rewrite Hkk; exact Hnames |].
    rewrite (Hbwd (VRow kvs)); [reflexivity |].
    intros key w Hin. apply py_getattr_field.
    + exact (field_name_in (map fst fs) kvs key w Hnames Hkk Hin).
    + exact (dict_get_in kvs key w ltac:(rewrite Hkeys; exact Hnd) Hin).
  - injection Hb as <-. injection Ha as <-. exists v. split; reflexivity.
Qed.

Lemma avro_value_round_trips_witness :
  exists to_beam to_avro,
    avro_value_to_beam_value user_row_type = Ok to_beam /\
    beam_value_to_avro_value user_row_type = Ok to_avro /\
    conforms user_row_type user_record = true /\
    exists w, to_beam user_record = Ok w /\ to_avro w = Ok user_record.
Proof.
  assert (Hb : match avro_value_to_beam_value user_row_type with
               | Ok _ => True | _ => False end) by (vm_compute; exact I).
  assert (Ha : match beam_value_to_avro_value user_row_type with
               | Ok _ => True | _ => False end) by (vm_compute; exact I).
  destruct (avro_value_to_beam_value user_row_type) as [to_beam | |] eqn:Eb;
    [| destruct Hb | destruct Hb].
  destruct (beam_value_to_avro_value user_row_type) as [to_avro | |] eqn:Ea;
    [| destruct Ha | destruct Ha].
  assert (H3 : conforms user_row_type user_record = true)
    by (vm_compute; reflexivity).
  exists to_beam, to_avro.
  split; [reflexivity |]. split; [reflexivity |]. split; [exact H3 |].
  exact (avro_value_round_trips user_row_type to_beam to_avro user_record Eb Ea H3).
Defined.

Lemma as_unsigned_signed (w u : Z) :
  0 < w -> 0 <= u < 2 ^ w -> as_unsigned w (as_signed w u) = u.
Proof.
  intros Hw Hu. unfold as_signed, as_unsigned.
  rewrite (Z.mod_small u) by lia.
  destruct (u <? 2 ^ (w - 1)).
  - apply Z.mod_small. lia.
  - symmetry. apply Z.mod_unique with (q := -1); lia.
Qed.

Lemma in_unsigned_range_inv (w : Z) (v : value) :
  in_unsigned_range w v = true -> exists x, v = VInt x /\ 0 <= x < 2 ^ w.
Proof.
  destruct v; try discriminate. simpl. rewrite andb_true_iff, Z.leb_le, Z.ltb_lt.
  intros H. eexists. split; [reflexivity | exact H].
Qed.

Lemma beam_aligned_keys (fs : list (string * FieldType)) :
  forall items,
    forallb2 (fun f kv => String.eqb (fst f) (fst kv)
                          && beam_conforms (snd f) (snd kv)) fs items = true ->
    map fst items = map fst fs.
Proof.
  induction fs as [| [n t] fs IH]; intros [| [k x] items] H; simpl in H;
    try discriminate; [reflexivity |].
  apply andb_true_iff in H. destruct H as [H Hrest].
  apply andb_true_iff in H. destruct H as [Hk _].
  apply String.eqb_eq in Hk. simpl. f_equal; [congruence | exact (IH _ Hrest)].
Qed.

Lemma beam_row_fields_round_trip (fs : list (string * FieldType)) :
  Forall (fun f => forall ta tb v,
              beam_value_to_avro_value (snd f) = Ok ta ->
              avro_value_to_beam_value (snd f) = Ok tb ->
              beam_conforms (snd f) v = true ->
              exists w, ta v = Ok w /\ tb w = Ok v) fs ->
  forall (cs cs' : list (string * converter)) (items : list (string * value))
         (R : value),
    mapM_fields beam_value_to_avro_value fs = Ok cs ->
    mapM_fields avro_value_to_beam_value fs = Ok cs' ->
    forallb2 (fun f kv => String.eqb (fst f) (fst kv)
                          && beam_conforms (snd f) (snd kv)) fs items = true ->
    (forall k x, In (k, x) items -> py_getattr R k = Ok x) ->
    exists kvs,
      mapM (fun nc => x <- py_getattr R (fst nc) ;;
                      y <- snd nc x ;; Ok (fst nc, y)) cs = Ok kvs /\
      map fst kvs = map fst items /\
      forall D,
        (forall k w, In (k, w) kvs -> py_getitem D k = Ok w) ->
        mapM (fun nc => x <- py_getitem D (fst nc) ;;
                        y <- snd nc x ;; Ok (fst nc, y)) cs' = Ok items.
Proof.
  induction fs as [| [n t] fs IH]; intros Hall cs cs' items R Hcs Hcs' Hfit HR.
  - destruct items; [| discriminate]. simpl in Hcs, Hcs'.
    injection Hcs as <-. injection Hcs' as <-.
    exists []. split; [reflexivity |]. split; [reflexivity |]. intros D _. reflexivity.
  - destruct items as [| [k x] items]; [discriminate |].
    simpl in Hfit. apply andb_true_iff in Hfit. destruct Hfit as [Hfit Hrest].
    apply andb_true_iff in Hfit. destruct Hfit as [Hk Hx].
    apply String.eqb_eq in Hk. subst k.
    cbn [mapM_fields] in Hcs, Hcs'.
    fold (mapM_fields beam_value_to_avro_value) in Hcs.
    fold (mapM_fields avro_value_to_beam_value) in Hcs'.
    destruct (beam_value_to_avro_value t) as [c | |] eqn:Ec; cbn [bind] in Hcs;
      try discriminate.
    destruct (mapM_fields beam_value_to_avro_value fs) as [cr | |] eqn:Ecr;
      cbn [bind] in Hcs; try discriminate.
    destruct (avro_value_to_beam_value t) as [c' | |] eqn:Ec'; cbn [bind] in Hcs';
      try discriminate.
    destruct (mapM_fields avro_value_to_beam_value fs) as [cr' | |] eqn:Ecr';
      cbn [bind] in Hcs'; try discriminate.
    injection Hcs as <-. injection Hcs' as <-.
    destruct (Forall_inv Hall c c' x Ec Ec' Hx) as (w & Hw & Hw').
    destruct (IH (Forall_inv_tail Hall) cr cr' items R eq_refl eq_refl Hrest
                 (fun k y Hin => HR k y (or_intror Hin)))
      as (kvs & Hfwd & Hkeys & Hbwd).
    exists ((n, w) :: kvs). split; [| split].
    + cbn [mapM fst snd]. rewrite (HR n x (or_introl eq_refl)). cbn [bind].
      rewrite Hw. cbn [bind]. rewrite Hfwd. reflexivity.
    + simpl. f_equal. exact Hkeys.
    + intros D HD. cbn [mapM fst snd].
      rewrite (HD n w (or_introl eq_refl)). cbn [bind].
      rewrite Hw'. cbn [bind].
      rewrite (Hbwd D (fun k y Hin => HD k y (or_intror Hin))). reflexivity.
Qed.

(** X13.  The other way round: once the two converters of a type are
    built, a value that fits the type on the beam side goes to the Avro
    side and back unchanged -- an unsigned int32 or int64 through its
    signed reading, a row through a dict with the declared fields.  The
    fields of a row type are distinct and none is named [self],
    [__class__], [__dict__] or [__weakref__], which [getattr] on a row or
    the call of [Row] do not take for fields. *)
Theorem beam_value_round_trips (t : FieldType) :
  forall (to_avro to_beam : converter) (v : value),
    beam_value_to_avro_value t = Ok to_avro ->
    avro_value_to_beam_value t = Ok to_beam ->
    beam_conforms t v = true ->
    exists w, to_avro v = Ok w /\ to_beam w = Ok v.
Proof.
  induction t as [n | n a | n e IH | n e IH | n k e _ IH | n i fs IH | n u]
    using FieldType_nested_ind; intros to_avro to_beam v Ha Hb Hfit;
    cbn [avro_value_to_beam_value beam_value_to_avro_value] in Hb, Ha.
  - discriminate.
  - destruct a; cbn in Hb, Ha; try discriminate;
      injection Hb as <-; injection Ha as <-; cbn [beam_conforms] in Hfit.
    + apply in_unsigned_range_inv in Hfit. destruct Hfit as (x & -> & Hx).
      exists (VInt (as_signed 32 x)). split; [reflexivity |].
      change (Ok (VInt (as_unsigned 32 (as_signed 32 x))) = Ok (VInt x)).
      rewrite as_unsigned_signed; [reflexivity | lia | exact Hx].
    + apply in_unsigned_range_inv in Hfit. destruct Hfit as (x & -> & Hx).
      exists (VInt (as_signed 64 x)). split; [reflexivity |].
      change (Ok (VInt (as_unsigned 64 (as_signed 64 x))) = Ok (VInt x)).
      rewrite as_unsigned_signed; [reflexivity | lia | exact Hx].
    + exists v. split; reflexivity.
    + exists v. split; reflexivity.
    + exists v. split; reflexivity.
    + exists v. split; reflexivity.
    + exists v. split; reflexivity.
  - destruct (avro_value_to_beam_value e) as [c' | |] eqn:Ec'; cbn [bind] in Hb;
      try discriminate.
    destruct (beam_value_to_avro_value e) as [c | |] eqn:Ec; cbn [bind] in Ha;
      try discriminate.
    injection Hb as <-. injection Ha as <-. cbn [beam_conforms] in Hfit.
    destruct v as [| | | | | | l | | |]; try discriminate.
    destruct (mapM_round_trip c c' l) as (l' & Hl & Hl').
    { intros x Hx. apply (IH c c' x eq_refl eq_refl).
      rewrite forallb_forall in Hfit. exact (Hfit x Hx). }
    exists (VList l'). unfold convert_elements. cbn [py_iter bind].
    rewrite Hl. cbn [bind]. rewrite Hl'. split; reflexivity.
  - destruct (avro_value_to_beam_value e) as [c' | |] eqn:Ec'; cbn [bind] in Hb;
      try discriminate.
    destruct (beam_value_to_avro_value e) as [c | |] eqn:Ec; cbn [bind] in Ha;
      try discriminate.
    injection Hb as <-. injection Ha as <-. cbn [beam_conforms] in Hfit.
    destruct v as [| | | | | | l | | |]; try discriminate.
    destruct (mapM_round_trip c c' l) as (l' & Hl & Hl').
    { intros x Hx. apply (IH c c' x eq_refl eq_refl).
      rewrite forallb_forall in Hfit. exact (Hfit x Hx). }
    exists (VList l'). unfold convert_elements. cbn [py_iter bind].
    rewrite Hl. cbn [bind]. rewrite Hl'. split; reflexivity.
  - cbn [beam_conforms] in Hfit. apply andb_true_iff in Hfit.
    destruct Hfit as [Hkey Hfit].
    rewrite Hkey in Hb, Ha. cbn [negb] in Hb, Ha.
    destruct (avro_value_to_beam_value e) as [c' | |] eqn:Ec'; cbn [bind] in Hb;
      try discriminate.
    destruct (beam_value_to_avro_value e) as [c | |] eqn:Ec; cbn [bind] in Ha;
      try discriminate.
    injection Hb as <-. injection Ha as <-.
    destruct v as [| | | | | | | items | |]; try discriminate.
    apply andb_true_iff in Hfit. destruct Hfit as [Hdist Hall].
    destruct (mapM_round_trip
                (fun kv => x <- c (snd kv) ;; Ok (fst kv, x))
                (fun kv => x <- c' (snd kv) ;; Ok (fst kv, x)) items)
      as (kvs & Hk & Hk').
    { intros [key x] Hx. rewrite forallb_forall in Hall.
      destruct (IH c c' x eq_refl eq_refl (Hall _ Hx)) as (w & Hw & Hw').
      exists (key, w). cbn [fst snd]. rewrite Hw. cbn [bind fst snd]. rewrite Hw'.
      split; reflexivity. }
    assert (Hkeys : map fst kvs = map fst items).
    { clear - Hk. revert kvs Hk. induction items as [| [key x] items IHi];
        intros kvs Hk; simpl in Hk.
      - injection Hk as <-. reflexivity.
      - destruct (c x) as [w | |]; cbn [bind] in Hk; try discriminate.
        destruct (mapM _ items) as [rest | |]; cbn [bind] in Hk; try discriminate.
        injection Hk as <-. simpl. f_equal. apply IHi. reflexivity. }
    exists (VDict kvs). unfold convert_map_values. cbn [py_items bind].
    rewrite Hk. cbn [bind].
    rewrite (dict_of_items_distinct kvs) by (rewrite Hkeys; exact Hdist).
    rewrite Hk'. cbn [bind]. rewrite (dict_of_items_distinct items Hdist).
    split; reflexivity.
  - cbn [beam_conforms] in Hfit. apply andb_true_iff in Hfit.
    destruct Hfit as [Hdist Hfit].
    apply andb_true_iff in Hdist. destruct Hdist as [Hdist Hnames].
    destruct v as [| | | | | | | | items |]; try discriminate.
    destruct (mapM_fields avro_value_to_beam_value fs) as [cs' | |] eqn:Ecs';
      cbn [bind] in Hb; try discriminate.
    destruct (mapM_fields beam_value_to_avro_value fs) as [cs | |] eqn:Ecs;
      cbn [bind] in Ha; try discriminate.
    injection Hb as <-. injection Ha as <-.
    pose proof (mapM_fields_keys _ _ _ Ecs) as Hkcs.
    pose proof (mapM_fields_keys _ _ _ Ecs') as Hkcs'.
    pose proof (beam_aligned_keys fs items Hfit) as Hkitems.
    rewrite (dict_of_items_distinct cs) by (rewrite Hkcs; exact Hdist).
    rewrite (dict_of_items_distinct cs') by (rewrite Hkcs'; exact Hdist).
    assert (Hnd : NoDup (map fst items))
      by (rewrite Hkitems; apply distinct_NoDup; exact Hdist).
    destruct (beam_row_fields_round_trip fs IH cs cs' items (VRow items) Ecs Ecs' Hfit)
      as (kvs & Hfwd & Hkeys & Hbwd).
    { intros key x Hin. apply py_getattr_field.
      - exact (field_name_in (map fst fs) items key x Hnames Hkitems Hin).
      - exact (dict_get_in items key x Hnd Hin). }
    exists (VDict kvs). unfold convert_fields_with. rewrite Hfwd. cbn [bind].
    split; [reflexivity |].
    rewrite (Hbwd (VDict kvs)).
    + cbn [bind]. apply beam_Row_of_fields. rewrite Hkitems. exact Hnames.
    + intros key w Hin. cbn [py_getitem].
      rewrite (dict_get_in kvs key w ltac:(rewrite Hkeys; exact Hnd) Hin). reflexivity.
  - injection Hb as <-. injection Ha as <-. exists v. split; reflexivity.
Qed.

Lemma beam_value_round_trips_witness :
  exists to_avro to_beam,
    beam_value_to_avro_value user_row_type = Ok to_avro /\
    avro_value_to_beam_value user_row_type = Ok to_beam /\
    beam_conforms user_row_type user_row = true /\
    exists w, to_avro user_row = Ok w /\ to_beam w = Ok user_row.
Proof.
  assert (Ha : match beam_value_to_avro_value user_row_type with
               | Ok _ => True | _ => False end) by (vm_compute; exact I).
  assert (Hb : match avro_value_to_beam_value user_row_type with
               | Ok _ => True | _ => False end) by (vm_compute; exact I).
  destruct (beam_value_to_avro_value user_row_type) as [to_avro | |] eqn:Ea;
    [| destruct Ha | destruct Ha].
  destruct (avro_value_to_beam_value user_row_type) as [to_beam | |] eqn:Eb;
    [| destruct Hb | destruct Hb].
  assert (H3 : beam_conforms user_row_type user_row = true)
    by (vm_compute; reflexivity).
  exists to_avro, to_beam.
  split; [reflexivity |]. split; [reflexivity |]. split; [exact H3 |].
  exact (beam_value_round_trips user_row_type to_avro to_beam user_row Ea Eb H3).
Defined.

Lemma fields_read_from_dict (D : value) (cs : list (string * converter)) :
  forall kvs,
    mapM (fun nc => x <- py_getitem D (fst nc) ;;
                    y <- snd nc x ;; Ok (fst nc, y)) cs = Ok kvs ->
    map fst kvs = map fst cs /\
    forall name, In name (map fst cs) -> exists x, py_getitem D name = Ok x.
Proof.
  induction cs as [| [n c] cs IH]; intros kvs H; simpl in H.
  - injection H as <-. split; [reflexivity | intros name []].
  - destruct (py_getitem D n) as [x | |] eqn:Ex; cbn [bind] in H; try discriminate.
    destruct (c x) as [y | |]; cbn [bind] in H; try discriminate.
    match type of H with
    | context [bind ?m _] => destruct m as [rest | |] eqn:Er
    end; cbn [bind] in H; try discriminate.
    injection H as <-. destruct (IH rest eq_refl) as [Hk Hall].
    split; [simpl; f_equal; exact Hk |].
    intros name [<- | Hin]; [exists x; exact Ex | exact (Hall name Hin)].
Qed.

(** X14.  A record dict converts to a row only if it has every declared
    field: a missing field is an error, never a default.  The row then
    has exactly the declared fields, in their order; keys of the dict
    that are not declared are left out. *)
Theorem row_needs_every_declared_field
  (nullable : bool) (schema_id : string) (fs : list (string * FieldType))
  (to_beam : converter) (d : list (string * value)) (r : value) :
  distinct (map fst fs) = true ->
  avro_value_to_beam_value (FieldType_row nullable schema_id fs) = Ok to_beam ->
  to_beam (VDict d) = Ok r ->
  (forall name, In name (map fst fs) -> exists x, dict_get name d = Some x) /\
  exists items, r = VRow items /\ map fst items = map fst fs.
Proof.
  intros Hdist Hb Hrun. cbn [avro_value_to_beam_value] in Hb.
  destruct (mapM_fields avro_value_to_beam_value fs) as [cs | |] eqn:Ecs;
    cbn [bind] in Hb; try discriminate.
  injection Hb as <-.
  pose proof (mapM_fields_keys _ _ _ Ecs) as Hkcs.
  rewrite (dict_of_items_distinct cs) in Hrun by (rewrite Hkcs; exact Hdist).
  unfold convert_fields_with in Hrun.
  match type of Hrun with
  | context [bind ?m _] => destruct m as [kvs | |] eqn:Ek
  end; cbn [bind] in Hrun; try discriminate.
  unfold beam_Row in Hrun.
  destruct (existsb (String.eqb "self") (map fst kvs)); [discriminate |].
  injection Hrun as <-.
  destruct (fields_read_from_dict (VDict d) cs kvs Ek) as [Hkeys Hall].
  split.
  - intros name Hin. rewrite <- Hkcs in Hin.
    destruct (Hall name Hin) as (x & Hx). cbn [py_getitem] in Hx.
    destruct (dict_get name d) as [y |]; [exists y; reflexivity | discriminate].
  - exists kvs. split; [reflexivity | congruence].
Qed.

Lemma row_needs_every_declared_field_witness :
  exists to_beam r,
    distinct (map fst [ ("x", FieldType_atomic false INT32) ]) = true /\
    avro_value_to_beam_value
      (FieldType_row false "" [ ("x", FieldType_atomic false INT32) ]) = Ok to_beam /\
    to_beam (VDict [ ("extra", VStr "dropped"); ("x", VInt (-1)) ]) = Ok r /\
    (forall name, In name (map fst [ ("x", FieldType_atomic false INT32) ]) ->
       exists x, dict_get name [ ("extra", VStr "dropped"); ("x", VInt (-1)) ] = Some x) /\
    exists items, r = VRow items /\
                  map fst items = map fst [ ("x", FieldType_atomic false INT32) ].
Proof.
  assert (Hrun : match avro_value_to_beam_value
                          (FieldType_row false "" [ ("x", FieldType_atomic false INT32) ])
                  with
                  | Ok c => c (VDict [ ("extra", VStr "dropped"); ("x", VInt (-1)) ])
                            = Ok (VRow [ ("x", VInt 4294967295) ])
                  | _ => False
                  end) by (vm_compute; reflexivity).
  destruct (avro_value_to_beam_value
              (FieldType_row false "" [ ("x", FieldType_atomic false INT32) ]))
    as [to_beam | |] eqn:Eb; [| destruct Hrun | destruct Hrun].
  pose (r := VRow [ ("x", VInt 4294967295) ]).
  assert (Er : to_beam (VDict [ ("extra", VStr "dropped"); ("x", VInt (-1)) ]) = Ok r)
    by exact Hrun.
  assert (H1 : distinct (map fst [ ("x", FieldType_atomic false INT32) ]) = true)
    by reflexivity.
  exists to_beam, r.
  split; [exact H1 |]. split; [reflexivity |]. split; [exact Er |].
  exact (row_needs_every_declared_field false ""
           [ ("x", FieldType_atomic false INT32) ] to_beam
           [ ("extra", VStr "dropped"); ("x", VInt (-1)) ] r H1 Eb Er).
Defined.

Lemma existsb_eqb_In (k : string) (l : list string) :
  existsb (String.eqb k) l = true <-> In k l.
Proof.
  rewrite existsb_exists. split.
  - intros (x & Hx & He). apply String.eqb_eq in He. subst. exact Hx.
  - intros H. exists k. split; [exact H | apply String.eqb_refl].
Qed.

Lemma distinct_filter_keys (f : string * value -> bool) :
  forall kwargs, distinct (map fst kwargs) = true ->
                 distinct (map fst (filter f kwargs)) = true.
Proof.
  induction kwargs as [| [k v] rest IH]; intros H; [reflexivity |].
  cbn [map fst distinct] in H. apply andb_true_iff in H. destruct H as [Hk Hr].
  cbn [filter]. destruct (f (k, v)); [| exact (IH Hr)].
  cbn [map fst distinct]. apply andb_true_iff. split; [| exact (IH Hr)].
  apply negb_true_iff. apply negb_true_iff in Hk.
  destruct (existsb (String.eqb k) (map fst (filter f rest))) eqn:E; [| reflexivity].
  apply existsb_eqb_In in E. apply in_map_iff in E. destruct E as ([k' v'] & Hk' & Hin).
  apply filter_In in Hin. destruct Hin as [Hin _]. cbn [fst] in Hk'. subst k'.
  assert (In k (map fst rest)) by (apply in_map_iff; exists (k, v'); split; [reflexivity | exact Hin]).
  apply existsb_eqb_In in H. congruence.
Qed.

Lemma dict_get_filter (f : string * value -> bool) (name : string) :
  (forall v, f (name, v) = true) ->
  forall kwargs, dict_get name (filter f kwargs) = dict_get name kwargs.
Proof.
  intros Hf. induction kwargs as [| [k v] rest IH]; [reflexivity |].
  cbn [filter dict_get]. destruct (String.eqb_spec name k) as [<- | Hne].
  - rewrite Hf. cbn [dict_get]. rewrite String.eqb_refl. reflexivity.
  - destruct (f (k, v)); [| exact IH].
    cbn [dict_get]. destruct (String.eqb_spec name k); [contradiction | exact IH].
Qed.

Lemma filter_nil_iff (f g : string * value -> bool) :
  (forall kv, g kv = negb (f kv)) ->
  forall l, filter f l = [] <-> forallb g l = true.
Proof.
  intros Hg. induction l as [| a l IH]; [split; reflexivity |].
  cbn [filter forallb]. rewrite Hg. destruct (f a); cbn [negb andb].
  - split; discriminate.
  - exact IH.
Qed.

(** X15.  [ReadAllFromAvroContinuously] takes exactly the keywords of
    its two tuples.  With only such keywords it is built: the keywords
    of [_ARGS_FOR_MATCH] are kept for [MatchContinuously], in the order
    given, and never reach the reader; the reader gets the label and, for
    each of its settings, the keyword when given and else the default of
    [ReadAllFromAvro].  Any other keyword is a [TypeError], raised by the
    constructor of [ReadAllFromAvro]. *)
Theorem continuously_takes_exactly_the_known_keywords
  (file_pattern label : value) (kwargs : list (string * value)) :
  distinct (map fst kwargs) = true ->
  if forallb (fun kv => in_tuple (fst kv) (_ARGS_FOR_MATCH ++ _ARGS_FOR_READ)) kwargs
  then
    ReadAllFromAvroContinuously_init file_pattern label kwargs
    = Ok (mkReadAllFromAvroContinuously
            (mkReadAllFromAvro
               (mkReadAllFiles true
                  (keyword_or "desired_bundle_size"
                     (VInt DEFAULT_DESIRED_BUNDLE_SIZE) kwargs)
                  (keyword_or "min_bundle_size" (VInt 0) kwargs)
                  (keyword_or "min_bundle_size" (VInt 0) kwargs)
                  (keyword_or "with_filename" (VBool false) kwargs))
               label)
            file_pattern
            (filter (fun kv => in_tuple (fst kv) _ARGS_FOR_MATCH) kwargs))
  else
    ReadAllFromAvroContinuously_init file_pattern label kwargs = Raise TypeError.
Proof.
  intros Hd.
  set (fm := fun kv : string * value => in_tuple (fst kv) _ARGS_FOR_MATCH).
  set (fr := fun kv : string * value => in_tuple (fst kv) _ARGS_FOR_READ).
  set (fa := fun kv : string * value =>
               negb (in_tuple (fst kv) _ARGS_FOR_MATCH)
               && negb (in_tuple (fst kv) _ARGS_FOR_READ)).
  assert (Hknown : forall kv : string * value,
             in_tuple (fst kv) (_ARGS_FOR_MATCH ++ _ARGS_FOR_READ) = negb (fa kv)).
  { intros kv. unfold fa, in_tuple. rewrite existsb_app.
    destruct (existsb _ _ARGS_FOR_MATCH), (existsb _ _ARGS_FOR_READ); reflexivity. }
  unfold ReadAllFromAvroContinuously_init. fold fm fr fa.
  destruct (forallb _ kwargs) eqn:Eall.
  - assert (Hnil : filter fa kwargs = []).
    { apply (filter_nil_iff fa _ Hknown). exact Eall. }
    rewrite Hnil, app_nil_r.
    unfold ReadAllFromAvro_init, call_with_keywords.
    assert (Hd' : distinct (map fst (("label", label) :: filter fr kwargs)) = true).
    { cbn [map fst distinct]. apply andb_true_iff. split.
      - apply negb_true_iff.
        destruct (existsb _ _) eqn:E; [| reflexivity].
        apply existsb_eqb_In in E. apply in_map_iff in E.
        destruct E as ([k v] & Hk & Hin). cbn [fst] in Hk. subst k.
        apply filter_In in Hin. destruct Hin as [_ Hin]. vm_compute in Hin.
        discriminate.
      - apply distinct_filter_keys. exact Hd. }
    rewrite Hd'. cbn [negb].
    assert (Hp : forallb (fun kv : string * value =>
                            in_tuple (fst kv) (map fst ReadAllFromAvro_parameters))
                   (("label", label) :: filter fr kwargs) = true).
    { cbn [forallb]. apply andb_true_iff. split; [reflexivity |].
      apply forallb_forall. intros [k v] Hin. apply filter_In in Hin.
      destruct Hin as [_ Hin]. unfold fr, in_tuple in Hin. cbn [fst] in Hin.
      apply existsb_eqb_In in Hin. unfold in_tuple. cbn [fst].
      apply existsb_eqb_In.
      cbn in Hin. destruct Hin as [<- | [<- | [<- | [<- | []]]]]; cbn; tauto. }
    rewrite Hp. cbn [negb bind].
    assert (Hget : forall name,
               in_tuple name _ARGS_FOR_READ = true ->
               dict_get name (("label", label) :: filter fr kwargs)
               = dict_get name kwargs).
    { intros name Hn. cbn [dict_get].
      destruct (String.eqb_spec name "label") as [-> | _];
        [vm_compute in Hn; discriminate |].
      apply dict_get_filter. intros v. exact Hn. }
    unfold ReadAllFromAvro_parameters. cbn [map fst snd].
    rewrite (Hget "min_bundle_size" eq_refl), (Hget "desired_bundle_size" eq_refl),
      (Hget "use_fastavro" eq_refl), (Hget "with_filename" eq_refl).
    change (dict_get "label" (("label", label) :: filter fr kwargs))
      with (Some label).
    reflexivity.
  - assert (Hex : exists kv, In kv (filter fa kwargs)).
    { apply not_true_iff_false in Eall.
      destruct (filter fa kwargs) as [| kv l] eqn:Ef.
      - exfalso. apply Eall. apply (filter_nil_iff fa _ Hknown). exact Ef.
      - exists kv. left. reflexivity. }
    destruct Hex as ([k v] & Hin).
    unfold ReadAllFromAvro_init, call_with_keywords.
    destruct (distinct (map fst (("label", label) :: _))) eqn:Ed; cbn [negb];
      [| reflexivity].
    assert (Hp : forallb (fun kv : string * value =>
                            in_tuple (fst kv) (map fst ReadAllFromAvro_parameters))
                   (("label", label) :: filter fr kwargs ++ filter fa kwargs) = false).
    { apply not_true_iff_false. intros Hall. rewrite forallb_forall in Hall.
      specialize (Hall (k, v) (or_intror (in_or_app _ _ _ (or_intror Hin)))).
      apply filter_In in Hin. destruct Hin as [Hk Hfa]. unfold fa in Hfa.
      cbn [fst] in Hall, Hfa. apply andb_true_iff in Hfa. destruct Hfa as [Hm Hr].
      apply negb_true_iff in Hm, Hr. unfold in_tuple in *.
      apply existsb_eqb_In in Hall. cbn in Hall.
      assert (Hnr : ~ In k _ARGS_FOR_READ)
        by (intros Hc; apply existsb_eqb_In in Hc; congruence).
      destruct Hall as [<- | [<- | [<- | [<- | [<- | []]]]]];
        try (apply Hnr; cbn; tauto).
      cbn [map fst distinct] in Ed. apply andb_true_iff in Ed.
      destruct Ed as [Ed _]. apply negb_true_iff in Ed.
      assert (Hl : In "label" (map fst (filter fr kwargs ++ filter fa kwargs))).
      { apply in_map_iff. exists ("label", v). split; [reflexivity |].
        apply in_or_app. right. apply filter_In. split; [exact Hk |].
        unfold fa. cbn [fst]. unfold in_tuple. rewrite Hm, Hr. reflexivity. }
      apply existsb_eqb_In in Hl. congruence. }
    rewrite Hp. reflexivity.
Qed.

Lemma continuously_takes_exactly_the_known_keywords_witness :
  distinct (map fst [ ("interval", VInt 60); ("min_bundle_size", VInt 1024);
                      ("has_deduplication", VBool true) ]) = true /\
  ReadAllFromAvroContinuously_init (VStr "gs://bucket/*.avro") (VStr "Read")
    [ ("interval", VInt 60); ("min_bundle_size", VInt 1024);
      ("has_deduplication", VBool true) ]
  = Ok (mkReadAllFromAvroContinuously
          (mkReadAllFromAvro
             (mkReadAllFiles true (VInt DEFAULT_DESIRED_BUNDLE_SIZE)
                (VInt 1024) (VInt 1024) (VBool false))
             (VStr "Read"))
          (VStr "gs://bucket/*.avro")
          [ ("interval", VInt 60); ("has_deduplication", VBool true) ]).
Proof.
  split; [reflexivity |].
  exact (continuously_takes_exactly_the_known_keywords
           (VStr "gs://bucket/*.avro") (VStr "Read")
           [ ("interval", VInt 60); ("min_bundle_size", VInt 1024);
             ("has_deduplication", VBool true) ] eq_refl).
Defined.


